(** * Coefficient-domain JPEG transcoder: embedding and verification

    A shallow embedding of the [jpeg_transcoder] package (bitstream.py,
    huffman.py, rle.py, zigzag.py, quantization.py, io_1.py, compressor.py)
    and the properties its specification states about it.

    Python integers are [Z]; byte strings are [list Z] with entries in
    [0, 255]; counters that start at zero and only grow ([bytepos],
    [bitpos], list indices) are [nat]; raised exceptions are the [Raise]
    branch of [result]. *)

From Stdlib Require Import ZArith Lia Bool.
From Stdlib Require Import Floats.SpecFloat.
From stdpp Require Import base numbers option list gmap strings.

Local Open Scope Z_scope.

(** ** Python exceptions as values

    [OutOfFuel] is not a Python exception: it is what a loop of the model
    answers when the fuel it was given runs out.  Every loop below is run
    with fuel that is shown to be enough, so the program never meets it. *)

Inductive exn : Type :=
  | EOFError | ValueError | KeyError | IndexError | AssertionError
  | StructError | StopIteration | ZeroDivisionError | OverflowError
  | TypeError | FileNotFoundError
  | OutOfFuel.

Inductive result (A : Type) : Type :=
  | Ok (a : A)
  | Raise (e : exn).
Arguments Ok {A} a.
Arguments Raise {A} e.

Global Instance result_ret : MRet result := λ A a, Ok a.
Global Instance result_bind : MBind result := λ A B k m,
  match m with
  | Ok a => k a
  | Raise e => Raise e
  end.

(** ** bitstream.py *)

Module BitReader.

Record t : Type := mk { data : list Z; bytepos : nat; bitpos : nat }.

Definition init (d : list Z) : t := mk d 0 0.

Definition read_bit (r : t) : result (Z * t) :=
  match data r !! bytepos r with
  | None => Raise EOFError
  | Some byte =>
    let bit := Z.land (Z.shiftr byte (7 - Z.of_nat (bitpos r))) 1 in
    let bitpos' := S (bitpos r) in
    if (bitpos' =? 8)%nat then
      let bytepos' := S (bytepos r) in
      let stuffed :=
        (byte =? 255) &&
        match data r !! bytepos' with
        | Some next => next =? 0
        | None => false
        end in
      Ok (bit, mk (data r) (if stuffed then S bytepos' else bytepos') 0)
    else Ok (bit, mk (data r) (bytepos r) bitpos')
  end.

Fixpoint read_bits_loop (n : nat) (value : Z) (r : t) : result (Z * t) :=
  match n with
  | O => Ok (value, r)
  | S n' =>
    '(bit, r') ← read_bit r ;
    read_bits_loop n' (Z.lor (Z.shiftl value 1) bit) r'
  end.

Definition read_bits (n : nat) (r : t) : result (Z * t) :=
  read_bits_loop n 0 r.

End BitReader.

Module BitWriter.

Record t : Type := mk { buffer : list Z; curr_byte : Z; bitpos : nat }.

Definition init : t := mk [] 0 0.

Definition _flush_curr_byte (w : t) : t :=
  let byte := Z.land (curr_byte w) 255 in
  let buf := buffer w ++ [byte] in
  mk (if byte =? 255 then buf ++ [0] else buf) 0 0.

Definition write_bit (bit : Z) (w : t) : t :=
  let w' := mk (buffer w)
               (Z.lor (Z.shiftl (curr_byte w) 1) (Z.land bit 1))
               (S (bitpos w)) in
  if (bitpos w' =? 8)%nat then _flush_curr_byte w' else w'.

(** [for shift in range(n - 1, -1, -1)]: the recursion is on the number of
    shifts still to do, the current shift being [n' = n - 1]. *)
Fixpoint write_bits (n : nat) (value : Z) (w : t) : t :=
  match n with
  | O => w
  | S n' =>
    write_bits n' value
      (write_bit (Z.land (Z.shiftr value (Z.of_nat n')) 1) w)
  end.

Definition flush (w : t) : t :=
  if (0 <? bitpos w)%nat then
    _flush_curr_byte
      (mk (buffer w)
          (Z.shiftl (curr_byte w) (8 - Z.of_nat (bitpos w)))
          (bitpos w))
  else w.

Definition get_bytes (w : t) : list Z := buffer (flush w).

End BitWriter.

(** A sequence of [write_bits] calls, and the matching sequence of
    [read_bits] calls. *)
Fixpoint write_all (ws : list (nat * Z)) (w : BitWriter.t) : BitWriter.t :=
  match ws with
  | [] => w
  | (n, v) :: ws' => write_all ws' (BitWriter.write_bits n v w)
  end.

Fixpoint read_all (ns : list nat) (r : BitReader.t)
  : result (list Z * BitReader.t) :=
  match ns with
  | [] => Ok ([], r)
  | n :: ns' =>
    '(v, r') ← BitReader.read_bits n r ;
    '(vs, r'') ← read_all ns' r' ;
    Ok (v :: vs, r'')
  end.


(** ** rle.py: the symbol alphabet

    Python builds the tuples [("DC", v)], [(run, size, amplitude)],
    [("ZRL", 0)] and [("EOB", 0)]; the tag test [sym[0] == "ZRL"] is the
    match on the constructor. *)

Inductive symbol : Type :=
  | DC (dc_value : Z)
  | AC (run size amplitude : Z)
  | ZRL
  | EOB.

(** [int.bit_length()]: the number of bits of the absolute value. *)
Definition bit_length (v : Z) : Z :=
  if v =? 0 then 0 else Z.log2 (Z.abs v) + 1.

(** ** huffman.py *)

Module HuffmanTable.

Record t : Type := mk {
  codes : gmap Z (Z * nat);       (* symbol -> (code, length) *)
  decode_map : gmap Z (Z * nat)   (* code << (16 - length) -> (symbol, length) *)
}.

Record build_state : Type := mk_state {
  tbl : t;
  code : Z;
  p : nat
}.

(** The inner loop [for i in range(count)] at one code length. *)
Fixpoint assign_codes (count : nat) (bitlen : nat) (symbols : list Z)
    (s : build_state) : result build_state :=
  match count with
  | O => Ok s
  | S count' =>
    match symbols !! p s with
    | None => Raise IndexError
    | Some sym =>
      if (16 <? bitlen)%nat then Raise ValueError (* negative shift count *)
      else
        assign_codes count' bitlen symbols
          (mk_state
             (mk (<[sym := (code s, bitlen)]> (codes (tbl s)))
                 (<[Z.shiftl (code s) (16 - Z.of_nat bitlen) := (sym, bitlen)]>
                    (decode_map (tbl s))))
             (code s + 1)
             (S (p s)))
    end
  end.

(** The outer loop [for bitlen, count in enumerate(lengths, start=1)]. *)
Fixpoint build_loop (lengths : list Z) (bitlen : nat) (symbols : list Z)
    (s : build_state) : result build_state :=
  match lengths with
  | [] => Ok s
  | count :: lengths' =>
    s' ← assign_codes (Z.to_nat count) bitlen symbols s ;
    build_loop lengths' (S bitlen) symbols
      (mk_state (tbl s') (Z.shiftl (code s') 1) (p s'))
  end.

(** [HuffmanTable(lengths, symbols)] *)
Definition init (lengths symbols : list Z) : result t :=
  s ← build_loop lengths 1 symbols (mk_state (mk ∅ ∅) 0 0) ;
  Ok (tbl s).

Definition encode (T : t) (sym : Z) : result (Z * nat) :=
  match codes T !! sym with
  | Some cl => Ok cl
  | None => Raise KeyError
  end.

(** [for length in range(1, 17)]: [todo] iterations are left, the current
    one being at [length]. *)
Fixpoint decode_loop (T : t) (todo : nat) (length : nat) (code : Z)
    (r : BitReader.t) : result (Z * BitReader.t) :=
  match todo with
  | O => Raise ValueError (* Invalid Huffman code *)
  | S todo' =>
    '(bit, r') ← BitReader.read_bit r ;
    let code := Z.lor (Z.shiftl code 1) bit in
    let lookup := Z.shiftl code (16 - Z.of_nat length) in
    match decode_map T !! lookup with
    | Some (sym, _) => Ok (sym, r')
    | None => decode_loop T todo' (S length) code r'
    end
  end.

Definition decode (T : t) (r : BitReader.t) : result (Z * BitReader.t) :=
  decode_loop T 16 1 0 r.

End HuffmanTable.

(** [parse_dht]: the loop over the tables of one DHT payload, [i] being the
    read position; each iteration moves [i] forward by at least 17. *)
Fixpoint parse_dht_loop (fuel : nat) (payload : list Z) (i : nat)
    (dc_tables ac_tables : gmap Z HuffmanTable.t)
  : result (gmap Z HuffmanTable.t * gmap Z HuffmanTable.t) :=
  match payload !! i with
  | None => Ok (dc_tables, ac_tables)
  | Some tc_th =>
    match fuel with
    | O => Raise OutOfFuel
    | S fuel' =>
      let i := S i in
      let table_class := Z.shiftr tc_th 4 in
      let table_id := Z.land tc_th 0x0F in
      let lengths := take 16 (drop i payload) in
      let i := (i + 16)%nat in
      let total_syms := foldr Z.add 0 lengths in
      let symbols := take (Z.to_nat total_syms) (drop i payload) in
      let i := (i + Z.to_nat total_syms)%nat in
      table ← HuffmanTable.init lengths symbols ;
      if table_class =? 0
      then parse_dht_loop fuel' payload i (<[table_id := table]> dc_tables) ac_tables
      else parse_dht_loop fuel' payload i dc_tables (<[table_id := table]> ac_tables)
    end
  end.

Definition parse_dht (payload : list Z)
  : result (gmap Z HuffmanTable.t * gmap Z HuffmanTable.t) :=
  parse_dht_loop (length payload) payload 0 ∅ ∅.

(** The return value (the number of bits written) is not used by the
    callers and is left out. *)
Definition encode_coefficient (value : Z) (bitwriter : BitWriter.t)
  : BitWriter.t :=
  if value =? 0 then bitwriter
  else
    let size := bit_length value in
    if value <? 0 then
      let em := Z.shiftl 1 size + value - 1 in
      BitWriter.write_bits (Z.to_nat size) em bitwriter
    else BitWriter.write_bits (Z.to_nat size) value bitwriter.

(** [for sym in symbols[1:]] of [encode_symbols]. *)
Fixpoint encode_ac_symbols (syms : list symbol) (ac_table : HuffmanTable.t)
    (bitwriter : BitWriter.t) : result BitWriter.t :=
  match syms with
  | [] => Ok bitwriter
  | ZRL :: syms' =>
    '(code, length) ← HuffmanTable.encode ac_table 0xF0 ;
    encode_ac_symbols syms' ac_table (BitWriter.write_bits length code bitwriter)
  | EOB :: _ =>
    '(code, length) ← HuffmanTable.encode ac_table 0x00 ;
    Ok (BitWriter.write_bits length code bitwriter)
  | AC run size amp :: syms' =>
    let tag_byte := Z.lor (Z.shiftl run 4) size in
    '(code, length) ← HuffmanTable.encode ac_table tag_byte ;
    encode_ac_symbols syms' ac_table
      (encode_coefficient amp (BitWriter.write_bits length code bitwriter))
  | DC _ :: _ => Raise ValueError (* two values to unpack into three *)
  end.

Definition encode_symbols (symbols : list symbol)
    (dc_table ac_table : HuffmanTable.t) (bitwriter : BitWriter.t)
  : result BitWriter.t :=
  match symbols with
  | [] => Raise IndexError
  | DC dc_val :: syms =>
    let prev_size := if negb (dc_val =? 0) then bit_length dc_val else 0 in
    '(code, length) ← HuffmanTable.encode dc_table prev_size ;
    encode_ac_symbols syms ac_table
      (encode_coefficient dc_val (BitWriter.write_bits length code bitwriter))
  | AC _ _ _ :: _ => Raise ValueError (* three values to unpack into two *)
  | _ :: _ => Raise AssertionError
  end.

(** The amplitude bits behind a category: [size] bits, a value with the
    top bit clear standing for a negative amplitude.  [decode_symbols] has
    this code twice, for the DC and for the AC coefficients. *)
Definition decode_amplitude (size : Z) (bitreader : BitReader.t)
  : result (Z * BitReader.t) :=
  if 0 <? size then
    '(bits, bitreader) ← BitReader.read_bits (Z.to_nat size) bitreader ;
    Ok (if bits <? Z.shiftl 1 (size - 1) then bits - (Z.shiftl 1 size - 1)
        else bits, bitreader)
  else Ok (0, bitreader).

(** The bits a reader has not consumed yet. *)
Definition bits_left (r : BitReader.t) : nat :=
  (8 * (length (BitReader.data r) - BitReader.bytepos r) - BitReader.bitpos r)%nat.

(** [while count < 64] of [decode_symbols]; every iteration decodes one
    Huffman code, which takes at least one bit from the reader. *)
Fixpoint decode_ac_symbols (fuel : nat) (count : Z) (ac_table : HuffmanTable.t)
    (bitreader : BitReader.t) (symbols : list symbol)
  : result (list symbol * BitReader.t) :=
  if negb (count <? 64) then Ok (symbols, bitreader)
  else
    match fuel with
    | O => Raise OutOfFuel
    | S fuel' =>
      '(rs, bitreader) ← HuffmanTable.decode ac_table bitreader ;
      if rs =? 0x00 then Ok (symbols ++ [EOB], bitreader)
      else if rs =? 0xF0 then
        decode_ac_symbols fuel' (count + 16) ac_table bitreader (symbols ++ [ZRL])
      else
        let run := Z.shiftr rs 4 in
        let size := Z.land rs 0x0F in
        '(amp, bitreader) ← decode_amplitude size bitreader ;
        decode_ac_symbols fuel' (count + (run + 1)) ac_table bitreader
          (symbols ++ [AC run size amp])
    end.

Definition decode_symbols (bitreader : BitReader.t)
    (dc_table ac_table : HuffmanTable.t)
  : result (list symbol * BitReader.t) :=
  '(cat, bitreader) ← HuffmanTable.decode dc_table bitreader ;
  '(amplitude, bitreader) ← decode_amplitude cat bitreader ;
  decode_ac_symbols (S (bits_left bitreader)) 1 ac_table bitreader [DC amplitude].

(** ** rle.py *)

(** [while run > 15: out.append(("ZRL", 0)); run -= 16].  The loop runs
    [run / 16] times; [fuel] bounds the number of iterations. *)
Fixpoint zrl_loop (fuel : nat) (run : nat) (out : list symbol)
  : list symbol * nat :=
  match fuel with
  | O => (out, run)
  | S fuel' =>
    if (15 <? run)%nat then zrl_loop fuel' (run - 16) (out ++ [ZRL])
    else (out, run)
  end.

(** [for c in coeffs[1:]] with the loop state [(out, run)]. *)
Fixpoint encode_ac_loop (cs : list Z) (out : list symbol) (run : nat)
  : list symbol * nat :=
  match cs with
  | [] => (out, run)
  | c :: cs' =>
    if c =? 0 then encode_ac_loop cs' out (S run)
    else
      let '(out, run) := zrl_loop run run out in
      let size := if 0 <? c then bit_length c else bit_length (- c) in
      encode_ac_loop cs' (out ++ [AC (Z.of_nat run) size c]) 0
  end.

Definition encode_ac (coeffs : list Z) : result (list symbol) :=
  if negb (length coeffs =? 64)%nat then Raise ValueError
  else
    match coeffs with
    | [] => Raise IndexError
    | dc :: acs =>
      let '(out, run) := encode_ac_loop acs [DC dc] 0 in
      Ok (if (0 <? run)%nat then out ++ [EOB] else out)
    end.

(** [for i in range(n): if idx >= 64: break; coeffs[idx] = 0; idx += 1]. *)
Fixpoint zero_fill (n : nat) (st : list Z * nat) : list Z * nat :=
  match n with
  | O => st
  | S n' =>
    let '(coeffs, idx) := st in
    if (64 <=? idx)%nat then st
    else zero_fill n' (<[idx := 0]> coeffs, S idx)
  end.

(** [while idx < 64: coeffs[idx] = 0; idx += 1]: at most 64 iterations,
    since [idx] is never negative. *)
Definition fill_rest (st : list Z * nat) : list Z * nat := zero_fill 64 st.

(** [for sym in symbols[1:]]; the [EOB] case ends the loop ([break]). *)
Fixpoint decode_ac_loop (syms : list symbol) (st : list Z * nat)
  : result (list Z * nat) :=
  match syms with
  | [] => Ok st
  | ZRL :: syms' => decode_ac_loop syms' (zero_fill 16 st)
  | EOB :: _ => Ok (fill_rest st)
  | AC run _ amp :: syms' =>
    let '(coeffs, idx) := zero_fill (Z.to_nat run) st in
    decode_ac_loop syms'
      (if (idx <? 64)%nat then (<[idx := amp]> coeffs, S idx)
       else (coeffs, idx))
  | DC _ :: _ => Raise ValueError (* two values to unpack into three *)
  end.

Definition decode_ac (symbols : list symbol) : result (list Z) :=
  match symbols with
  | [] => Raise IndexError
  | DC dc_val :: syms =>
    st ← decode_ac_loop syms (<[0%nat := dc_val]> (replicate 64 0), 1%nat) ;
    Ok (fill_rest st).1
  | AC _ _ _ :: _ => Raise ValueError (* three values to unpack into two *)
  | _ :: _ => Raise ValueError (* First symbol must be DC *)
  end.

(** ** utils.py *)

Definition SOI  : Z := 0xD8.
Definition EOI  : Z := 0xD9.
Definition APP0 : Z := 0xE0.
Definition DQT  : Z := 0xDB.
Definition SOF0 : Z := 0xC0.
Definition DHT  : Z := 0xC4.
Definition SOS  : Z := 0xDA.

Definition ZIGZAG_ORDER : list nat :=
  [ 0;  1;  5;  6; 14; 15; 27; 28;
    2;  4;  7; 13; 16; 26; 29; 42;
    3;  8; 12; 17; 25; 30; 41; 43;
    9; 11; 18; 24; 31; 40; 44; 53;
   10; 19; 23; 32; 39; 45; 52; 54;
   20; 22; 33; 38; 46; 51; 55; 60;
   21; 34; 37; 47; 50; 56; 59; 61;
   35; 36; 48; 49; 57; 58; 62; 63 ]%nat.

(** ** zigzag.py *)

(** [l[i]] for an index that is not negative. *)
Definition index {A} (l : list A) (i : nat) : result A :=
  match l !! i with
  | Some x => Ok x
  | None => Raise IndexError
  end.

(** [[block[i][j] for i in range(8) for j in range(8)]] *)
Definition flatten8 {A} (block : list (list A)) : result (list A) :=
  rows ← mapM (λ i, row ← index block i ; mapM (index row) (seq 0 8)) (seq 0 8) ;
  Ok (concat rows).

(** [[[flat[r * 8 + c] for c in range(8)] for r in range(8)]] *)
Definition reshape8 {A} (flat : list A) : result (list (list A)) :=
  mapM (λ r, mapM (λ c, index flat (r * 8 + c)) (seq 0 8)) (seq 0 8).

Definition zigzag_order (block : list (list Z)) : result (list Z) :=
  if negb (length block =? 8)%nat
     || existsb (λ row, negb (length row =? 8)%nat) block
  then Raise ValueError
  else
    flat ← flatten8 block ;
    mapM (index flat) ZIGZAG_ORDER.

(** [for i, idx in enumerate(ZIGZAG_ORDER): flat[idx] = arr[i]] *)
Fixpoint place (arr : list Z) (i : nat) (order : list nat) (flat : list Z)
  : result (list Z) :=
  match order with
  | [] => Ok flat
  | idx :: order' =>
    x ← index arr i ;
    if (idx <? length flat)%nat then place arr (S i) order' (<[idx := x]> flat)
    else Raise IndexError
  end.

Definition inverse_zigzag (arr : list Z) : result (list (list Z)) :=
  if negb (length arr =? 64)%nat then Raise ValueError
  else
    flat ← place arr 0 ZIGZAG_ORDER (replicate 64 0) ;
    reshape8 flat.

(** ** Python numbers

    A Python [float] is an IEEE 754 binary64 number: [spec_float] at
    precision 53 and maximal exponent 1024, with the operations of
    [SpecFloat] (round to nearest, ties to even).  A number is an [int] or a
    [float]; arithmetic between the two converts the [int] first. *)

Definition prec : Z := 53.
Definition emax : Z := 1024.

Inductive pynum : Type :=
  | PyInt (z : Z)
  | PyFloat (f : spec_float).

Definition is_infinity (f : spec_float) : bool :=
  match f with S754_infinity _ => true | _ => false end.

Definition is_zero (f : spec_float) : bool :=
  match f with S754_zero _ => true | _ => false end.

(** [float(z)]: the nearest binary64 number, [OverflowError] beyond the
    range. *)
Definition float_of_int (z : Z) : result spec_float :=
  let f := binary_normalize prec emax z 0 false in
  if is_infinity f then Raise OverflowError else Ok f.

(** The integer [z] as an exact (not normalised) numerator or denominator. *)
Definition exact_int (z : Z) : spec_float :=
  match z with
  | Z0 => S754_zero false
  | Zpos m => S754_finite false m 0
  | Zneg m => S754_finite true m 0
  end.

Definition to_float (x : pynum) : result spec_float :=
  match x with
  | PyInt z => float_of_int z
  | PyFloat f => Ok f
  end.

Definition py_mul (x y : pynum) : result pynum :=
  match x, y with
  | PyInt a, PyInt b => Ok (PyInt (a * b))
  | _, _ =>
    fx ← to_float x ; fy ← to_float y ;
    Ok (PyFloat (SFmul prec emax fx fy))
  end.

Definition py_add (x y : pynum) : result pynum :=
  match x, y with
  | PyInt a, PyInt b => Ok (PyInt (a + b))
  | _, _ =>
    fx ← to_float x ; fy ← to_float y ;
    Ok (PyFloat (SFadd prec emax fx fy))
  end.

(** [x / y].  Between two [int]s the quotient is rounded once, from the
    exact ratio. *)
Definition py_truediv (x y : pynum) : result pynum :=
  match x, y with
  | PyInt a, PyInt b =>
    if b =? 0 then Raise ZeroDivisionError
    else
      let f := SFdiv prec emax (exact_int a) (exact_int b) in
      if is_infinity f then Raise OverflowError else Ok (PyFloat f)
  | _, _ =>
    fx ← to_float x ; fy ← to_float y ;
    if is_zero fy then Raise ZeroDivisionError
    else Ok (PyFloat (SFdiv prec emax fx fy))
  end.

(** [int(x)]: truncation towards zero. *)
Definition py_int (x : pynum) : result Z :=
  match x with
  | PyInt z => Ok z
  | PyFloat (S754_zero _) => Ok 0
  | PyFloat (S754_finite s m e) => Ok (cond_Zopp s (Z.shiftl (Zpos m) e))
  | PyFloat (S754_infinity _) => Raise OverflowError
  | PyFloat S754_nan => Raise ValueError
  end.

(** [round(x)] with one argument: the nearest integer, ties to even. *)
Definition py_round (x : pynum) : result Z :=
  match x with
  | PyInt z => Ok z
  | PyFloat (S754_zero _) => Ok 0
  | PyFloat (S754_finite s m e) =>
    if 0 <=? e then Ok (cond_Zopp s (Z.shiftl (Zpos m) e))
    else
      let d := 2 ^ (- e) in
      let q := Zpos m / d in
      let r := Zpos m mod d in
      let q' :=
        match 2 * r ?= d with
        | Lt => q
        | Gt => q + 1
        | Eq => if Z.even q then q else q + 1
        end in
      Ok (cond_Zopp s q')
  | PyFloat (S754_infinity _) => Raise OverflowError
  | PyFloat S754_nan => Raise ValueError
  end.

(** ** quantization.py *)

(** [q = int((v * factor + 50) / 100); q = max(1, min(q, 255))] *)
Definition scale_entry (factor : pynum) (v : Z) : result Z :=
  x ← py_mul (PyInt v) factor ;
  y ← py_add x (PyInt 50) ;
  z ← py_truediv y (PyInt 100) ;
  q ← py_int z ;
  Ok (Z.max 1 (Z.min q 255)).

Definition scale_table (table : list (list Z)) (quality : Z)
  : result (list (list Z)) :=
  let quality := if quality <? 1 then 1 else quality in
  let quality := if 100 <? quality then 100 else quality in
  factor ← (if quality <? 50 then py_truediv (PyInt 5000) (PyInt quality)
            else Ok (PyInt (200 - quality * 2))) ;
  mapM (mapM (scale_entry factor)) table.

(** [[[f(i, j) for j in range(8)] for i in range(8)]] *)
Definition comprehension8 {A} (f : nat → nat → result A)
  : result (list (list A)) :=
  mapM (λ i, mapM (f i) (seq 0 8)) (seq 0 8).

Definition index2 {A} (m : list (list A)) (i j : nat) : result A :=
  row ← index m i ; index row j.

Definition quantize_block (block q_table : list (list Z))
  : result (list (list Z)) :=
  comprehension8 (λ i j,
    b ← index2 block i j ; q ← index2 q_table i j ;
    x ← py_truediv (PyInt b) (PyInt q) ;
    py_round x).

Definition dequantize_block (q_block q_table : list (list Z))
  : result (list (list Z)) :=
  comprehension8 (λ i j,
    b ← index2 q_block i j ; q ← index2 q_table i j ;
    Ok (b * q)).

(** ** compressor.py: the table scaler of the pipeline

    A Python [dict] keeps its keys in insertion order, which
    [rebuild_dqt_payload] observes: it is a list of pairs without repeated
    keys. *)

Fixpoint dict_set {V} (k : Z) (v : V) (d : list (Z * V)) : list (Z * V) :=
  match d with
  | [] => [(k, v)]
  | (k', v') :: d' =>
    if k' =? k then (k, v) :: d' else (k', v') :: dict_set k v d'
  end.

Fixpoint dict_get {V} (d : list (Z * V)) (k : Z) : result V :=
  match d with
  | [] => Raise KeyError
  | (k', v') :: d' => if k' =? k then Ok v' else dict_get d' k
  end.

Definition build_scaled_qtables (orig_qtables_flat : list (Z * list Z))
    (quality : Z) : result (list (Z * list (list Z))) :=
  mapM (λ '(tid, flat),
    mat ← inverse_zigzag flat ;
    factor ← (if quality <? 50 then py_truediv (PyInt 5000) (PyInt quality)
              else Ok (PyInt (200 - quality * 2))) ;
    new_mat ← comprehension8 (λ i j,
      v ← index2 mat i j ;
      x ← py_mul (PyInt v) factor ;
      y ← py_add x (PyInt 50) ;
      z ← py_truediv y (PyInt 100) ;
      q ← py_int z ;
      Ok (Z.max 1 (Z.min 255 q))) ;
    Ok (tid, new_mat)) orig_qtables_flat.

(** *** The scaling formula as the specification words it *)

(** The integer nearest to [n / d] for [d > 0], ties to even. *)
Definition round_ratio (n d : Z) : Z :=
  let q := n / d in
  let r := n mod d in
  match 2 * r ?= d with
  | Lt => q
  | Gt => q + 1
  | Eq => if Z.even q then q else q + 1
  end.

Definition clamp_quality (quality : Z) : Z := Z.max 1 (Z.min quality 100).

(** [clamp(round((orig * factor + 50) / 100), 1, 255)] with
    [factor = 5000 / quality] below 50 and [200 - 2 * quality] from 50 on,
    in exact arithmetic. *)
Definition spec_scale_entry (quality v : Z) : Z :=
  let quality := clamp_quality quality in
  let r :=
    if quality <? 50
    then round_ratio (v * 5000 + 50 * quality) (100 * quality)
    else round_ratio (v * (200 - 2 * quality) + 50) 100 in
  Z.max 1 (Z.min r 255).

(** The same with the quotient truncated instead of rounded. *)
Definition trunc_scale_entry (quality v : Z) : Z :=
  let quality := clamp_quality quality in
  let r :=
    if quality <? 50
    then (v * 5000 + 50 * quality) / (100 * quality)
    else (v * (200 - 2 * quality) + 50) / 100 in
  Z.max 1 (Z.min r 255).

(** ** io_1.py *)

Record parsed : Type := mk_parsed {
  segments : list (Z * list Z);           (* (marker, payload) in file order *)
  quant_tables : list (Z * list Z);       (* dict: table id -> entries *)
  huff_tables : list (Z * list (list Z)); (* dict: DHT -> raw payloads *)
  frame_header : option (list Z);
  scan_header : option (list Z);
  scan_data : list Z
}.

(** [struct.unpack_from(">H", data, ptr)[0]] *)
Definition unpack_H (data : list Z) (ptr : nat) : result Z :=
  match data !! ptr, data !! S ptr with
  | Some hi, Some lo => Ok (Z.lor (Z.shiftl hi 8) lo)
  | _, _ => Raise StructError
  end.

(** [data[start:start + n]] for [start], [n] that are not negative. *)
Definition slice {A} (data : list A) (start n : nat) : list A :=
  take n (drop start data).

(** [[(raw[j] << 8) | raw[j+1] for j in range(0, count, 2)]] with [n]
    entries to read from [j] on. *)
Fixpoint be16_entries (raw : list Z) (j n : nat) : result (list Z) :=
  match n with
  | O => Ok []
  | S n' =>
    hi ← index raw j ; lo ← index raw (S j) ;
    rest ← be16_entries raw (j + 2) n' ;
    Ok (Z.lor (Z.shiftl hi 8) lo :: rest)
  end.

(** The loop over the tables of one DQT payload, [i] being the read
    position; each iteration moves [i] forward by at least 65. *)
Fixpoint dqt_loop (fuel : nat) (payload : list Z) (i : nat)
    (quant_tables : list (Z * list Z)) : result (list (Z * list Z)) :=
  match payload !! i with
  | None => Ok quant_tables
  | Some pq_tq =>
    match fuel with
    | O => Raise OutOfFuel
    | S fuel' =>
      let i := S i in
      let pq := Z.shiftr pq_tq 4 in
      let tq := Z.land pq_tq 0x0F in
      let entry_size := if pq =? 0 then 1%nat else 2%nat in
      let count := (64 * entry_size)%nat in
      let raw := slice payload i count in
      let i := (i + count)%nat in
      table ← (if pq =? 0 then Ok raw else be16_entries raw 0 64) ;
      dqt_loop fuel' payload i (dict_set tq table quant_tables)
    end
  end.

(** [huff_tables.setdefault(DHT, []).append(payload)] *)
Definition setdefault_append {V} (k : Z) (v : V) (d : list (Z * list V))
  : list (Z * list V) :=
  match dict_get d k with
  | Ok vs => dict_set k (vs ++ [v]) d
  | Raise _ => dict_set k [v] d
  end.

(** The main loop of [parse_jpeg]: [ptr] moves forward by at least one byte
    in each iteration. *)
Fixpoint parse_loop (fuel : nat) (data : list Z) (ptr : nat) (st : parsed)
  : result parsed :=
  match data !! ptr with
  | None => Ok st
  | Some byte =>
    match fuel with
    | O => Raise OutOfFuel
    | S fuel' =>
      if negb (byte =? 0xFF) then
        parse_loop fuel' data (S ptr)
          (mk_parsed (segments st) (quant_tables st) (huff_tables st)
             (frame_header st) (scan_header st) (scan_data st ++ [byte]))
      else
        marker ← index data (S ptr) ;
        let ptr := (ptr + 2)%nat in
        if marker =? EOI then
          Ok (mk_parsed (segments st ++ [(marker, [])]) (quant_tables st)
                (huff_tables st) (frame_header st) (scan_header st)
                (scan_data st))
        else
          length ← unpack_H data ptr ;
          let ptr := (ptr + 2)%nat in
          let payload := slice data ptr (Z.to_nat length - 2) in
          let ptr := (ptr + Z.to_nat length - 2)%nat in
          let segs := segments st ++ [(marker, payload)] in
          st' ←
            (if marker =? DQT then
               qt ← dqt_loop (Datatypes.length payload) payload 0 (quant_tables st) ;
               Ok (mk_parsed segs qt (huff_tables st) (frame_header st)
                     (scan_header st) (scan_data st))
             else if marker =? DHT then
               Ok (mk_parsed segs (quant_tables st)
                     (setdefault_append DHT payload (huff_tables st))
                     (frame_header st) (scan_header st) (scan_data st))
             else if marker =? SOF0 then
               Ok (mk_parsed segs (quant_tables st) (huff_tables st)
                     (Some payload) (scan_header st) (scan_data st))
             else if marker =? SOS then
               Ok (mk_parsed segs (quant_tables st) (huff_tables st)
                     (frame_header st) (Some payload) (scan_data st))
             else
               Ok (mk_parsed segs (quant_tables st) (huff_tables st)
                     (frame_header st) (scan_header st) (scan_data st))) ;
          parse_loop fuel' data ptr st'
    end
  end.

(** [parse_jpeg] on the bytes of the file. *)
Definition parse_jpeg_bytes (data : list Z) : result parsed :=
  if negb (bool_decide (take 2 data = [0xFF; 0xD8])) then Raise AssertionError
  else parse_loop (length data) data 2 (mk_parsed [] [] [] None None []).

(** The file system: the content of each existing file. *)
Definition parse_jpeg (fs : gmap string (list Z)) (path : string)
  : result parsed :=
  match fs !! path with
  | None => Raise FileNotFoundError
  | Some data => parse_jpeg_bytes data
  end.

(** ** compressor.py: rebuilding the file *)

(** [bytes([b])] *)
Definition bytes1 (b : Z) : result (list Z) :=
  if (0 <=? b) && (b <=? 255) then Ok [b] else Raise ValueError.

(** [struct.pack(">H", n)] *)
Definition pack_H (n : Z) : result (list Z) :=
  if (0 <=? n) && (n <=? 65535) then Ok [Z.shiftr n 8; Z.land n 255]
  else Raise StructError.

Definition build_segment (marker : Z) (payload : list Z) : result (list Z) :=
  let length := Z.of_nat (length payload) + 2 in
  m ← bytes1 marker ;
  l ← pack_H length ;
  Ok ([0xFF] ++ m ++ l ++ payload).

(** [payload.extend(zz)]: every element must be a byte. *)
Definition extend_bytes (payload zz : list Z) : result (list Z) :=
  if forallb (λ b, (0 <=? b) && (b <=? 255)) zz then Ok (payload ++ zz)
  else Raise ValueError.

Fixpoint rebuild_dqt_loop (items : list (Z * list (list Z)))
    (payload : list Z) : result (list Z) :=
  match items with
  | [] => Ok payload
  | (tid, mat) :: items' =>
    let payload := payload ++ [Z.land tid 0x0F] in
    flat ← flatten8 mat ;
    zz ← mapM (index flat) ZIGZAG_ORDER ;
    payload ← extend_bytes payload zz ;
    rebuild_dqt_loop items' payload
  end.

Definition rebuild_dqt_payload (scaled_qtables : list (Z * list (list Z)))
  : result (list Z) :=
  rebuild_dqt_loop scaled_qtables [].

(** The tests of the three passes over [segments]. *)
Definition is_app_or_com (m : Z) : bool :=
  ((APP0 <=? m) && (m <=? 0xEF)) || (m =? 0xFE).

Definition is_other_before_sos (frame_marker m : Z) : bool :=
  (m <? SOS) &&
  negb ((m =? SOI) || (m =? APP0) || (m =? DQT) || (m =? frame_marker)
        || (m =? DHT)).

(** The arguments of the successive [out.write] calls: each is evaluated,
    then written, and the first exception ends the sequence. *)
Definition rebuild_chunks (segments : list (Z * list Z))
    (frame_marker : Z) (frame_payload : list Z)
    (scan_payload : option (list Z))
    (scaled_qtables : list (Z * list (list Z))) (new_scan : list Z)
  : list (result (list Z)) :=
  (* 1) SOI *)
  [Ok [0xFF; SOI]]
  (* 2) APPn / COM *)
  ++ map (λ s, build_segment s.1 s.2)
         (List.filter (λ s, is_app_or_com s.1) segments)
  (* 3) New DQT *)
  ++ [p ← rebuild_dqt_payload scaled_qtables ; build_segment DQT p]
  (* 4) Frame header (SOFx) *)
  ++ [build_segment frame_marker frame_payload]
  (* 5) All DHT *)
  ++ map (λ s, build_segment DHT s.2)
         (List.filter (λ s, s.1 =? DHT) segments)
  (* 6) Any other markers before SOS *)
  ++ map (λ s, build_segment s.1 s.2)
         (List.filter (λ s, is_other_before_sos frame_marker s.1) segments)
  (* 7) SOS *)
  ++ [match scan_payload with
      | Some p => build_segment SOS p
      | None => Raise TypeError (* len(None) *)
      end]
  (* 8) Compressed scan data *)
  ++ [Ok new_scan]
  (* 9) EOI *)
  ++ [Ok [0xFF; EOI]].

Fixpoint write_chunks (chunks : list (result (list Z))) (out : list Z)
  : list Z * result () :=
  match chunks with
  | [] => (out, Ok ())
  | Ok b :: chunks' => write_chunks chunks' (out ++ b)
  | Raise e :: _ => (out, Raise e)
  end.

(** [open(out_path, "wb")] creates or empties the file; what is written
    before an exception stays in it. *)
Definition rebuild_jpeg (fs : gmap string (list Z))
    (segments : list (Z * list Z)) (frame_marker : Z)
    (frame_payload : list Z) (scan_payload : option (list Z))
    (scaled_qtables : list (Z * list (list Z))) (new_scan : list Z)
    (out_path : string) : gmap string (list Z) * result () :=
  let '(content, r) :=
    write_chunks (rebuild_chunks segments frame_marker frame_payload
                    scan_payload scaled_qtables new_scan) [] in
  (<[out_path := content]> fs, r).

(** ** io_1.py: [write_jpeg] *)

(** The [out.write] calls of one turn of the loop over [segments]. *)
Definition write_jpeg_segment (scan_bytes : list Z) (s : Z * list Z)
  : list (result (list Z)) :=
  let '(marker, payload) := s in
  [m ← bytes1 marker ; Ok ([0xFF] ++ m)]
  ++ (if marker =? EOI then []
      else
        [pack_H (Z.of_nat (length payload) + 2); Ok payload]
        ++ (if marker =? SOS then [Ok scan_bytes] else [])).

Definition write_jpeg_chunks (segments : list (Z * list Z))
    (scan_bytes : list Z) : list (result (list Z)) :=
  [Ok [0xFF; SOI]]
  ++ flat_map (write_jpeg_segment scan_bytes) segments
  ++ [Ok [0xFF; EOI]].

Definition write_jpeg (fs : gmap string (list Z)) (path : string)
    (segments : list (Z * list Z)) (scan_bytes : list Z)
  : gmap string (list Z) * result () :=
  let '(content, r) := write_chunks (write_jpeg_chunks segments scan_bytes) [] in
  (<[path := content]> fs, r).

(** ** compressor.py: the pipeline *)

(** [d[k]] on a dict of tables. *)
Definition table_get (d : gmap Z HuffmanTable.t) (k : Z)
  : result HuffmanTable.t :=
  match d !! k with
  | Some T => Ok T
  | None => Raise KeyError
  end.

(** [next((m, p) for (m, p) in segments if 0xC0 <= m <= 0xCF and m not in
    (DHT, SOS))] *)
Definition locate_frame (segments : list (Z * list Z))
  : result (Z * list Z) :=
  match List.find (λ s, (0xC0 <=? s.1) && (s.1 <=? 0xCF)
                        && negb ((s.1 =? DHT) || (s.1 =? SOS))) segments with
  | Some s => Ok s
  | None => Raise StopIteration
  end.

(** [for m, p in segments: if m == DHT: ...update(...)] *)
Fixpoint collect_dht (segments : list (Z * list Z))
    (dc_tables ac_tables : gmap Z HuffmanTable.t)
  : result (gmap Z HuffmanTable.t * gmap Z HuffmanTable.t) :=
  match segments with
  | [] => Ok (dc_tables, ac_tables)
  | (m, p) :: segments' =>
    if m =? DHT then
      '(dt, at') ← parse_dht p ;
      collect_dht segments' (dt ∪ dc_tables) (at' ∪ ac_tables)
    else collect_dht segments' dc_tables ac_tables
  end.

(** [while True: all_syms.append(decode_symbols(...))] inside
    [try ... except EOFError: pass]; every block takes at least one bit
    from the reader. *)
Fixpoint decode_all (fuel : nat) (br : BitReader.t)
    (dc_tables ac_tables : gmap Z HuffmanTable.t)
    (all_syms : list (list symbol)) : result (list (list symbol)) :=
  match fuel with
  | O => Raise OutOfFuel
  | S fuel' =>
    dc ← table_get dc_tables 0 ;
    ac ← table_get ac_tables 0 ;
    match decode_symbols br dc ac with
    | Ok (syms, br') =>
      decode_all fuel' br' dc_tables ac_tables (all_syms ++ [syms])
    | Raise EOFError => Ok all_syms
    | Raise e => Raise e
    end
  end.

(** [for syms in all_syms: ...] with the bit writer as the loop state. *)
Fixpoint reencode (all_syms : list (list symbol))
    (orig_qtables : list (Z * list Z))
    (scaled_qtables : list (Z * list (list Z)))
    (dc_tables ac_tables : gmap Z HuffmanTable.t) (bw : BitWriter.t)
  : result BitWriter.t :=
  match all_syms with
  | [] => Ok bw
  | syms :: all_syms' =>
    coeffs ← decode_ac syms ;
    qblk ← inverse_zigzag coeffs ;
    oq ← dict_get orig_qtables 0 ;
    oqm ← inverse_zigzag oq ;
    deq ← dequantize_block qblk oqm ;
    sq ← dict_get scaled_qtables 0 ;
    rq ← quantize_block deq sq ;
    zz ← zigzag_order rq ;
    new_syms ← encode_ac zz ;
    dc ← table_get dc_tables 0 ;
    ac ← table_get ac_tables 0 ;
    bw ← encode_symbols new_syms dc ac bw ;
    reencode all_syms' orig_qtables scaled_qtables dc_tables ac_tables bw
  end.

(** The steps of [compress], numbered as in its comments, the last one
    being the call of [rebuild_jpeg]. *)
Inductive stage : Type :=
  | StParse | StLocateFrame | StParseDHT | StDecode | StScale | StReencode
  | StRebuild.

Inductive outcome : Type :=
  | Done
  | Failed (s : stage) (e : exn).

(** What [compress] has computed when it calls [rebuild_jpeg]. *)
Record transcoded : Type := mk_transcoded {
  t_segments : list (Z * list Z);
  t_frame_marker : Z;
  t_frame_payload : list Z;
  t_scan_payload : option (list Z);
  t_scaled_qtables : list (Z * list (list Z));
  t_new_scan : list Z
}.

(** Steps 1 to 6: everything [compress] does before [rebuild_jpeg].  The
    only access to the file system is the read of the input file. *)
Definition transcode (fs : gmap string (list Z)) (input_path : string)
    (quality : Z) : stage * result transcoded :=
  (* 1) Parse *)
  match parse_jpeg fs input_path with
  | Raise e => (StParse, Raise e)
  | Ok data =>
  (* 2) Locate frame header *)
  match locate_frame (segments data) with
  | Raise e => (StLocateFrame, Raise e)
  | Ok (frame_marker, frame_payload) =>
  (* 3) Parse DHT *)
  match collect_dht (segments data) ∅ ∅ with
  | Raise e => (StParseDHT, Raise e)
  | Ok (dc_tables, ac_tables) =>
  (* 4) Decode all blocks *)
  let br := BitReader.init (scan_data data) in
  match decode_all (S (bits_left br)) br dc_tables ac_tables [] with
  | Raise e => (StDecode, Raise e)
  | Ok all_syms =>
  (* 5) Scale Q-tables *)
  match build_scaled_qtables (quant_tables data) quality with
  | Raise e => (StScale, Raise e)
  | Ok scaled_qtables =>
  (* 6) Re-encode scan *)
  match reencode all_syms (quant_tables data) scaled_qtables
          dc_tables ac_tables BitWriter.init with
  | Raise e => (StReencode, Raise e)
  | Ok bw =>
    (StRebuild,
     Ok (mk_transcoded (segments data) frame_marker frame_payload
           (scan_header data) scaled_qtables (BitWriter.get_bytes bw)))
  end end end end end end.

(** [compress(input_path, output_path, quality)]: the file system it
    leaves and how it ended. *)
Definition compress (fs : gmap string (list Z))
    (input_path output_path : string) (quality : Z)
  : gmap string (list Z) * outcome :=
  match transcode fs input_path quality with
  | (s, Raise e) => (fs, Failed s e)
  | (_, Ok t) =>
    (* 7) Write output *)
    let '(fs', r) :=
      rebuild_jpeg fs (t_segments t) (t_frame_marker t) (t_frame_payload t)
        (t_scan_payload t) (t_scaled_qtables t) (t_new_scan t) output_path in
    (fs', match r with Ok _ => Done | Raise e => Failed StRebuild e end)
  end.

(** ** Auxiliary definitions used by the proofs *)

(** Writing a list of bits one by one. *)
Fixpoint write_bit_list (bs : list bool) (w : BitWriter.t) : BitWriter.t :=
  match bs with
  | [] => w
  | b :: bs' => write_bit_list bs' (BitWriter.write_bit (Z.b2z b) w)
  end.

(** The [n] low bits of [v], most significant first: the bits that
    [write_bits n v] hands to [write_bit]. *)
Fixpoint bits_of (n : nat) (v : Z) : list bool :=
  match n with
  | O => []
  | S n' => Z.testbit v (Z.of_nat n') :: bits_of n' v
  end.

Definition all_bits (ws : list (nat * Z)) : list bool :=
  flat_map (λ p, bits_of p.1 p.2) ws.

(** The writer with its buffer emptied: what it still holds in
    [curr_byte]. *)
Definition pending (w : BitWriter.t) : BitWriter.t :=
  BitWriter.mk [] (BitWriter.curr_byte w) (BitWriter.bitpos w).

(** The reader [r] has consumed exactly the bits the writer [w] has taken,
    in a stream that ends with the bits [rest] still to be written. *)
Definition sync (rest : list bool) (w : BitWriter.t) (r : BitReader.t) : Prop :=
  (BitWriter.bitpos w < 8)%nat ∧
  0 ≤ BitWriter.curr_byte w < 2 ^ Z.of_nat (BitWriter.bitpos w) ∧
  BitReader.bitpos r = BitWriter.bitpos w ∧
  drop (BitReader.bytepos r) (BitReader.data r)
  = BitWriter.get_bytes (write_bit_list rest (pending w)).

(** The code [(c1, l1)] is a prefix of the code [(c2, l2)]. *)
Definition code_prefix (a b : Z * nat) : bool :=
  (a.2 <=? b.2)%nat && (Z.shiftr b.1 (Z.of_nat b.2 - Z.of_nat a.2) =? a.1).

(** No code of the list is a prefix of a later or earlier one. *)
Fixpoint prefix_free (codes : list (Z * nat)) : bool :=
  match codes with
  | [] => true
  | c :: codes' =>
    forallb (λ d, negb (code_prefix c d) && negb (code_prefix d c)) codes'
    && prefix_free codes'
  end.

(** The factor of [scale_table] once the quality is clamped. *)
Definition clamped_factor (quality : Z) : result pynum :=
  let quality := clamp_quality quality in
  if quality <? 50 then py_truediv (PyInt 5000) (PyInt quality)
  else Ok (PyInt (200 - quality * 2)).

(** The floating-point computation checked against exact integer
    arithmetic, for each quality from 1 to 100 and each entry from 1 to
    255. *)
Definition entries_truncate (q : Z) : bool :=
  match clamped_factor q with
  | Ok factor =>
    forallb (λ v,
      match scale_entry factor v with
      | Ok x => x =? trunc_scale_entry q v
      | Raise _ => false
      end) (seqZ 1 255)
  | Raise _ => false
  end.


(** A small file: SOI, a scan header with a one-byte payload, the
    entropy-coded bytes [12 FF 00 34 56 78], EOI. *)
Definition stuffed_file : list Z :=
  [0xFF; 0xD8;  0xFF; 0xDA; 0x00; 0x03; 0x01;
   0x12; 0xFF; 0x00; 0x34; 0x56; 0x78;  0xFF; 0xD9].


(** A small file with one segment of each kind: SOI, APP0, SOF0, DHT, SOS,
    two entropy-coded bytes, EOI. *)
Definition small_file : list Z :=
  [0xFF; 0xD8;
   0xFF; 0xE0; 0x00; 0x03; 0x4A;
   0xFF; 0xC0; 0x00; 0x03; 0x08;
   0xFF; 0xC4; 0x00; 0x03; 0x00;
   0xFF; 0xDA; 0x00; 0x03; 0x01;
   0x12; 0x34;
   0xFF; 0xD9].

(** A result that is a value or a Python exception: the model's loop did
    not run out of fuel. *)
Definition genuine {A} (r : result A) : Prop := r ≠ Raise OutOfFuel.

(** The reader's position is inside its data. *)
Definition reader_wf (r : BitReader.t) : Prop :=
  (BitReader.bitpos r < 8)%nat ∧
  (BitReader.bytepos r ≤ length (BitReader.data r))%nat.

(** A complete one-block grey-scale file: a quantization table of 16s, a
    frame header, a DHT segment with a DC table (category 0 -> 0,
    category 3 -> 1) and an AC table (EOB -> 0, run 0 size 3 -> 1), a scan
    header, and the block DC = 5, AC (0, 3, 4), EOB coded as the bits
    1 101 1 100 0 padded with ones. *)
Definition tiny_jpeg : list Z :=
  [0xFF; 0xD8]
  ++ [0xFF; 0xDB; 0x00; 0x43; 0x00] ++ replicate 64 16
  ++ [0xFF; 0xC0; 0x00; 0x0B; 0x08; 0x00; 0x08; 0x00; 0x08; 0x01; 0x01; 0x11; 0x00]
  ++ [0xFF; 0xC4; 0x00; 0x28]
  ++ ([0x00; 0x02] ++ replicate 15 0 ++ [0x00; 0x03])
  ++ ([0x10; 0x02] ++ replicate 15 0 ++ [0x00; 0x03])
  ++ [0xFF; 0xDA; 0x00; 0x08; 0x01; 0x01; 0x00; 0x00; 0x3F; 0x00]
  ++ [0xDC; 0x7F]
  ++ [0xFF; 0xD9].

(** What [compress] writes for [tiny_jpeg] at quality 50. *)
Definition tiny_jpeg_q50 : list Z :=
  [0xFF; 0xD8]
  ++ [0xFF; 0xDB; 0x00; 0x43; 0x00] ++ replicate 64 16
  ++ [0xFF; 0xC0; 0x00; 0x0B; 0x08; 0x00; 0x08; 0x00; 0x08; 0x01; 0x01; 0x11; 0x00]
  ++ [0xFF; 0xC4; 0x00; 0x28]
  ++ ([0x00; 0x02] ++ replicate 15 0 ++ [0x00; 0x03])
  ++ ([0x10; 0x02] ++ replicate 15 0 ++ [0x00; 0x03])
  ++ [0xFF; 0xD9; 0x00; 0x02]
  ++ [0xFF; 0xDA; 0x00; 0x08; 0x01; 0x01; 0x00; 0x00; 0x3F; 0x00]
  ++ [0xDC; 0x00]
  ++ [0xFF; 0xD9].

(** [tiny_jpeg] without its scan header and entropy-coded bytes. *)
Definition headless_jpeg : list Z :=
  [0xFF; 0xD8]
  ++ [0xFF; 0xC0; 0x00; 0x0B; 0x08; 0x00; 0x08; 0x00; 0x08; 0x01; 0x01; 0x11; 0x00]
  ++ [0xFF; 0xC4; 0x00; 0x28]
  ++ ([0x00; 0x02] ++ replicate 15 0 ++ [0x00; 0x03])
  ++ ([0x10; 0x02] ++ replicate 15 0 ++ [0x00; 0x03])
  ++ [0xFF; 0xD9].

(** ** Auxiliary definitions for the further properties *)

(** Every 0xFF of a byte string is followed by 0x00. *)
Definition every_ff_stuffed (l : list Z) : Prop :=
  ∀ i : nat, l !! i = Some 255 → l !! S i = Some 0.

(** The number of codes a list of length counts announces. *)
Definition code_count (lengths : list Z) : nat :=
  foldr (λ c acc, (Z.to_nat c + acc)%nat) 0%nat lengths.

(** The codes of the lengths [bitlen], [bitlen + 1], ... weighted for
    Kraft's inequality on a scale of 16 bits: a code of length [l] weighs
    [2^(16 - l)]. *)
Fixpoint kraft_sum (lengths : list Z) (bitlen : nat) : Z :=
  match lengths with
  | [] => 0
  | count :: lengths' =>
    Z.of_nat (Z.to_nat count) * 2 ^ (16 - Z.of_nat bitlen)
    + kraft_sum lengths' (S bitlen)
  end.


(** Every code has a length from 1 to 16 and fits that many bits. *)
Definition codes_fit (codes : gmap Z (Z * nat)) : Prop :=
  ∀ sym c l, codes !! sym = Some (c, l) →
    (1 ≤ l ≤ 16)%nat ∧ 0 ≤ c < 2 ^ Z.of_nat l.

(** The symbols [encode_ac] emits between the DC symbol and the end of
    block: zero-run markers, and runs of at most 15 zeros in front of a
    nonzero amplitude whose size is its bit length. *)
Definition rle_body_symbol (s : symbol) : Prop :=
  s = ZRL ∨
  ∃ run amp, s = AC run (bit_length amp) amp ∧ 0 ≤ run ≤ 15 ∧ amp ≠ 0.

(** A byte string: integers from 0 to 255. *)
Definition is_bytes (l : list Z) : Prop := Forall (λ b, 0 ≤ b ≤ 255) l.

(** A segment [write_jpeg] can frame and [parse_jpeg] can read back: a
    marker byte other than end-of-image, a payload of at most 65533
    bytes, and, for a quantization-table segment, a payload the table
    loop of [parse_jpeg] gets through. *)
Definition writable_segment (s : Z * list Z) : Prop :=
  0 ≤ s.1 ≤ 255 ∧ s.1 ≠ EOI ∧ Z.of_nat (length s.2) ≤ 65533 ∧
  (s.1 = DQT → ∃ qt, dqt_loop (length s.2) s.2 0 [] = Ok qt).

(** The entropy-coded bytes [write_jpeg] puts behind each scan header. *)
Definition scans_written (segments : list (Z * list Z)) (scan_bytes : list Z)
  : list Z :=
  flat_map (λ s : Z * list Z, if s.1 =? SOS then scan_bytes else []) segments.

(** The bytes [write_jpeg] writes for a list of segments, between the
    start-of-image and the end-of-image markers. *)
Definition segment_bytes (scan_bytes : list Z) (s : Z * list Z) : list Z :=
  [0xFF; s.1]
  ++ [Z.shiftr (Z.of_nat (length s.2) + 2) 8;
      Z.land (Z.of_nat (length s.2) + 2) 255]
  ++ s.2 ++ (if s.1 =? SOS then scan_bytes else []).

(** An 8x8 matrix of bytes, which is what a quantization table of 8-bit
    precision holds. *)
Definition byte_matrix (mat : list (list Z)) : Prop :=
  length mat = 8%nat ∧ Forall (λ row, length row = 8%nat ∧ is_bytes row) mat.

(** The dict the table loop of [parse_jpeg] builds from tables given in
    zigzag order, under the low four bits of their ids. *)
Definition tables_read_back (items : list (Z * list (list Z)))
    (zzs : list (list Z)) (quant_tables : list (Z * list Z))
  : list (Z * list Z) :=
  foldl (λ d (p : Z * list (list Z) * list Z), dict_set (Z.land p.1.1 15) p.2 d)
        quant_tables (zip items zzs).

(** A quantization table as the scalers return it: 8 rows of 8 entries
    from 1 to 255. *)
Definition scaled_matrix (mat : list (list Z)) : Prop :=
  length mat = 8%nat ∧
  Forall (λ row, length row = 8%nat ∧ Forall (λ v, 1 ≤ v ≤ 255) row) mat.

(** A writer whose buffer holds bytes, every 0xFF among them followed by
    0x00. *)
Definition stuffed_writer (w : BitWriter.t) : Prop :=
  every_ff_stuffed (BitWriter.buffer w) ∧ is_bytes (BitWriter.buffer w).

(** A segment [build_segment] can frame. *)
Definition frameable (s : Z * list Z) : Prop :=
  0 ≤ s.1 ≤ 255 ∧ Z.of_nat (length s.2) ≤ 65533 ∧ is_bytes s.2.

(** A dict whose keys are four-bit table ids. *)
Definition nibble_keys {V} (d : list (Z * V)) : Prop :=
  NoDup (map fst d) ∧ Forall (λ k, 0 ≤ k ≤ 15) (map fst d).

(** What the main loop of [parse_jpeg] maintains besides the shape of
    the segments: the scan header is the payload of a listed SOS
    segment, and the quantization tables are stored under four-bit
    ids. *)
Definition parse_inv (st : parsed) : Prop :=
  (∀ pl, scan_header st = Some pl → (SOS, pl) ∈ segments st) ∧
  nibble_keys (quant_tables st).

(** * Theorems *)

(** ** Bitstream codec *)

Example bitstream_stuffing_example :
  BitWriter.get_bytes (write_all [(8%nat, 255); (3%nat, 5)] BitWriter.init)
  = [255; 0; 160].
Proof. reflexivity. Qed.

Ltac wsimpl :=
  cbn [BitWriter.buffer BitWriter.curr_byte BitWriter.bitpos
       BitReader.data BitReader.bytepos BitReader.bitpos].

Lemma land_1_b2z b : Z.land (Z.b2z b) 1 = Z.b2z b.
Proof. by destruct b. Qed.

Lemma shiftr_land_1 v k : 0 ≤ k → Z.land (Z.shiftr v k) 1 = Z.b2z (Z.testbit v k).
Proof.
  intros Hk. change 1 with (Z.ones 1).
  rewrite Z.land_ones by lia.
  rewrite Z.shiftr_div_pow2 by lia.
  by rewrite Z.testbit_spec'.
Qed.

Lemma lor_shiftl_b2z c b : 0 ≤ c → Z.lor (Z.shiftl c 1) (Z.b2z b) = 2 * c + Z.b2z b.
Proof. intros Hc. destruct c, b; try reflexivity; lia. Qed.

Lemma write_bits_as_list n v w :
  BitWriter.write_bits n v w = write_bit_list (bits_of n v) w.
Proof.
  revert w. induction n as [|n IH]; intros w; [done|].
  simpl. rewrite shiftr_land_1 by lia. apply IH.
Qed.

Lemma write_bit_list_app bs1 bs2 w :
  write_bit_list (bs1 ++ bs2) w = write_bit_list bs2 (write_bit_list bs1 w).
Proof. revert w. induction bs1 as [|b bs1 IH]; intros w; [done|]. apply IH. Qed.

Lemma write_all_as_list ws w : write_all ws w = write_bit_list (all_bits ws) w.
Proof.
  revert w. induction ws as [|[n v] ws IH]; intros w; [done|].
  simpl. rewrite write_bit_list_app, <- write_bits_as_list. apply IH.
Qed.

(** The writer only ever appends to its buffer. *)
Lemma write_bit_buffer b buf cur k :
  BitWriter.write_bit b (BitWriter.mk buf cur k)
  = let w := BitWriter.write_bit b (BitWriter.mk [] cur k) in
    BitWriter.mk (buf ++ BitWriter.buffer w) (BitWriter.curr_byte w) (BitWriter.bitpos w).
Proof.
  unfold BitWriter.write_bit, BitWriter._flush_curr_byte. wsimpl.
  destruct (S k =? 8)%nat; wsimpl; [|by rewrite app_nil_r].
  by destruct (_ =? 255); rewrite <- ?app_assoc.
Qed.

Lemma get_bytes_buffer buf cur k :
  BitWriter.get_bytes (BitWriter.mk buf cur k)
  = buf ++ BitWriter.get_bytes (BitWriter.mk [] cur k).
Proof.
  unfold BitWriter.get_bytes, BitWriter.flush, BitWriter._flush_curr_byte. simpl.
  destruct (0 <? k)%nat; simpl; [|by rewrite app_nil_r].
  by destruct (_ =? 255); rewrite <- ?app_assoc.
Qed.

Lemma write_bit_list_buffer bs buf cur k :
  BitWriter.get_bytes (write_bit_list bs (BitWriter.mk buf cur k))
  = buf ++ BitWriter.get_bytes (write_bit_list bs (BitWriter.mk [] cur k)).
Proof.
  revert buf cur k. induction bs as [|b bs IH]; intros buf cur k.
  - apply get_bytes_buffer.
  - simpl. rewrite write_bit_buffer. simpl.
    destruct (BitWriter.write_bit (Z.b2z b) (BitWriter.mk [] cur k)) as [buf' cur' k'].
    simpl. rewrite IH, (IH buf'). by rewrite app_assoc.
Qed.

(** One [write_bit] on a writer holding [k < 8] pending bits. *)
Lemma write_bit_pending b cur k :
  0 ≤ cur →
  BitWriter.write_bit (Z.b2z b) (BitWriter.mk [] cur k)
  = let cur' := 2 * cur + Z.b2z b in
    if (S k =? 8)%nat then
      BitWriter.mk (if Z.land cur' 255 =? 255 then [Z.land cur' 255; 0]
                    else [Z.land cur' 255]) 0 0
    else BitWriter.mk [] cur' (S k).
Proof.
  intros Hc. unfold BitWriter.write_bit, BitWriter._flush_curr_byte. wsimpl.
  rewrite land_1_b2z, lor_shiftl_b2z by done.
  destruct (S k =? 8)%nat; [|done]. by destruct (_ =? 255).
Qed.

Lemma land_255_small c : 0 ≤ c < 256 → Z.land c 255 = c.
Proof.
  intros Hc. change 255 with (Z.ones 8). rewrite Z.land_ones by lia.
  apply Z.mod_small. lia.
Qed.

Lemma double_bit_bound cur b k :
  0 ≤ cur < 2 ^ Z.of_nat k → 0 ≤ 2 * cur + Z.b2z b < 2 ^ Z.of_nat (S k).
Proof.
  intros Hc. rewrite Nat2Z.inj_succ, Z.pow_succ_r by lia.
  destruct b; unfold Z.b2z; lia.
Qed.

Lemma shiftr_double_bit cur b : 0 ≤ cur → Z.shiftr (2 * cur + Z.b2z b) 1 = cur.
Proof.
  intros Hc. rewrite Z.shiftr_div_pow2 by lia. change (2 ^ 1) with 2.
  symmetry. apply (Z.div_unique_pos _ 2 cur (Z.b2z b)); [|done].
  destruct b; unfold Z.b2z; lia.
Qed.

(** With [k > 0] bits pending, the next byte written carries them in its
    top [k] bits, whatever is written afterwards. *)
Lemma pending_first_byte rest k cur :
  (0 < k < 8)%nat → 0 ≤ cur < 2 ^ Z.of_nat k →
  ∃ B tl,
    BitWriter.get_bytes (write_bit_list rest (BitWriter.mk [] cur k)) = B :: tl ∧
    Z.shiftr B (8 - Z.of_nat k) = cur.
Proof.
  revert k cur. induction rest as [|b rest IH]; intros k cur Hk Hc.
  - unfold BitWriter.get_bytes, BitWriter.flush, BitWriter._flush_curr_byte. simpl.
    destruct (Nat.ltb_spec 0 k) as [_|?]; [|lia]. simpl.
    assert (Hb : 0 ≤ Z.shiftl cur (8 - Z.of_nat k) < 256).
    { rewrite Z.shiftl_mul_pow2 by lia.
      assert (2 ^ Z.of_nat k * 2 ^ (8 - Z.of_nat k) = 256) as Hp.
      { rewrite <- Z.pow_add_r by lia. by replace (Z.of_nat k + (8 - Z.of_nat k)) with 8 by lia. }
      assert (0 < 2 ^ (8 - Z.of_nat k)) by (apply Z.pow_pos_nonneg; lia). nia. }
    rewrite land_255_small by done.
    destruct (_ =? 255); wsimpl; eexists _, _; (split; [reflexivity|]);
      rewrite Z.shiftr_shiftl_l by lia; by rewrite Z.sub_diag, Z.shiftl_0_r.
  - simpl. rewrite write_bit_pending by lia. cbv zeta.
    pose proof (double_bit_bound cur b k Hc) as Hc'.
    destruct (Nat.eqb_spec (S k) 8) as [Hk8|Hk8].
    + assert (k = 7%nat) as -> by lia.
      rewrite land_255_small by (change (2 ^ Z.of_nat 8) with 256 in Hc'; lia).
      exists (2 * cur + Z.b2z b).
      destruct (_ =? 255); rewrite write_bit_list_buffer; simpl;
        eexists; (split; [reflexivity|]); apply shiftr_double_bit; lia.
    + destruct (IH (S k) (2 * cur + Z.b2z b)) as (B & tl & Heq & HB); [lia|done|].
      exists B, tl. split; [done|].
      replace (8 - Z.of_nat k) with ((8 - Z.of_nat (S k)) + 1) by lia.
      rewrite <- Z.shiftr_shiftr by lia. rewrite HB.
      apply shiftr_double_bit; lia.
Qed.

Lemma drop_cons_lookup {A} (l : list A) n x tl :
  drop n l = x :: tl → l !! n = Some x ∧ drop (S n) l = tl.
Proof.
  intros Hd. split.
  - rewrite <- (Nat.add_0_r n), <- lookup_drop, Hd. done.
  - replace (S n) with (n + 1)%nat by lia. rewrite <- drop_drop, Hd. done.
Qed.

Lemma b2z_bit0 cur b : Z.land (2 * cur + Z.b2z b) 1 = Z.b2z b.
Proof.
  replace (2 * cur + Z.b2z b) with (Z.shiftr (2 * cur + Z.b2z b) 0)
    by apply Z.shiftr_0_r.
  rewrite shiftr_land_1 by lia. by rewrite Z.testbit_0_r.
Qed.

(** The simulation step: the reader returns the bit the writer takes. *)
Lemma sync_read_bit b rest w r :
  sync (b :: rest) w r →
  ∃ r', BitReader.read_bit r = Ok (Z.b2z b, r') ∧
        sync rest (BitWriter.write_bit (Z.b2z b) w) r'.
Proof.
  destruct w as [buf cur k], r as [data bp bi].
  unfold sync, pending. wsimpl. intros (Hk & Hc & -> & Hd).
  simpl write_bit_list in Hd.
  rewrite write_bit_buffer. rewrite write_bit_pending in * by lia. cbv zeta in *.
  pose proof (double_bit_bound cur b k Hc) as Hc'.
  unfold BitReader.read_bit. wsimpl.
  destruct (Nat.eqb_spec (S k) 8) as [Hk8|Hk8].
  - assert (k = 7%nat) as -> by lia.
    rewrite land_255_small in * by (change (2 ^ Z.of_nat 8) with 256 in Hc'; lia).
    change (7 - Z.of_nat 7) with 0.
    destruct (Z.eqb_spec (2 * cur + Z.b2z b) 255) as [HB|HB];
      rewrite write_bit_list_buffer in Hd; simpl in Hd;
      apply drop_cons_lookup in Hd as [-> Hd]; wsimpl;
      rewrite Z.shiftr_0_r, b2z_bit0.
    + apply drop_cons_lookup in Hd as [-> Hd].
      rewrite (proj2 (Z.eqb_eq _ _) HB). simpl.
      eexists. split; [reflexivity|]. wsimpl. repeat split; done || lia.
    + rewrite (proj2 (Z.eqb_neq _ _) HB). simpl.
      eexists. split; [reflexivity|]. wsimpl. repeat split; done || lia.
  - destruct (pending_first_byte rest (S k) (2 * cur + Z.b2z b))
      as (B & tl & Heq & HB); [lia|done|].
    rewrite Heq in Hd. pose proof Hd as Hd'.
    apply drop_cons_lookup in Hd' as [-> _].
    replace (7 - Z.of_nat k) with (8 - Z.of_nat (S k)) by lia.
    rewrite HB, b2z_bit0.
    eexists. split; [reflexivity|]. wsimpl.
    repeat split; try done; try lia. by rewrite Heq.
Qed.

Lemma sync_read_bits_loop bs rest w r acc :
  0 ≤ acc →
  sync (bs ++ rest) w r →
  ∃ r', BitReader.read_bits_loop (length bs) acc r
        = Ok (fold_left (λ a b, 2 * a + Z.b2z b) bs acc, r') ∧
        sync rest (write_bit_list bs w) r'.
Proof.
  revert w r acc. induction bs as [|b bs IH]; intros w r acc Hacc Hs.
  - exists r. done.
  - destruct (sync_read_bit _ _ _ _ Hs) as (r1 & Hr & Hs1).
    simpl. rewrite Hr. simpl. rewrite lor_shiftl_b2z by done.
    apply IH; [destruct b; unfold Z.b2z; lia|done].
Qed.

Lemma length_bits_of n v : length (bits_of n v) = n.
Proof. induction n; simpl; congruence. Qed.

Lemma bits_of_value n v acc :
  fold_left (λ a b, 2 * a + Z.b2z b) (bits_of n v) acc
  = acc * 2 ^ Z.of_nat n + v `mod` 2 ^ Z.of_nat n.
Proof.
  revert acc. induction n as [|n IH]; intros acc.
  - simpl. rewrite Z.mod_1_r. lia.
  - cbn [bits_of fold_left]. rewrite IH.
    rewrite Nat2Z.inj_succ, Z.pow_succ_r by lia.
    rewrite (Z.mul_comm 2 (2 ^ Z.of_nat n)).
    rewrite Z.rem_mul_r by (try apply Z.pow_nonzero; lia).
    rewrite Z.testbit_spec' by lia. lia.
Qed.

Lemma sync_read_bits n v rest w r :
  sync (bits_of n v ++ rest) w r →
  ∃ r', BitReader.read_bits n r = Ok (v `mod` 2 ^ Z.of_nat n, r') ∧
        sync rest (BitWriter.write_bits n v w) r'.
Proof.
  intros Hs.
  destruct (sync_read_bits_loop _ _ _ _ 0 (Z.le_refl 0) Hs) as (r' & Hr & Hs').
  exists r'. unfold BitReader.read_bits.
  rewrite length_bits_of, bits_of_value in Hr.
  rewrite write_bits_as_list. done.
Qed.

Lemma sync_read_all ws rest w r :
  sync (all_bits ws ++ rest) w r →
  ∃ r', read_all ws.*1 r = Ok ((λ p, p.2 `mod` 2 ^ Z.of_nat p.1) <$> ws, r') ∧
        sync rest (write_all ws w) r'.
Proof.
  revert w r. induction ws as [|[n v] ws IH]; intros w r Hs.
  - exists r. done.
  - simpl in Hs. rewrite <- app_assoc in Hs.
    destruct (sync_read_bits _ _ _ _ _ Hs) as (r1 & Hr1 & Hs1).
    destruct (IH _ _ Hs1) as (r2 & Hr2 & Hs2).
    exists r2. rewrite !fmap_cons. cbn [read_all fst snd].
    rewrite Hr1. cbn [mbind result_bind]. rewrite Hr2. done.
Qed.

(** What the reader returns for any written sequence, negative or
    oversized values included: the [width] low bits of each value. *)
Lemma bitstream_reads_low_bits (ws : list (nat * Z)) :
  ∃ r', read_all ws.*1
          (BitReader.init (BitWriter.get_bytes (write_all ws BitWriter.init)))
        = Ok ((λ p, p.2 `mod` 2 ^ Z.of_nat p.1) <$> ws, r').
Proof.
  destruct (sync_read_all ws [] BitWriter.init
              (BitReader.init (BitWriter.get_bytes (write_all ws BitWriter.init))))
    as (r' & Hr & _); [|by exists r'].
  unfold sync, pending. simpl. repeat split; try lia.
  by rewrite app_nil_r, write_all_as_list.
Qed.

(** C2. Whatever sequence of (width, value) pairs with [0 <= value <
    2^width] is written with [write_bits] and finalised with [get_bytes],
    a reader on the resulting bytes gets the same values back from
    [read_bits] with the same widths, whether or not 0xFF bytes were
    stuffed and whether or not the last byte was padded. *)
Theorem bitstream_round_trip (ws : list (nat * Z)) :
  Forall (λ p, 0 ≤ p.2 < 2 ^ Z.of_nat p.1) ws →
  ∃ r', read_all ws.*1
          (BitReader.init (BitWriter.get_bytes (write_all ws BitWriter.init)))
        = Ok (ws.*2, r').
Proof.
  intros Hws. destruct (bitstream_reads_low_bits ws) as (r' & Hr).
  exists r'. rewrite Hr. do 2 f_equal.
  apply Forall_fmap_ext_1. eapply Forall_impl; [exact Hws|].
  intros [n v] Hv. cbn [fst snd] in *. by apply Z.mod_small.
Qed.

Lemma bitstream_round_trip_witness :
  ∃ r', read_all [8; 3; 8; 2]%nat
          (BitReader.init
             (BitWriter.get_bytes
                (write_all [(8%nat, 255); (3%nat, 5); (8%nat, 255); (2%nat, 0)]
                   BitWriter.init)))
        = Ok ([255; 5; 255; 0], r').
Proof.
  apply (bitstream_round_trip [(8%nat, 255); (3%nat, 5); (8%nat, 255); (2%nat, 0)]).
  repeat constructor; simpl; lia.
Defined.

(** ** Huffman tables *)

(** The DC luminance table of the JPEG standard (Annex K.3): code lengths
    and symbols as they stand in the DHT segment of an ordinary file. *)
Example std_dc_luma_codes :
  (T ← HuffmanTable.init [0;1;5;1;1;1;1;1;1;0;0;0;0;0;0;0] [0;1;2;3;4;5;6;7;8;9;10;11] ;
   Ok (HuffmanTable.codes T !! 0, HuffmanTable.codes T !! 1,
       HuffmanTable.codes T !! 6, HuffmanTable.codes T !! 11))
  = Ok (Some (0, 2%nat), Some (2, 3%nat), Some (14, 4%nat), Some (510, 9%nat)).
Proof. vm_compute. reflexivity. Qed.

(** C7, at a failing input.  The standard DC luminance table is a valid
    pair (twelve symbols for twelve codes) and its code assignment is
    prefix-free; symbol 1 has the code 010.  Written to a bit stream and
    decoded again it comes back as symbol 0: after the first bit the
    left-aligned code is 0, which is the key of the two-bit code 00 of
    symbol 0, and [decode] does not compare the stored length with the
    number of bits it has read. *)
Theorem huffman_round_trip_fails_std_dc :
  ∃ T r',
    foldr Z.add 0 [0;1;5;1;1;1;1;1;1;0;0;0;0;0;0;0] = 12 ∧
    HuffmanTable.init [0;1;5;1;1;1;1;1;1;0;0;0;0;0;0;0]
                      [0;1;2;3;4;5;6;7;8;9;10;11] = Ok T ∧
    prefix_free (map snd (map_to_list (HuffmanTable.codes T))) = true ∧
    HuffmanTable.encode T 1 = Ok (2, 3%nat) ∧
    HuffmanTable.decode T
      (BitReader.init
         (BitWriter.get_bytes (BitWriter.write_bits 3 2 BitWriter.init)))
    = Ok (0, r') ∧
    BitReader.bytepos r' = 0%nat ∧ BitReader.bitpos r' = 1%nat.
Proof.
  eexists _, _. split; [reflexivity|].
  split; [vm_compute; reflexivity|].
  split; [vm_compute; reflexivity|].
  split; [vm_compute; reflexivity|].
  split; [vm_compute; reflexivity|]. done.
Qed.

(** ** Run-length symbol coder *)

Example encode_ac_long_run :
  encode_ac (7 :: replicate 20 0 ++ [-3] ++ replicate 42 0)
  = Ok [DC 7; ZRL; AC 4 2 (-3); EOB].
Proof. reflexivity. Qed.

Lemma zrl_loop_spec fuel run out :
  (run ≤ fuel)%nat →
  zrl_loop fuel run out = (out ++ replicate (run / 16) ZRL, (run `mod` 16)%nat).
Proof.
  revert run out. induction fuel as [|fuel IH]; intros run out Hf.
  - assert (run = 0%nat) as -> by lia. simpl. by rewrite app_nil_r.
  - cbn [zrl_loop]. destruct (Nat.ltb_spec 15 run) as [Hr|Hr].
    + rewrite IH by lia.
      assert (run / 16 = S ((run - 16) / 16))%nat as ->.
      { replace run with ((run - 16) + 1 * 16)%nat at 1 by lia.
        rewrite Nat.div_add by lia. lia. }
      assert (run `mod` 16 = (run - 16) `mod` 16)%nat as ->.
      { replace run with ((run - 16) + 1 * 16)%nat at 1 by lia.
        by rewrite Nat.Div0.mod_add. }
      cbn [replicate]. by rewrite <- app_assoc.
    + rewrite Nat.div_small, Nat.mod_small by lia. cbn [replicate]. by rewrite app_nil_r.
Qed.

Lemma encode_ac_loop_out cs out run :
  encode_ac_loop cs out run
  = (out ++ (encode_ac_loop cs [] run).1, (encode_ac_loop cs [] run).2).
Proof.
  revert out run. induction cs as [|c cs IH]; intros out run.
  - simpl. by rewrite app_nil_r.
  - cbn [encode_ac_loop]. destruct (c =? 0); [apply IH|].
    rewrite !zrl_loop_spec by lia.
    rewrite IH. rewrite (IH (_ ++ [AC _ _ _])). cbn [fst snd].
    by rewrite <- !app_assoc.
Qed.

Lemma zero_fill_zeros n (arr : list Z) idx :
  (∀ j, (idx ≤ j < Nat.min (idx + n) 64)%nat → arr !! j = Some 0) →
  zero_fill n (arr, idx)
  = (arr, if (64 <=? idx)%nat then idx else Nat.min (idx + n) 64).
Proof.
  revert idx. induction n as [|n IH]; intros idx Hz.
  - cbn [zero_fill]. destruct (Nat.leb_spec 64 idx); [done|]. f_equal. lia.
  - cbn [zero_fill]. destruct (Nat.leb_spec 64 idx) as [Hi|Hi]; [done|].
    rewrite list_insert_id by (apply Hz; lia).
    rewrite IH by (intros j Hj; apply Hz; lia).
    f_equal. destruct (Nat.leb_spec 64 (S idx)); lia.
Qed.

Lemma decode_zrl_prefix q rest (arr : list Z) idx :
  (∀ j, (idx ≤ j < idx + 16 * q)%nat → arr !! j = Some 0) →
  (idx + 16 * q ≤ 64)%nat →
  decode_ac_loop (replicate q ZRL ++ rest) (arr, idx)
  = decode_ac_loop rest (arr, (idx + 16 * q)%nat).
Proof.
  revert idx. induction q as [|q IH]; intros idx Hz Hq.
  - cbn [replicate app]. do 2 f_equal. lia.
  - cbn [replicate app decode_ac_loop].
    rewrite zero_fill_zeros by (intros j Hj; apply Hz; lia).
    destruct (Nat.leb_spec 64 idx); [lia|].
    rewrite Nat.min_l by lia.
    rewrite IH; [do 2 f_equal; lia| |lia].
    intros j Hj. apply Hz. lia.
Qed.

Lemma lookup_zero_tail (front cs : list Z) k j :
  (length front ≤ j < length front + k)%nat →
  (front ++ replicate k 0 ++ cs) !! j = Some 0.
Proof.
  intros Hj. rewrite lookup_app_r by lia.
  rewrite lookup_app_l by (rewrite length_replicate; lia).
  apply lookup_replicate_2. lia.
Qed.

(** Decoding what the encoder emits for the coefficients [cs], the encoder
    holding a run of [run] zeros and the decoder standing at the start of
    that run: the decoder ends with [cs] written behind the run and stands
    at the start of the final run. *)
Lemma decode_encode_ac_loop cs : ∀ (front : list Z) run tail,
  (length front + run + length cs = 64)%nat →
  decode_ac_loop ((encode_ac_loop cs [] run).1 ++ tail)
    (front ++ replicate (run + length cs) 0, length front)
  = decode_ac_loop tail
      (front ++ replicate run 0 ++ cs,
       (64 - (encode_ac_loop cs [] run).2)%nat)
  ∧ (∀ j, (64 - (encode_ac_loop cs [] run).2 ≤ j < 64)%nat →
          (front ++ replicate run 0 ++ cs) !! j = Some 0)
  ∧ ((encode_ac_loop cs [] run).2 ≤ run + length cs)%nat.
Proof.
  induction cs as [|c cs IH]; intros front run tail Hlen.
  - cbn [encode_ac_loop fst snd app length] in *.
    rewrite Nat.add_0_r, app_nil_r.
    replace (64 - run)%nat with (length front) by lia.
    split; [done|]. split; [|lia].
    intros j Hj. rewrite <- (app_nil_r (replicate run 0)).
    apply lookup_zero_tail. lia.
  - cbn [encode_ac_loop length] in *. destruct (Z.eqb_spec c 0) as [->|Hc].
    + destruct (IH front (S run) tail) as (H1 & H2 & H3); [lia|].
      replace (run + S (length cs))%nat with (S run + length cs)%nat by lia.
      rewrite H1.
      assert (front ++ replicate (S run) 0 ++ cs
              = front ++ replicate run 0 ++ 0 :: cs) as Heq.
      { rewrite replicate_S_end, <- (app_assoc (replicate run 0)). done. }
      rewrite Heq in *. split; [done|]. split; [done|]. lia.
    + rewrite zrl_loop_spec by lia. rewrite encode_ac_loop_out. cbn [fst snd app].
      set (size := if 0 <? c then bit_length c else bit_length (- c)).
      pose proof (Nat.div_mod_eq run 16) as Hrun.
      destruct (IH (front ++ replicate run 0 ++ [c]) 0%nat tail)
        as (H1 & H2 & H3).
      { rewrite !length_app, length_replicate. simpl. lia. }
      rewrite <- !app_assoc.
      rewrite decode_zrl_prefix; cycle 1.
      { intros j Hj. rewrite lookup_app_r by lia.
        apply lookup_replicate_2. lia. }
      { lia. }
      cbn [app decode_ac_loop]. rewrite Nat2Z.id.
      rewrite zero_fill_zeros; cycle 1.
      { intros j Hj. rewrite lookup_app_r by lia.
        apply lookup_replicate_2. lia. }
      destruct (Nat.leb_spec 64 (length front + 16 * (run `div` 16))); [lia|].
      rewrite Nat.min_l by lia.
      replace (length front + 16 * (run `div` 16) + run `mod` 16)%nat
        with (length front + run)%nat by lia.
      destruct (Nat.ltb_spec (length front + run) 64); [|lia].
      assert (<[(length front + run)%nat:=c]>
                (front ++ replicate (run + S (length cs)) 0)
              = (front ++ replicate run 0 ++ [c]) ++ replicate (0 + length cs) 0)
        as ->.
      { rewrite replicate_add, !app_assoc.
        rewrite insert_app_r_alt by (rewrite length_app, length_replicate; lia).
        rewrite length_app, length_replicate.
        replace (length front + run - (length front + run))%nat with 0%nat by lia.
        cbn [replicate]. simpl. by rewrite <- !app_assoc. }
      replace (S (length front + run))
        with (length (front ++ replicate run 0 ++ [c])).
      2:{ rewrite !length_app, length_replicate. simpl. lia. }
      rewrite H1.
      assert ((front ++ replicate run 0 ++ [c]) ++ replicate 0 0 ++ cs
              = front ++ replicate run 0 ++ c :: cs) as Heq.
      { cbn [replicate app]. by rewrite <- !app_assoc. }
      rewrite Heq in *. split; [done|]. split; [done|]. lia.
Qed.

(** C6. A list of exactly 64 integers is encoded to symbols that decode
    back to the same list. *)
Theorem rle_round_trip (coeffs : list Z) :
  length coeffs = 64%nat →
  (encode_ac coeffs ≫= decode_ac) = Ok coeffs.
Proof.
  intros Hlen. unfold encode_ac. rewrite Hlen. cbn [Nat.eqb negb].
  destruct coeffs as [|dc acs]; [done|]. cbn [length] in Hlen.
  rewrite encode_ac_loop_out.
  destruct (decode_encode_ac_loop acs [dc] 0%nat
              (if (0 <? (encode_ac_loop acs [] 0).2)%nat then [EOB] else []))
    as (H1 & H2 & H3); [simpl; lia|].
  assert (Hout :
    (if (0 <? (encode_ac_loop acs [] 0).2)%nat
     then ([DC dc] ++ (encode_ac_loop acs [] 0).1) ++ [EOB]
     else [DC dc] ++ (encode_ac_loop acs [] 0).1)
    = DC dc :: (encode_ac_loop acs [] 0).1
        ++ (if (0 <? (encode_ac_loop acs [] 0).2)%nat then [EOB] else [])).
  { destruct (0 <? _)%nat; simpl; [done|by rewrite app_nil_r]. }
  rewrite Hout. cbn [mbind result_bind decode_ac].
  change (<[0%nat:=dc]> (replicate 64 0))
    with ([dc] ++ replicate (0 + 63) 0).
  replace 63%nat with (length acs) by lia.
  change 1%nat with (length [dc]). rewrite H1.
  cbn [replicate app] in *.
  set (r := (encode_ac_loop acs [] 0).2) in *.
  assert (Hfill : ∀ idx, (64 - r ≤ idx)%nat →
            (fill_rest (dc :: acs, idx)).1 = dc :: acs).
  { intros idx Hidx. unfold fill_rest. rewrite zero_fill_zeros; [done|].
    intros j Hj. apply H2. lia. }
  destruct (0 <? r)%nat; cbn [decode_ac_loop mbind result_bind].
  - f_equal. unfold fill_rest at 2. rewrite zero_fill_zeros by (intros j Hj; apply H2; lia).
    apply Hfill. destruct (64 <=? 64 - r)%nat; lia.
  - f_equal. apply Hfill. lia.
Qed.

Lemma rle_round_trip_witness :
  (encode_ac (7 :: replicate 20 0 ++ [-3] ++ replicate 42 0) ≫= decode_ac)
  = Ok (7 :: replicate 20 0 ++ [-3] ++ replicate 42 0).
Proof.
  apply (rle_round_trip (7 :: replicate 20 0 ++ [-3] ++ replicate 42 0)).
  reflexivity.
Defined.

(** ** Zigzag reorder *)

Example zigzag_order_example :
  zigzag_order (map (λ r, map (λ c, Z.of_nat (r * 8 + c)) (seq 0 8)) (seq 0 8))
  = Ok (map Z.of_nat ZIGZAG_ORDER).
Proof. reflexivity. Qed.

(** Name the elements of a list whose length is known. *)
Ltac explode l H :=
  repeat (destruct l as [|? l]; [discriminate H|]; simpl in H);
  destruct l; [clear H|simpl in H; lia].

Lemma zigzag_shape_ok (M : list (list Z)) :
  length M = 8%nat → Forall (λ row, length row = 8%nat) M →
  negb (length M =? 8)%nat || existsb (λ row, negb (length row =? 8)%nat) M
  = false.
Proof.
  intros -> HM. simpl. apply not_true_is_false. intros He.
  apply existsb_exists in He as (row & Hin & Hrow).
  rewrite Forall_forall in HM.
  rewrite (HM row) in Hrow; [done|]. by apply list_elem_of_In.
Qed.

Lemma zigzag_shape_bad (M : list (list Z)) :
  ¬ (length M = 8%nat ∧ Forall (λ row, length row = 8%nat) M) →
  negb (length M =? 8)%nat || existsb (λ row, negb (length row =? 8)%nat) M
  = true.
Proof.
  intros Hbad. apply not_false_is_true. intros He.
  apply orb_false_elim in He as [Hl He]. apply Hbad. split.
  - apply Nat.eqb_eq. by destruct (length M =? 8)%nat.
  - rewrite Forall_forall. intros row Hin.
    apply Nat.eqb_eq. destruct (length row =? 8)%nat eqn:Hr; [done|].
    assert (existsb (λ row, negb (length row =? 8)%nat) M = true); [|congruence].
    apply existsb_exists. exists row. rewrite Hr.
    split; [by apply list_elem_of_In|done].
Qed.

Lemma inverse_zigzag_zigzag_order (M : list (list Z)) :
  length M = 8%nat → Forall (λ row, length row = 8%nat) M →
  (zigzag_order M ≫= inverse_zigzag) = Ok M.
Proof.
  intros HM Hrows. explode M HM.
  repeat match goal with
         | H : Forall _ (_ :: _) |- _ => apply Forall_cons in H as [? H]
         end.
  clear Hrows.
  repeat match goal with
         | H : length ?l = 8%nat |- _ => explode l H
         end.
  vm_compute. reflexivity.
Qed.

Lemma zigzag_order_inverse_zigzag (S : list Z) :
  length S = 64%nat → (inverse_zigzag S ≫= zigzag_order) = Ok S.
Proof. intros HS. explode S HS. vm_compute. reflexivity. Qed.

(** C8. [zigzag_order] and [inverse_zigzag] undo each other on every 8x8
    matrix and on every list of 64 elements, and each raises [ValueError]
    on an input of another shape. *)
Theorem zigzag_inverse_law :
  (∀ M : list (list Z),
     length M = 8%nat → Forall (λ row, length row = 8%nat) M →
     (zigzag_order M ≫= inverse_zigzag) = Ok M) ∧
  (∀ S : list Z,
     length S = 64%nat → (inverse_zigzag S ≫= zigzag_order) = Ok S) ∧
  (∀ M : list (list Z),
     ¬ (length M = 8%nat ∧ Forall (λ row, length row = 8%nat) M) →
     zigzag_order M = Raise ValueError) ∧
  (∀ S : list Z, length S ≠ 64%nat → inverse_zigzag S = Raise ValueError).
Proof.
  split; [exact inverse_zigzag_zigzag_order|].
  split; [exact zigzag_order_inverse_zigzag|].
  split.
  - intros M Hbad. unfold zigzag_order. by rewrite zigzag_shape_bad.
  - intros S HS. unfold inverse_zigzag.
    by rewrite (proj2 (Nat.eqb_neq _ _) HS).
Qed.

Lemma zigzag_inverse_law_witness :
  (zigzag_order (replicate 8 [1; 2; 3; 4; 5; 6; 7; 8]) ≫= inverse_zigzag)
  = Ok (replicate 8 [1; 2; 3; 4; 5; 6; 7; 8]) ∧
  (inverse_zigzag (replicate 64 7) ≫= zigzag_order) = Ok (replicate 64 7) ∧
  zigzag_order [[1; 2]; [3; 4]] = Raise ValueError ∧
  inverse_zigzag [1; 2; 3] = Raise ValueError.
Proof.
  destruct zigzag_inverse_law as (H1 & H2 & H3 & H4).
  split; [apply H1; [reflexivity|repeat constructor]|].
  split; [apply H2; reflexivity|].
  split; [apply H3; intros [Hlen _]; discriminate Hlen|].
  apply H4. discriminate.
Defined.

(** ** Quantization tables *)

Example scale_table_luma_75 :
  scale_table [[16; 11; 10; 16; 24; 40; 51; 61]] 75
  = Ok [[8; 6; 5; 8; 12; 20; 26; 31]].
Proof. vm_compute. reflexivity. Qed.

Lemma mapM_ok {A B} (f : A → result B) (g : A → B) (l : list A) :
  Forall (λ x, f x = Ok (g x)) l → mapM f l = Ok (map g l).
Proof.
  induction 1 as [|x l Hx _ IH]; [done|].
  cbn [mapM map]. rewrite Hx. cbn [mbind result_bind]. by rewrite IH.
Qed.

Lemma mapM_ext {A B} (f g : A → result B) (l : list A) :
  (∀ x, f x = g x) → mapM f l = mapM g l.
Proof.
  intros Hfg. induction l as [|x l IH]; [done|].
  cbn [mapM]. by rewrite Hfg, IH.
Qed.

Lemma scale_table_unfold table quality :
  scale_table table quality
  = (factor ← clamped_factor quality ; mapM (mapM (scale_entry factor)) table).
Proof.
  unfold scale_table, clamped_factor, clamp_quality.
  destruct (Z.ltb_spec quality 1), (Z.ltb_spec 100 quality);
    try lia; repeat f_equal.
  - destruct (Z.ltb_spec 100 1); [lia|].
    replace (Z.max 1 (Z.min quality 100)) with 1 by lia. done.
  - destruct (Z.ltb_spec 100 100); [lia|].
    replace (Z.max 1 (Z.min quality 100)) with 100 by lia. done.
  - destruct (Z.ltb_spec 100 quality); [lia|].
    replace (Z.max 1 (Z.min quality 100)) with quality by lia. done.
Qed.

Lemma entries_truncate_all : forallb entries_truncate (seqZ 1 100) = true.
Proof. vm_compute. reflexivity. Qed.

Lemma range_check (P : Z → bool) :
  forallb P (seqZ 1 255) = true → ∀ v, 1 ≤ v ≤ 255 → P v = true.
Proof.
  intros HP v Hv. rewrite forallb_forall in HP.
  apply HP, list_elem_of_In, elem_of_seqZ. lia.
Qed.

Lemma scale_entry_truncates quality :
  ∃ factor, clamped_factor quality = Ok factor ∧
    ∀ v, 1 ≤ v ≤ 255 → scale_entry factor v = Ok (trunc_scale_entry quality v).
Proof.
  set (q := clamp_quality quality).
  assert (Hq : 1 ≤ q ≤ 100) by (unfold q, clamp_quality; lia).
  assert (Hcq : clamp_quality q = q) by (unfold clamp_quality; lia).
  assert (Hf : clamped_factor quality = clamped_factor q).
  { unfold clamped_factor. fold q. by rewrite Hcq. }
  assert (Ht : ∀ v, trunc_scale_entry quality v = trunc_scale_entry q v).
  { intros v. unfold trunc_scale_entry. fold q. by rewrite Hcq. }
  pose proof entries_truncate_all as Hall.
  rewrite forallb_forall in Hall.
  specialize (Hall q). unfold entries_truncate in Hall.
  rewrite Hf. destruct (clamped_factor q) as [factor|e].
  2:{ exfalso. apply not_false_iff_true in Hall; [done|].
      apply list_elem_of_In, elem_of_seqZ. lia. }
  exists factor. split; [done|]. intros v Hv.
  assert (Hin : In q (seqZ 1 100)) by (apply list_elem_of_In, elem_of_seqZ; lia).
  specialize (Hall Hin). rewrite forallb_forall in Hall.
  specialize (Hall v). rewrite Ht.
  destruct (scale_entry factor v) as [x|e].
  - f_equal. apply Z.eqb_eq, Hall, list_elem_of_In, elem_of_seqZ. lia.
  - exfalso. apply not_false_iff_true in Hall; [done|].
    apply list_elem_of_In, elem_of_seqZ. lia.
Qed.

Lemma scale_table_entries (g : Z → Z) table quality :
  (∀ v, 1 ≤ v ≤ 255 → trunc_scale_entry quality v = g v) →
  Forall (Forall (λ v, 1 ≤ v ≤ 255)) table →
  scale_table table quality = Ok (map (map g) table).
Proof.
  intros Hg Htable. rewrite scale_table_unfold.
  destruct (scale_entry_truncates quality) as (factor & -> & Hentry).
  cbn [mbind result_bind]. apply mapM_ok.
  eapply Forall_impl; [exact Htable|]. intros row Hrow. cbn beta.
  apply mapM_ok. eapply Forall_impl; [exact Hrow|].
  intros v Hv. cbn beta. rewrite Hentry by done. f_equal. by apply Hg.
Qed.

(** C4, as the code has it.  For every quality (clamped into [1, 100]
    first) and every table of integers in [1, 255], each entry of the
    scaled table is [(orig * factor + 50) / 100] with the fraction dropped,
    clamped into [1, 255], where [factor] is [5000 / quality] below 50 and
    [200 - 2 * quality] from 50 on. *)
Theorem scale_table_truncates (table : list (list Z)) (quality : Z) :
  Forall (Forall (λ v, 1 ≤ v ≤ 255)) table →
  scale_table table quality
  = Ok (map (map (trunc_scale_entry quality)) table).
Proof. by apply scale_table_entries. Qed.

Lemma scale_table_truncates_witness :
  scale_table (replicate 8 (replicate 8 16)) 30
  = Ok (map (map (trunc_scale_entry 30)) (replicate 8 (replicate 8 16))).
Proof.
  apply (scale_table_truncates (replicate 8 (replicate 8 16)) 30).
  repeat constructor; lia.
Defined.

(** C4 as stated does not hold: at quality 40 an entry 1 gives
    [(1 * 125 + 50) / 100 = 1.75], which the code truncates to 1 and
    rounding would take to 2. *)
Lemma scale_table_not_rounded :
  scale_table (replicate 8 (replicate 8 1)) 40
  = Ok (replicate 8 (replicate 8 1)) ∧
  spec_scale_entry 40 1 = 2 ∧
  scale_table (replicate 8 (replicate 8 1)) 40
  ≠ Ok (map (map (spec_scale_entry 40)) (replicate 8 (replicate 8 1))).
Proof.
  split; [vm_compute; reflexivity|]. split; [reflexivity|].
  vm_compute. discriminate.
Qed.

(** C5, as the code has it.  On a table of integers in [1, 255]: quality
    50 gives the table back; quality 100 gives 1 everywhere; quality 1
    gives [min(255, 50 * orig)], which is 255 exactly where the original
    entry is at least 6. *)
Theorem scale_table_boundaries (table : list (list Z)) :
  Forall (Forall (λ v, 1 ≤ v ≤ 255)) table →
  scale_table table 50 = Ok table ∧
  scale_table table 100 = Ok (map (map (λ _, 1)) table) ∧
  scale_table table 1 = Ok (map (map (λ v, Z.min 255 (50 * v))) table) ∧
  (Forall (Forall (λ v, 6 ≤ v)) table →
   scale_table table 1 = Ok (map (map (λ _, 255)) table)).
Proof.
  intros Htable.
  assert (H1 : ∀ v, 1 ≤ v ≤ 255 → trunc_scale_entry 1 v = Z.min 255 (50 * v)).
  { intros v Hv. apply Z.eqb_eq.
    apply (range_check (λ v, trunc_scale_entry 1 v =? Z.min 255 (50 * v)));
      [vm_compute; reflexivity|done]. }
  split; [|split; [|split]].
  - rewrite (scale_table_entries id); [| |done].
    + f_equal. rewrite <- (map_id table) at 2. apply map_ext. intros row.
      apply map_id.
    + intros v Hv. apply Z.eqb_eq.
      apply (range_check (λ v, trunc_scale_entry 50 v =? id v));
        [vm_compute; reflexivity|done].
  - apply scale_table_entries; [|done].
    intros v Hv. apply Z.eqb_eq.
    apply (range_check (λ v, trunc_scale_entry 100 v =? 1));
      [vm_compute; reflexivity|done].
  - by apply scale_table_entries.
  - intros H6. rewrite (scale_table_entries (λ v, Z.min 255 (50 * v))); [|done..].
    f_equal. apply Forall_fmap_ext_1.
    eapply Forall_impl; [exact H6|]. intros row Hrow. cbn beta.
    apply Forall_fmap_ext_1. eapply Forall_impl; [exact Hrow|].
    intros v Hv. cbn beta in Hv |- *. lia.
Qed.

Lemma scale_table_boundaries_witness :
  scale_table [[16; 11]; [12; 255]] 50 = Ok [[16; 11]; [12; 255]] ∧
  scale_table [[16; 11]; [12; 255]] 100 = Ok [[1; 1]; [1; 1]] ∧
  scale_table [[16; 11]; [12; 255]] 1 = Ok [[255; 255]; [255; 255]].
Proof.
  destruct (scale_table_boundaries [[16; 11]; [12; 255]]) as (H50 & H100 & _ & H1).
  { repeat constructor; lia. }
  split; [exact H50|]. split; [exact H100|].
  apply H1. repeat constructor; lia.
Defined.

(** C5 as stated does not hold at quality 1: an entry 1 becomes
    [int((1 * 5000 + 50) / 100) = 50], not 255. *)
Lemma scale_table_quality_1_small_entries :
  scale_table (replicate 8 (replicate 8 1)) 1
  = Ok (replicate 8 (replicate 8 50)) ∧
  scale_table (replicate 8 (replicate 8 1)) 1
  ≠ Ok (replicate 8 (replicate 8 255)).
Proof. split; [vm_compute; reflexivity|vm_compute; discriminate]. Qed.

Lemma inverse_zigzag_8x8 (flat : list Z) :
  length flat = 64%nat →
  ∃ M, inverse_zigzag flat = Ok M ∧
       length M = 8%nat ∧ Forall (λ row, length row = 8%nat) M.
Proof.
  intros Hlen. explode flat Hlen. eexists. split; [vm_compute; reflexivity|].
  split; [reflexivity|]. repeat constructor.
Qed.

Lemma inverse_zigzag_ok_length (flat : list Z) M :
  inverse_zigzag flat = Ok M → length flat = 64%nat.
Proof.
  unfold inverse_zigzag. destruct (Nat.eqb_spec (length flat) 64); done.
Qed.

(** Walking an 8x8 matrix by indices is walking it row by row. *)
Lemma comprehension8_rows {A B} (f : A → result B) (M : list (list A)) :
  length M = 8%nat → Forall (λ row, length row = 8%nat) M →
  comprehension8 (λ i j, v ← index2 M i j ; f v) = mapM (mapM f) M.
Proof.
  intros HM Hrows. explode M HM.
  repeat match goal with
         | H : Forall _ (_ :: _) |- _ => apply Forall_cons in H as [? H]
         end.
  clear Hrows.
  repeat match goal with
         | H : length ?l = 8%nat |- _ => explode l H
         end.
  reflexivity.
Qed.

(** C10. For a quality in [1, 100] the table scaler of the pipeline gives,
    table by table, what [scale_table] gives on the un-zigzagged matrix. *)
Theorem build_scaled_qtables_agrees (orig_qtables_flat : list (Z * list Z))
    (quality : Z) :
  1 ≤ quality ≤ 100 →
  build_scaled_qtables orig_qtables_flat quality
  = mapM (λ '(tid, flat),
      mat ← inverse_zigzag flat ;
      new_mat ← scale_table mat quality ;
      Ok (tid, new_mat)) orig_qtables_flat.
Proof.
  intros Hq. unfold build_scaled_qtables. apply mapM_ext. intros [tid flat].
  destruct (inverse_zigzag flat) as [mat|e] eqn:Hmat; [|done].
  cbn [mbind result_bind].
  destruct (inverse_zigzag_8x8 flat) as (M & HM & Hlen & Hrows).
  { by eapply inverse_zigzag_ok_length. }
  assert (M = mat) as -> by congruence.
  unfold scale_table.
  destruct (Z.ltb_spec quality 1); [lia|].
  destruct (Z.ltb_spec 100 quality); [lia|].
  destruct (if quality <? 50 then _ else _) as [factor|e]; [|done].
  cbn [mbind result_bind].
  rewrite (comprehension8_rows
             (λ v, x ← py_mul (PyInt v) factor ; y ← py_add x (PyInt 50) ;
                   z ← py_truediv y (PyInt 100) ; q ← py_int z ;
                   Ok (Z.max 1 (Z.min 255 q)))) by done.
  assert (mapM (mapM (λ v, x ← py_mul (PyInt v) factor ; y ← py_add x (PyInt 50) ;
                   z ← py_truediv y (PyInt 100) ; q ← py_int z ;
                   Ok (Z.max 1 (Z.min 255 q)))) mat
          = mapM (mapM (scale_entry factor)) mat) as ->; [|done].
  apply mapM_ext. intros row. apply mapM_ext. intros v.
  unfold scale_entry.
  destruct (py_mul _ _) as [x|]; [|done]. cbn [mbind result_bind].
  destruct (py_add _ _) as [y|]; [|done]. cbn [mbind result_bind].
  destruct (py_truediv _ _) as [z|]; [|done]. cbn [mbind result_bind].
  destruct (py_int _) as [q|]; [|done]. cbn [mbind result_bind].
  by rewrite Z.min_comm.
Qed.

Lemma build_scaled_qtables_agrees_witness :
  build_scaled_qtables [(0, replicate 64 16)] 30
  = mapM (λ '(tid, flat),
      mat ← inverse_zigzag flat ;
      new_mat ← scale_table mat 30 ;
      Ok (tid, new_mat)) [(0, replicate 64 16)].
Proof. apply (build_scaled_qtables_agrees [(0, replicate 64 16)] 30). lia. Defined.

(** ** Segment parser *)

(** C1, at a failing input.  The stuffed pair [FF 00] in the scan is taken
    for a marker 0x00 with the length field [34 56]: the rest of the file
    becomes the payload of a segment, the end-of-image marker is never
    seen, and of the six entropy-coded bytes only the first reaches
    [scan_data]. *)
Theorem parse_jpeg_stuffed_pair :
  ∃ p, parse_jpeg_bytes stuffed_file = Ok p ∧
       scan_data p = [0x12] ∧
       segments p = [(0xDA, [0x01]); (0x00, [0x78; 0xFF; 0xD9])] ∧
       scan_data p ≠ [0x12; 0xFF; 0x00; 0x34; 0x56; 0x78].
Proof.
  eexists. split; [vm_compute; reflexivity|]. cbn [scan_data segments].
  split; [done|]. split; [done|]. discriminate.
Qed.

(** The defect is general: [parse_jpeg] never puts a 0xFF byte into
    [scan_data], so no stuffed pair can survive parsing. *)
Lemma parse_loop_scan_data_no_ff fuel data ptr st p :
  255 ∉ scan_data st →
  parse_loop fuel data ptr st = Ok p →
  255 ∉ scan_data p.
Proof.
  revert ptr st. induction fuel as [|fuel IH]; intros ptr st Hst;
    cbn [parse_loop]; destruct (data !! ptr) as [byte|];
    try (intros [= <-]; done); try done.
  destruct (Z.eqb_spec byte 255) as [->|Hbyte]; cbn [negb].
  - destruct (index data (S ptr)) as [marker|]; [|done].
    cbn [mbind result_bind]. cbv zeta.
    destruct (marker =? EOI); [by intros [= <-]|].
    destruct (unpack_H data (ptr + 2)) as [len|]; [|done].
    cbn [mbind result_bind].
    destruct (marker =? DQT).
    { destruct (dqt_loop _ _ _ _); [|done]. cbn [mbind result_bind].
      by apply IH. }
    destruct (marker =? DHT); [by apply IH|].
    destruct (marker =? SOF0); [by apply IH|].
    destruct (marker =? SOS); by apply IH.
  - apply IH. cbn [scan_data]. rewrite elem_of_app, list_elem_of_singleton.
    intros [?|?]; [done|congruence].
Qed.

Lemma parse_jpeg_scan_data_no_ff data p :
  parse_jpeg_bytes data = Ok p → 255 ∉ scan_data p.
Proof.
  unfold parse_jpeg_bytes. destruct (negb _); [done|].
  apply parse_loop_scan_data_no_ff. cbn [scan_data]. apply not_elem_of_nil.
Qed.

(** ** Segment writer *)

(** C3, at a failing input.  [parse_jpeg] records the end-of-image marker
    as the segment [(0xD9, b"")]; pass 6 of [rebuild_jpeg] writes every
    segment whose marker is below 0xDA and is not one of SOI, APP0, DQT,
    the frame marker and DHT, so it frames that segment as [FF D9 00 02]
    between the Huffman tables and the scan header. *)
Theorem rebuild_jpeg_emits_parsed_eoi :
  ∃ p,
    parse_jpeg_bytes small_file = Ok p ∧
    segments p
    = [(0xE0, [0x4A]); (0xC0, [0x08]); (0xC4, [0x00]); (0xDA, [0x01]);
       (0xD9, [])] ∧
    write_chunks
      (rebuild_chunks (segments p) 0xC0 [0x08] (scan_header p) [] [0x55]) []
    = ([0xFF; 0xD8;
        0xFF; 0xE0; 0x00; 0x03; 0x4A;
        0xFF; 0xDB; 0x00; 0x02;
        0xFF; 0xC0; 0x00; 0x03; 0x08;
        0xFF; 0xC4; 0x00; 0x03; 0x00;
        0xFF; 0xD9; 0x00; 0x02;
        0xFF; 0xDA; 0x00; 0x03; 0x01;
        0x55;
        0xFF; 0xD9], Ok ()).
Proof.
  eexists. split; [vm_compute; reflexivity|].
  split; vm_compute; reflexivity.
Qed.

(** The defect is general: whenever the segment list holds an end-of-image
    entry, as every list from [parse_jpeg] of a complete file does, pass 6
    frames it as a segment. *)
Lemma rebuild_chunks_frames_eoi segments frame_marker frame_payload
    scan_payload scaled_qtables new_scan p :
  In (EOI, p) segments → frame_marker ≠ EOI →
  In (build_segment EOI p)
     (rebuild_chunks segments frame_marker frame_payload scan_payload
        scaled_qtables new_scan).
Proof.
  intros Hin Hfm. unfold rebuild_chunks.
  do 5 (apply in_or_app; right). apply in_or_app; left.
  apply (in_map (λ s, build_segment s.1 s.2) _ (EOI, p)).
  apply filter_In. split; [done|]. unfold is_other_before_sos. cbn [fst].
  rewrite (proj2 (Z.eqb_neq EOI frame_marker)) by done.
  reflexivity.
Qed.

(** ** The pipeline *)

(** *** No loop of the model runs out of fuel *)

Lemma genuine_bind {A B} (m : result A) (k : A → result B) :
  genuine m → (∀ a, m = Ok a → genuine (k a)) → genuine (m ≫= k).
Proof.
  destruct m as [a|e]; [intros _ Hk; by apply Hk|].
  unfold genuine. cbn. intros H _ [= ->]. done.
Qed.

Lemma genuine_mapM {A B} (f : A → result B) (l : list A) :
  (∀ x, genuine (f x)) → genuine (mapM f l).
Proof.
  intros Hf. induction l as [|x l IH]; [done|].
  cbn [mapM]. apply genuine_bind; [done|]. intros y _.
  apply genuine_bind; [done|]. done.
Qed.

Create HintDb genuine.

Ltac genuine_step :=
  match goal with
  | |- genuine (Ok _) => discriminate
  | |- genuine (Raise _) => discriminate
  | |- genuine (mret _) => discriminate
  | |- genuine (_ ≫= _) => apply genuine_bind; [|intros ? ?]
  | |- genuine (mapM _ _) => apply genuine_mapM; intros ?
  | |- genuine (if ?b then _ else _) => destruct b
  | |- genuine (match ?x with _ => _ end) => destruct x
  | |- genuine _ => solve [auto with genuine]
  end.

Ltac genuine_auto := repeat genuine_step.

Lemma genuine_index {A} (l : list A) i : genuine (index l i).
Proof. unfold index. genuine_auto. Qed.
#[local] Hint Resolve genuine_index : genuine.

Lemma genuine_index2 {A} (m : list (list A)) i j : genuine (index2 m i j).
Proof. unfold index2. genuine_auto. Qed.
#[local] Hint Resolve genuine_index2 : genuine.

Lemma genuine_comprehension8 {A} (f : nat → nat → result A) :
  (∀ i j, genuine (f i j)) → genuine (comprehension8 f).
Proof. intros Hf. unfold comprehension8. genuine_auto. Qed.

Lemma genuine_flatten8 {A} (block : list (list A)) : genuine (flatten8 block).
Proof. unfold flatten8. genuine_auto. Qed.
#[local] Hint Resolve genuine_flatten8 : genuine.

Lemma genuine_zigzag_order block : genuine (zigzag_order block).
Proof. unfold zigzag_order. genuine_auto. Qed.
#[local] Hint Resolve genuine_zigzag_order : genuine.

Lemma genuine_place arr i order flat : genuine (place arr i order flat).
Proof.
  revert i flat. induction order as [|idx order IH]; intros i flat;
    cbn [place]; genuine_auto.
Qed.
#[local] Hint Resolve genuine_place : genuine.

Lemma genuine_inverse_zigzag arr : genuine (inverse_zigzag arr).
Proof. unfold inverse_zigzag, reshape8. genuine_auto. Qed.
#[local] Hint Resolve genuine_inverse_zigzag : genuine.

Lemma genuine_float_of_int z : genuine (float_of_int z).
Proof. unfold float_of_int. genuine_auto. Qed.
#[local] Hint Resolve genuine_float_of_int : genuine.

Lemma genuine_to_float x : genuine (to_float x).
Proof. unfold to_float. genuine_auto. Qed.
#[local] Hint Resolve genuine_to_float : genuine.

Lemma genuine_py_mul x y : genuine (py_mul x y).
Proof. unfold py_mul. genuine_auto. Qed.

Lemma genuine_py_add x y : genuine (py_add x y).
Proof. unfold py_add. genuine_auto. Qed.

Lemma genuine_py_truediv x y : genuine (py_truediv x y).
Proof. unfold py_truediv. genuine_auto. Qed.

Lemma genuine_py_int x : genuine (py_int x).
Proof. unfold py_int. genuine_auto. Qed.

Lemma genuine_py_round x : genuine (py_round x).
Proof. unfold py_round. genuine_auto. Qed.
#[local] Hint Resolve genuine_py_mul genuine_py_add genuine_py_truediv
  genuine_py_int genuine_py_round : genuine.

Lemma genuine_quantize_block block q_table :
  genuine (quantize_block block q_table).
Proof. unfold quantize_block. apply genuine_comprehension8. intros. genuine_auto. Qed.

Lemma genuine_dequantize_block block q_table :
  genuine (dequantize_block block q_table).
Proof. unfold dequantize_block. apply genuine_comprehension8. intros. genuine_auto. Qed.
#[local] Hint Resolve genuine_quantize_block genuine_dequantize_block : genuine.

Lemma genuine_build_scaled_qtables d quality :
  genuine (build_scaled_qtables d quality).
Proof.
  unfold build_scaled_qtables. apply genuine_mapM. intros [tid flat].
  genuine_auto. apply genuine_comprehension8. intros. genuine_auto.
Qed.

Lemma genuine_dict_get {V} (d : list (Z * V)) k : genuine (dict_get d k).
Proof. induction d as [|[k' v] d IH]; cbn [dict_get]; genuine_auto. Qed.
#[local] Hint Resolve genuine_dict_get : genuine.

Lemma genuine_table_get d k : genuine (table_get d k).
Proof. unfold table_get. genuine_auto. Qed.
#[local] Hint Resolve genuine_table_get : genuine.

Lemma genuine_encode_ac coeffs : genuine (encode_ac coeffs).
Proof.
  unfold encode_ac. genuine_auto.
Qed.
#[local] Hint Resolve genuine_encode_ac : genuine.

Lemma genuine_decode_ac_loop syms st : genuine (decode_ac_loop syms st).
Proof.
  revert st. induction syms as [|[]]; intros st; cbn [decode_ac_loop];
    genuine_auto.
Qed.
#[local] Hint Resolve genuine_decode_ac_loop : genuine.

Lemma genuine_decode_ac symbols : genuine (decode_ac symbols).
Proof. unfold decode_ac. genuine_auto. Qed.
#[local] Hint Resolve genuine_decode_ac : genuine.

Lemma genuine_encode T sym : genuine (HuffmanTable.encode T sym).
Proof. unfold HuffmanTable.encode. genuine_auto. Qed.
#[local] Hint Resolve genuine_encode : genuine.

Lemma genuine_encode_ac_symbols syms ac bw : genuine (encode_ac_symbols syms ac bw).
Proof.
  revert bw. induction syms as [|[]]; intros bw; cbn [encode_ac_symbols];
    genuine_auto.
Qed.
#[local] Hint Resolve genuine_encode_ac_symbols : genuine.

Lemma genuine_encode_symbols syms dc ac bw : genuine (encode_symbols syms dc ac bw).
Proof. unfold encode_symbols. genuine_auto. Qed.
#[local] Hint Resolve genuine_encode_symbols : genuine.

Lemma genuine_reencode all_syms oq sq dc ac bw :
  genuine (reencode all_syms oq sq dc ac bw).
Proof.
  revert bw. induction all_syms as [|syms all_syms IH]; intros bw;
    cbn [reencode]; genuine_auto.
Qed.

Lemma genuine_be16_entries raw j n : genuine (be16_entries raw j n).
Proof.
  revert j. induction n as [|n IH]; intros j; cbn [be16_entries]; genuine_auto.
Qed.
#[local] Hint Resolve genuine_be16_entries : genuine.

Lemma genuine_dqt_loop fuel payload i qt :
  (length payload ≤ fuel + i)%nat → genuine (dqt_loop fuel payload i qt).
Proof.
  revert i qt. induction fuel as [|fuel IH]; intros i qt Hfuel.
  - cbn [dqt_loop]. destruct (payload !! i) eqn:Hi; [|discriminate].
    apply lookup_lt_Some in Hi. lia.
  - cbn [dqt_loop]. destruct (payload !! i) eqn:Hi; [|discriminate].
    cbv zeta. apply genuine_bind; [genuine_auto|]. intros table _.
    apply IH. lia.
Qed.

Lemma genuine_unpack_H data ptr : genuine (unpack_H data ptr).
Proof. unfold unpack_H. genuine_auto. Qed.
#[local] Hint Resolve genuine_unpack_H : genuine.

Lemma genuine_parse_loop fuel data ptr st :
  (length data ≤ fuel + ptr)%nat → genuine (parse_loop fuel data ptr st).
Proof.
  revert ptr st. induction fuel as [|fuel IH]; intros ptr st Hfuel.
  - cbn [parse_loop]. destruct (data !! ptr) eqn:Hp; [|discriminate].
    apply lookup_lt_Some in Hp. lia.
  - cbn [parse_loop]. destruct (data !! ptr) eqn:Hp; [|discriminate].
    destruct (negb _); [apply IH; lia|].
    apply genuine_bind; [genuine_auto|]. intros marker _. cbv zeta.
    destruct (marker =? EOI); [discriminate|].
    apply genuine_bind; [genuine_auto|]. intros len _.
    apply genuine_bind.
    + destruct (marker =? DQT).
      { apply genuine_bind; [|intros; discriminate].
        apply genuine_dqt_loop. lia. }
      genuine_auto.
    + intros st' _. apply IH. lia.
Qed.

Lemma genuine_parse_jpeg fs path : genuine (parse_jpeg fs path).
Proof.
  unfold parse_jpeg, parse_jpeg_bytes.
  destruct (fs !! path); [|discriminate].
  destruct (negb _); [discriminate|]. apply genuine_parse_loop. lia.
Qed.

Lemma genuine_locate_frame segs : genuine (locate_frame segs).
Proof. unfold locate_frame. genuine_auto. Qed.

Lemma genuine_assign_codes count bitlen symbols s :
  genuine (HuffmanTable.assign_codes count bitlen symbols s).
Proof.
  revert s. induction count as [|count IH]; intros s;
    cbn [HuffmanTable.assign_codes]; genuine_auto.
Qed.
#[local] Hint Resolve genuine_assign_codes : genuine.

Lemma genuine_build_loop lengths bitlen symbols s :
  genuine (HuffmanTable.build_loop lengths bitlen symbols s).
Proof.
  revert bitlen s. induction lengths as [|count lengths IH]; intros bitlen s;
    cbn [HuffmanTable.build_loop]; genuine_auto.
Qed.
#[local] Hint Resolve genuine_build_loop : genuine.

Lemma genuine_huffman_init lengths symbols :
  genuine (HuffmanTable.init lengths symbols).
Proof. unfold HuffmanTable.init. genuine_auto. Qed.
#[local] Hint Resolve genuine_huffman_init : genuine.

Lemma genuine_parse_dht_loop fuel payload i dc ac :
  (length payload ≤ fuel + i)%nat →
  genuine (parse_dht_loop fuel payload i dc ac).
Proof.
  revert i dc ac. induction fuel as [|fuel IH]; intros i dc ac Hfuel.
  - cbn [parse_dht_loop]. destruct (payload !! i) eqn:Hi; [|discriminate].
    apply lookup_lt_Some in Hi. lia.
  - cbn [parse_dht_loop]. destruct (payload !! i) eqn:Hi; [|discriminate].
    cbv zeta. apply genuine_bind; [genuine_auto|]. intros table _.
    destruct (_ =? 0); apply IH; lia.
Qed.

Lemma genuine_collect_dht segs dc ac : genuine (collect_dht segs dc ac).
Proof.
  revert dc ac. induction segs as [|[m p] segs IH]; intros dc ac;
    cbn [collect_dht]; [discriminate|].
  destruct (m =? DHT); [|apply IH].
  apply genuine_bind.
  - unfold parse_dht. apply genuine_parse_dht_loop. lia.
  - intros [dt at'] _. apply IH.
Qed.

(** *** Every successful read takes bits from the reader *)

Lemma read_bit_progress r b r' :
  reader_wf r → BitReader.read_bit r = Ok (b, r') →
  reader_wf r' ∧ (bits_left r' < bits_left r)%nat.
Proof.
  destruct r as [data bp bi]. unfold reader_wf, bits_left, BitReader.read_bit.
  cbn [BitReader.data BitReader.bytepos BitReader.bitpos].
  intros [Hbi Hbp]. destruct (data !! bp) as [byte|] eqn:Hbyte; [|done].
  apply lookup_lt_Some in Hbyte.
  destruct (Nat.eqb_spec (S bi) 8) as [Hbi8|Hbi8].
  - destruct (byte =? 255); cbn [andb].
    + destruct (data !! S bp) as [next|] eqn:Hnext.
      * apply lookup_lt_Some in Hnext.
        destruct (next =? 0); intros [= _ <-];
          cbn [BitReader.data BitReader.bytepos BitReader.bitpos]; lia.
      * intros [= _ <-].
        cbn [BitReader.data BitReader.bytepos BitReader.bitpos]. lia.
    + intros [= _ <-].
      cbn [BitReader.data BitReader.bytepos BitReader.bitpos]. lia.
  - intros [= _ <-].
    cbn [BitReader.data BitReader.bytepos BitReader.bitpos]. lia.
Qed.

Lemma genuine_read_bit r : genuine (BitReader.read_bit r).
Proof. unfold BitReader.read_bit. genuine_auto. Qed.
#[local] Hint Resolve genuine_read_bit : genuine.

Lemma genuine_read_bits_loop n value r : genuine (BitReader.read_bits_loop n value r).
Proof.
  revert value r. induction n as [|n IH]; intros value r;
    cbn [BitReader.read_bits_loop]; genuine_auto.
Qed.

Lemma read_bits_loop_progress n value r v r' :
  reader_wf r → BitReader.read_bits_loop n value r = Ok (v, r') →
  reader_wf r' ∧ (bits_left r' ≤ bits_left r)%nat.
Proof.
  revert value r. induction n as [|n IH]; intros value r Hwf.
  - cbn [BitReader.read_bits_loop]. intros [= _ <-]. split; [done|lia].
  - cbn [BitReader.read_bits_loop].
    destruct (BitReader.read_bit r) as [[bit r1]|] eqn:Hbit; [|done].
    cbn [mbind result_bind]. intros Hrest.
    destruct (read_bit_progress _ _ _ Hwf Hbit) as [Hwf1 Hlt].
    destruct (IH _ _ Hwf1 Hrest) as [Hwf' Hle]. split; [done|lia].
Qed.

Lemma genuine_decode_loop T todo len code r :
  genuine (HuffmanTable.decode_loop T todo len code r).
Proof.
  revert len code r. induction todo as [|todo IH]; intros len code r;
    cbn [HuffmanTable.decode_loop]; genuine_auto.
Qed.

Lemma decode_loop_progress T todo len code r sym r' :
  reader_wf r → HuffmanTable.decode_loop T todo len code r = Ok (sym, r') →
  reader_wf r' ∧ (bits_left r' < bits_left r)%nat.
Proof.
  revert len code r. induction todo as [|todo IH]; intros len code r Hwf;
    cbn [HuffmanTable.decode_loop]; [done|].
  destruct (BitReader.read_bit r) as [[bit r1]|] eqn:Hbit; [|done].
  cbn [mbind result_bind].
  destruct (read_bit_progress _ _ _ Hwf Hbit) as [Hwf1 Hlt].
  destruct (HuffmanTable.decode_map T !! _) as [[s l]|].
  - intros [= _ <-]. done.
  - intros Hrest. destruct (IH _ _ _ Hwf1 Hrest) as [Hwf' Hlt']. split; [done|lia].
Qed.

Lemma genuine_decode_amplitude size r : genuine (decode_amplitude size r).
Proof.
  unfold decode_amplitude, BitReader.read_bits.
  destruct (0 <? size); [|discriminate].
  apply genuine_bind; [apply genuine_read_bits_loop|]. intros [bits r'] _.
  discriminate.
Qed.

Lemma decode_amplitude_progress size r amp r' :
  reader_wf r → decode_amplitude size r = Ok (amp, r') →
  reader_wf r' ∧ (bits_left r' ≤ bits_left r)%nat.
Proof.
  intros Hwf. unfold decode_amplitude, BitReader.read_bits.
  destruct (0 <? size).
  - destruct (BitReader.read_bits_loop _ _ _) as [[bits r1]|] eqn:Hbits; [|done].
    cbn [mbind result_bind]. intros [= _ <-].
    by eapply read_bits_loop_progress.
  - intros [= _ <-]. split; [done|lia].
Qed.

Lemma decode_ac_symbols_progress fuel count ac r symbols :
  reader_wf r → (bits_left r < fuel)%nat →
  genuine (decode_ac_symbols fuel count ac r symbols) ∧
  ∀ out r', decode_ac_symbols fuel count ac r symbols = Ok (out, r') →
            reader_wf r' ∧ (bits_left r' ≤ bits_left r)%nat.
Proof.
  revert count r symbols.
  induction fuel as [|fuel IH]; intros count r symbols Hwf Hfuel; [lia|].
  cbn [decode_ac_symbols]. destruct (negb (count <? 64)).
  { split; [discriminate|]. intros out r' [= _ <-]. split; [done|lia]. }
  unfold HuffmanTable.decode.
  pose proof (genuine_decode_loop ac 16 1 0 r) as Hgen.
  destruct (HuffmanTable.decode_loop ac 16 1 0 r) as [[rs r1]|e] eqn:Hdec.
  2:{ split; [intros [= ->]; by apply Hgen|done]. }
  cbn [mbind result_bind].
  destruct (decode_loop_progress _ _ _ _ _ _ _ Hwf Hdec) as [Hwf1 Hlt1].
  destruct (rs =? 0).
  { split; [discriminate|]. intros out r' [= _ <-]. split; [done|lia]. }
  destruct (rs =? 240).
  { destruct (IH (count + 16) r1 (symbols ++ [ZRL]) Hwf1) as [Hg Hp]; [lia|].
    split; [done|]. intros out r' Hout.
    destruct (Hp _ _ Hout). split; [done|lia]. }
  cbv zeta.
  pose proof (genuine_decode_amplitude (Z.land rs 15) r1) as Hgen2.
  destruct (decode_amplitude (Z.land rs 15) r1) as [[amp r2]|e] eqn:Hamp.
  2:{ split; [intros [= ->]; by apply Hgen2|done]. }
  cbn [mbind result_bind].
  destruct (decode_amplitude_progress _ _ _ _ Hwf1 Hamp) as [Hwf2 Hle2].
  destruct (IH (count + (rs ≫ 4 + 1)) r2
              (symbols ++ [AC (rs ≫ 4) (Z.land rs 15) amp]) Hwf2)
    as [Hg Hp]; [lia|].
  split; [done|]. intros out r' Hout.
  destruct (Hp _ _ Hout). split; [done|lia].
Qed.

Lemma decode_symbols_progress r dc ac :
  reader_wf r →
  genuine (decode_symbols r dc ac) ∧
  ∀ syms r', decode_symbols r dc ac = Ok (syms, r') →
             reader_wf r' ∧ (bits_left r' < bits_left r)%nat.
Proof.
  intros Hwf. unfold decode_symbols, HuffmanTable.decode.
  pose proof (genuine_decode_loop dc 16 1 0 r) as Hgen.
  destruct (HuffmanTable.decode_loop dc 16 1 0 r) as [[cat r1]|e] eqn:Hdec.
  2:{ split; [intros [= ->]; by apply Hgen|done]. }
  cbn [mbind result_bind].
  destruct (decode_loop_progress _ _ _ _ _ _ _ Hwf Hdec) as [Hwf1 Hlt1].
  pose proof (genuine_decode_amplitude cat r1) as Hgen2.
  destruct (decode_amplitude cat r1) as [[amp r2]|e] eqn:Hamp.
  2:{ split; [intros [= ->]; by apply Hgen2|done]. }
  cbn [mbind result_bind].
  destruct (decode_amplitude_progress _ _ _ _ Hwf1 Hamp) as [Hwf2 Hle2].
  destruct (decode_ac_symbols_progress (S (bits_left r2)) 1 ac r2 [DC amp] Hwf2)
    as [Hg Hp]; [lia|].
  split; [done|]. intros syms r' Hout.
  destruct (Hp _ _ Hout). split; [done|lia].
Qed.

Lemma genuine_decode_all fuel br dc_tables ac_tables all_syms :
  reader_wf br → (bits_left br < fuel)%nat →
  genuine (decode_all fuel br dc_tables ac_tables all_syms).
Proof.
  revert br all_syms.
  induction fuel as [|fuel IH]; intros br all_syms Hwf Hfuel; [lia|].
  cbn [decode_all].
  apply genuine_bind; [genuine_auto|]. intros dc _.
  apply genuine_bind; [genuine_auto|]. intros ac _.
  destruct (decode_symbols_progress br dc ac Hwf) as [Hg Hp].
  destruct (decode_symbols br dc ac) as [[syms br']|e].
  - destruct (Hp _ _ eq_refl) as [Hwf' Hlt]. apply IH; [done|lia].
  - destruct e; try discriminate. by exfalso.
Qed.

Lemma genuine_transcode fs input_path quality :
  genuine (transcode fs input_path quality).2.
Proof.
  unfold transcode.
  pose proof (genuine_parse_jpeg fs input_path) as H1.
  destruct (parse_jpeg fs input_path) as [data|e];
    [|cbn [snd]; intros [= ->]; by apply H1].
  pose proof (genuine_locate_frame (segments data)) as H2.
  destruct (locate_frame (segments data)) as [[fm fp]|e];
    [|cbn [snd]; intros [= ->]; by apply H2].
  pose proof (genuine_collect_dht (segments data) ∅ ∅) as H3.
  destruct (collect_dht (segments data) ∅ ∅) as [[dc ac]|e];
    [|cbn [snd]; intros [= ->]; by apply H3].
  cbv zeta.
  assert (genuine (decode_all
                (S (bits_left (BitReader.init (scan_data data))))
                (BitReader.init (scan_data data)) dc ac [])) as H4.
  { apply genuine_decode_all; [|lia]. split; simpl; lia. }
  destruct (decode_all _ _ dc ac []) as [all_syms|e];
    [|cbn [snd]; intros [= ->]; by apply H4].
  pose proof (genuine_build_scaled_qtables (quant_tables data) quality) as H5.
  destruct (build_scaled_qtables (quant_tables data) quality) as [scaled|e];
    [|cbn [snd]; intros [= ->]; by apply H5].
  pose proof (genuine_reencode all_syms (quant_tables data) scaled dc ac
                BitWriter.init) as H6.
  destruct (reencode _ _ _ _ _ _) as [bw|e];
    [discriminate|cbn [snd]; intros [= ->]; by apply H6].
Qed.

Lemma transcode_stage_ok fs input_path quality s t :
  transcode fs input_path quality = (s, Ok t) → s = StRebuild.
Proof.
  unfold transcode.
  repeat match goal with
         | |- context [match ?x with Ok _ => _ | Raise _ => _ end] =>
           destruct x as [?|?]; [|discriminate]
         | |- context [let '(_, _) := ?x in _] => destruct x
         end.
  by intros [= <- _].
Qed.

(** C9.  When [compress] ends with an exception raised in one of the steps
    before [rebuild_jpeg] (parsing, locating the frame header, building
    the Huffman tables, decoding the blocks, scaling the tables,
    re-encoding), the file system is the one it started with: nothing was
    written to the output path.  The exception is one Python raises, the
    loops of these steps all terminate. *)
Theorem compress_atomic (fs fs' : gmap string (list Z))
    (input_path output_path : string) (quality : Z) (s : stage) (e : exn) :
  compress fs input_path output_path quality = (fs', Failed s e) →
  s ≠ StRebuild →
  fs' = fs ∧ e ≠ OutOfFuel.
Proof.
  unfold compress. intros Hc Hs.
  pose proof (genuine_transcode fs input_path quality) as Hgen.
  destruct (transcode fs input_path quality) as [s0 [t|e0]] eqn:Ht.
  - destruct (rebuild_jpeg _ _ _ _ _ _ _ _) as [fs1 [[]|e1]]; [done|].
    by injection Hc as _ <- _.
  - injection Hc as <- <- <-. split; [done|]. intros ->. by apply Hgen.
Qed.

Lemma compress_atomic_witness :
  ({["in.jpg" := small_file]} : gmap string (list Z))
  = {["in.jpg" := small_file]} ∧ KeyError ≠ OutOfFuel.
Proof.
  apply (compress_atomic {["in.jpg" := small_file]} {["in.jpg" := small_file]}
           "in.jpg" "out.jpg" 50 StDecode KeyError);
    [vm_compute; reflexivity|discriminate].
Defined.

(** The output path is the only one [compress] can change, and it changes
    it only in a run that reaches [rebuild_jpeg]. *)
Lemma compress_writes_only_output fs input_path output_path quality :
  let '(fs', o) := compress fs input_path output_path quality in
  fs' = fs ∨
  (∃ content, fs' = <[output_path := content]> fs) ∧
  (o = Done ∨ ∃ e, o = Failed StRebuild e).
Proof.
  unfold compress.
  destruct (transcode fs input_path quality) as [s [t|e]]; [|by left].
  unfold rebuild_jpeg. destruct (write_chunks _ _) as [content r].
  right. split; [by exists content|]. destruct r; eauto.
Qed.

(** The pipeline run on a complete file. *)
Example compress_tiny_jpeg :
  compress {["in.jpg" := tiny_jpeg]} "in.jpg" "out.jpg" 50
  = (<["out.jpg" := tiny_jpeg_q50]> {["in.jpg" := tiny_jpeg]}, Done).
Proof. vm_compute. reflexivity. Qed.

(** The guarantee stops where [rebuild_jpeg] starts: on a file without a
    scan header the earlier steps all succeed, [rebuild_jpeg] opens the
    output and raises [TypeError] at the scan header, and the output path
    is left with the segments written until then. *)
Example compress_partial_output :
  compress {["in.jpg" := headless_jpeg]} "in.jpg" "out.jpg" 50
  = (<["out.jpg" :=
        [0xFF; 0xD8]
        ++ [0xFF; 0xDB; 0x00; 0x02]
        ++ [0xFF; 0xC0; 0x00; 0x0B; 0x08; 0x00; 0x08; 0x00; 0x08; 0x01; 0x01; 0x11; 0x00]
        ++ [0xFF; 0xC4; 0x00; 0x28]
        ++ ([0x00; 0x02] ++ replicate 15 0 ++ [0x00; 0x03])
        ++ ([0x10; 0x02] ++ replicate 15 0 ++ [0x00; 0x03])
        ++ [0xFF; 0xD9; 0x00; 0x02]]> {["in.jpg" := headless_jpeg]},
     Failed StRebuild TypeError).
Proof. vm_compute. reflexivity. Qed.

(** * Further properties of the code *)

(** ** bitstream.py *)

Lemma land_255_range c : 0 ≤ Z.land c 255 ≤ 255.
Proof.
  change 255 with (Z.ones 8) at 1 2. rewrite Z.land_ones by lia.
  pose proof (Z.mod_pos_bound c (2 ^ 8)). lia.
Qed.

Lemma stuffed_snoc (buf : list Z) b :
  every_ff_stuffed buf → b ≠ 255 → every_ff_stuffed (buf ++ [b]).
Proof.
  intros Hbuf Hb i Hi.
  destruct (decide (i < length buf)%nat) as [Hlt|Hge].
  - rewrite lookup_app_l in Hi by done. pose proof (Hbuf i Hi) as Hnext.
    rewrite lookup_app_l; [done|]. by apply lookup_lt_Some in Hnext.
  - rewrite lookup_app_r in Hi by lia.
    destruct (i - length buf)%nat as [|k]; [|by destruct k].
    injection Hi as ->. done.
Qed.

Lemma stuffed_snoc_ff (buf : list Z) :
  every_ff_stuffed buf → every_ff_stuffed ((buf ++ [255]) ++ [0]).
Proof.
  intros Hbuf i Hi. rewrite <- app_assoc in *. cbn [app] in *.
  destruct (decide (i < length buf)%nat) as [Hlt|Hge].
  - rewrite lookup_app_l in Hi by done. pose proof (Hbuf i Hi) as Hnext.
    rewrite lookup_app_l; [done|]. by apply lookup_lt_Some in Hnext.
  - rewrite lookup_app_r in Hi by lia. rewrite lookup_app_r by lia.
    replace (S i - length buf)%nat with (S (i - length buf)) by lia.
    destruct (i - length buf)%nat as [|[|k]]; [done| |by destruct k].
    discriminate Hi.
Qed.

Lemma flush_curr_byte_invariant w :
  every_ff_stuffed (BitWriter.buffer w) →
  Forall (λ b, 0 ≤ b ≤ 255) (BitWriter.buffer w) →
  every_ff_stuffed (BitWriter.buffer (BitWriter._flush_curr_byte w)) ∧
  Forall (λ b, 0 ≤ b ≤ 255) (BitWriter.buffer (BitWriter._flush_curr_byte w)).
Proof.
  intros Hs Hb. unfold BitWriter._flush_curr_byte. wsimpl.
  pose proof (land_255_range (BitWriter.curr_byte w)) as Hr.
  destruct (Z.eqb_spec (Z.land (BitWriter.curr_byte w) 255) 255) as [->|Hne].
  - split; [by apply stuffed_snoc_ff|].
    repeat (apply Forall_app; split); try done; apply Forall_singleton; lia.
  - split; [by apply stuffed_snoc|].
    apply Forall_app; split; [done|]. by apply Forall_singleton.
Qed.

Lemma write_bit_invariant bit w :
  every_ff_stuffed (BitWriter.buffer w) →
  Forall (λ b, 0 ≤ b ≤ 255) (BitWriter.buffer w) →
  every_ff_stuffed (BitWriter.buffer (BitWriter.write_bit bit w)) ∧
  Forall (λ b, 0 ≤ b ≤ 255) (BitWriter.buffer (BitWriter.write_bit bit w)).
Proof.
  intros Hs Hb. unfold BitWriter.write_bit. wsimpl.
  destruct (S (BitWriter.bitpos w) =? 8)%nat; [|done].
  by apply flush_curr_byte_invariant.
Qed.

Lemma write_bits_invariant n value w :
  every_ff_stuffed (BitWriter.buffer w) →
  Forall (λ b, 0 ≤ b ≤ 255) (BitWriter.buffer w) →
  every_ff_stuffed (BitWriter.buffer (BitWriter.write_bits n value w)) ∧
  Forall (λ b, 0 ≤ b ≤ 255) (BitWriter.buffer (BitWriter.write_bits n value w)).
Proof.
  revert w. induction n as [|n IH]; intros w Hs Hb; [done|].
  cbn [BitWriter.write_bits].
  destruct (write_bit_invariant (Z.land (value ≫ Z.of_nat n) 1) w Hs Hb).
  by apply IH.
Qed.

Lemma write_all_invariant ws w :
  every_ff_stuffed (BitWriter.buffer w) →
  Forall (λ b, 0 ≤ b ≤ 255) (BitWriter.buffer w) →
  every_ff_stuffed (BitWriter.get_bytes (write_all ws w)) ∧
  Forall (λ b, 0 ≤ b ≤ 255) (BitWriter.get_bytes (write_all ws w)).
Proof.
  revert w. induction ws as [|[n v] ws IH]; intros w Hs Hb.
  - cbn [write_all]. unfold BitWriter.get_bytes, BitWriter.flush.
    destruct (0 <? BitWriter.bitpos w)%nat; [|done].
    by apply flush_curr_byte_invariant.
  - cbn [write_all]. destruct (write_bits_invariant n v w Hs Hb). by apply IH.
Qed.

(** X1. Whatever is written, whatever the values and widths, in the bytes
    [get_bytes] returns every 0xFF is immediately followed by a 0x00: the
    entropy-coded data never contains a marker. *)
Theorem writer_output_stuffed (ws : list (nat * Z)) (i : nat) :
  BitWriter.get_bytes (write_all ws BitWriter.init) !! i = Some 255 →
  BitWriter.get_bytes (write_all ws BitWriter.init) !! S i = Some 0.
Proof.
  apply (write_all_invariant ws BitWriter.init); [|by constructor].
  intros j Hj. by destruct j.
Qed.

Lemma writer_output_stuffed_witness :
  BitWriter.get_bytes (write_all [(8%nat, 255); (3%nat, 5)] BitWriter.init)
    !! 1%nat = Some 0.
Proof.
  apply (writer_output_stuffed [(8%nat, 255); (3%nat, 5)] 0). reflexivity.
Defined.

(** X2. Whatever is written, including negative values and values wider
    than their width, [get_bytes] returns bytes: integers from 0 to 255. *)
Theorem writer_output_is_bytes (ws : list (nat * Z)) :
  Forall (λ b, 0 ≤ b ≤ 255)
    (BitWriter.get_bytes (write_all ws BitWriter.init)).
Proof.
  apply (write_all_invariant ws BitWriter.init); [|by constructor].
  intros j Hj. by destruct j.
Qed.

(** X3. [flush] is idempotent: after a first [get_bytes], a second one
    returns the same bytes and leaves the writer as it is. *)
Theorem get_bytes_twice (w : BitWriter.t) :
  BitWriter.flush (BitWriter.flush w) = BitWriter.flush w ∧
  BitWriter.get_bytes (BitWriter.flush w) = BitWriter.get_bytes w.
Proof.
  assert (BitWriter.flush (BitWriter.flush w) = BitWriter.flush w) as Hf.
  { unfold BitWriter.flush at 1.
    destruct (Nat.ltb_spec 0 (BitWriter.bitpos (BitWriter.flush w))) as [Hlt|]; [|done].
    exfalso. revert Hlt. unfold BitWriter.flush, BitWriter._flush_curr_byte.
    destruct (Nat.ltb_spec 0 (BitWriter.bitpos w)); wsimpl; lia. }
  split; [done|]. unfold BitWriter.get_bytes. by rewrite Hf.
Qed.

Lemma read_bit_raises r e : BitReader.read_bit r = Raise e → e = EOFError.
Proof.
  unfold BitReader.read_bit. destruct (BitReader.data r !! _); [|congruence].
  by destruct (_ =? 8)%nat.
Qed.

Lemma read_bits_loop_raises n value r e :
  BitReader.read_bits_loop n value r = Raise e → e = EOFError.
Proof.
  revert value r. induction n as [|n IH]; intros value r; [done|].
  cbn [BitReader.read_bits_loop].
  destruct (BitReader.read_bit r) as [[bit r1]|e1] eqn:Hbit.
  - cbn [mbind result_bind]. apply IH.
  - cbn [mbind result_bind]. intros [= <-]. by eapply read_bit_raises.
Qed.

Lemma read_bits_loop_consumes n value r v r' :
  reader_wf r → BitReader.read_bits_loop n value r = Ok (v, r') →
  (bits_left r' + n ≤ bits_left r)%nat.
Proof.
  revert value r. induction n as [|n IH]; intros value r Hwf.
  - cbn [BitReader.read_bits_loop]. intros [= _ <-]. lia.
  - cbn [BitReader.read_bits_loop].
    destruct (BitReader.read_bit r) as [[bit r1]|] eqn:Hbit; [|done].
    cbn [mbind result_bind]. intros Hrest.
    destruct (read_bit_progress _ _ _ Hwf Hbit) as [Hwf1 Hlt].
    pose proof (IH _ _ Hwf1 Hrest). lia.
Qed.

(** On data without 0xFF a read takes exactly one bit. *)
Lemma read_bit_plain r :
  reader_wf r → 255 ∉ BitReader.data r → (0 < bits_left r)%nat →
  ∃ bit r', BitReader.read_bit r = Ok (bit, r') ∧
            reader_wf r' ∧ BitReader.data r' = BitReader.data r ∧
            bits_left r = S (bits_left r').
Proof.
  destruct r as [data bp bi]. unfold reader_wf, bits_left, BitReader.read_bit.
  wsimpl. intros [Hbi Hbp] Hff Hleft.
  destruct (data !! bp) as [byte|] eqn:Hbyte.
  2:{ apply lookup_ge_None in Hbyte. lia. }
  pose proof (lookup_lt_Some _ _ _ Hbyte) as Hlt.
  assert (byte ≠ 255) as Hne.
  { intros ->. apply Hff. by eapply list_elem_of_lookup_2. }
  rewrite (proj2 (Z.eqb_neq _ _) Hne). cbn [andb].
  destruct (Nat.eqb_spec (S bi) 8); eexists _, _;
    (split; [reflexivity|]); wsimpl; repeat split; try done; lia.
Qed.

Lemma read_bits_loop_plain n value r :
  reader_wf r → 255 ∉ BitReader.data r → (n ≤ bits_left r)%nat →
  ∃ v r', BitReader.read_bits_loop n value r = Ok (v, r').
Proof.
  revert value r. induction n as [|n IH]; intros value r Hwf Hff Hn.
  - by eexists _, _.
  - destruct (read_bit_plain r Hwf Hff) as (bit & r1 & Hbit & Hwf1 & Hd & Hl);
      [lia|].
    cbn [BitReader.read_bits_loop]. rewrite Hbit. cbn [mbind result_bind].
    apply IH; [done|by rewrite Hd|lia].
Qed.

(** X4. A reader never returns more bits than its data holds: asking a
    fresh reader for more than eight bits per byte raises [EOFError].  On
    data without 0xFF every request within that bound succeeds. *)
Theorem read_bits_exhaustion (d : list Z) (n : nat) :
  ((8 * length d < n)%nat →
   BitReader.read_bits n (BitReader.init d) = Raise EOFError) ∧
  (255 ∉ d → (n ≤ 8 * length d)%nat →
   ∃ v r', BitReader.read_bits n (BitReader.init d) = Ok (v, r')).
Proof.
  assert (Hwf : reader_wf (BitReader.init d)) by (split; simpl; lia).
  assert (Hleft : bits_left (BitReader.init d) = (8 * length d)%nat)
    by (unfold bits_left; simpl; lia).
  unfold BitReader.read_bits. split.
  - intros Hn.
    destruct (BitReader.read_bits_loop n 0 (BitReader.init d))
      as [[v r']|e] eqn:Hr.
    + pose proof (read_bits_loop_consumes _ _ _ _ _ Hwf Hr). lia.
    + f_equal. by eapply read_bits_loop_raises.
  - intros Hff Hn. apply read_bits_loop_plain; [done|done|lia].
Qed.

Lemma read_bits_exhaustion_witness :
  BitReader.read_bits 17 (BitReader.init [1; 2]) = Raise EOFError ∧
  ∃ v r', BitReader.read_bits 16 (BitReader.init [1; 2]) = Ok (v, r').
Proof.
  destruct (read_bits_exhaustion [1; 2] 17) as [H17 _].
  destruct (read_bits_exhaustion [1; 2] 16) as [_ H16].
  split; [apply H17; simpl; lia|].
  apply H16; [|simpl; lia].
  intros Hin. repeat (apply elem_of_cons in Hin as [Hin|Hin]; [discriminate Hin|]).
  by apply elem_of_nil in Hin.
Defined.

(** ** huffman.py: the table constructor *)

Lemma assign_codes_p count bitlen symbols s s' :
  HuffmanTable.assign_codes count bitlen symbols s = Ok s' →
  HuffmanTable.p s' = (HuffmanTable.p s + count)%nat.
Proof.
  revert s. induction count as [|count IH]; intros s;
    cbn [HuffmanTable.assign_codes]; [intros [= <-]; lia|].
  destruct (symbols !! HuffmanTable.p s); [|done].
  destruct (16 <? bitlen)%nat; [done|].
  intros Hs'. apply IH in Hs'. cbn [HuffmanTable.p] in Hs'. lia.
Qed.

Lemma assign_codes_ok count bitlen symbols s :
  (bitlen ≤ 16)%nat → (HuffmanTable.p s + count ≤ length symbols)%nat →
  ∃ s', HuffmanTable.assign_codes count bitlen symbols s = Ok s'.
Proof.
  intros Hb. revert s. induction count as [|count IH]; intros s Hp;
    cbn [HuffmanTable.assign_codes]; [by eexists|].
  destruct (symbols !! HuffmanTable.p s) as [sym|] eqn:Hsym.
  2:{ apply lookup_ge_None in Hsym. lia. }
  destruct (Nat.ltb_spec 16 bitlen); [lia|].
  apply IH. cbn [HuffmanTable.p]. lia.
Qed.

Lemma assign_codes_short count bitlen symbols s :
  (bitlen ≤ 16)%nat → (HuffmanTable.p s ≤ length symbols)%nat →
  (length symbols < HuffmanTable.p s + count)%nat →
  HuffmanTable.assign_codes count bitlen symbols s = Raise IndexError.
Proof.
  intros Hb. revert s. induction count as [|count IH]; intros s Hle Hp;
    cbn [HuffmanTable.assign_codes].
  - lia.
  - destruct (symbols !! HuffmanTable.p s) as [sym|] eqn:Hsym; [|done].
    pose proof (lookup_lt_Some _ _ _ Hsym).
    destruct (Nat.ltb_spec 16 bitlen); [lia|].
    apply IH; cbn [HuffmanTable.p]; lia.
Qed.

Lemma build_loop_ok lengths bitlen symbols s :
  (bitlen + length lengths ≤ 17)%nat →
  (HuffmanTable.p s + code_count lengths ≤ length symbols)%nat →
  ∃ s', HuffmanTable.build_loop lengths bitlen symbols s = Ok s'.
Proof.
  revert bitlen s. induction lengths as [|count lengths IH];
    intros bitlen s Hb Hp; cbn [HuffmanTable.build_loop]; [by eexists|].
  cbn [length code_count foldr] in *. fold (code_count lengths) in Hp.
  destruct (assign_codes_ok (Z.to_nat count) bitlen symbols s) as [s1 Hs1];
    [lia|lia|].
  rewrite Hs1. cbn [mbind result_bind]. apply assign_codes_p in Hs1.
  apply IH; cbn [HuffmanTable.p]; lia.
Qed.

Lemma build_loop_short lengths bitlen symbols s :
  (bitlen + length lengths ≤ 17)%nat →
  (HuffmanTable.p s ≤ length symbols)%nat →
  (length symbols < HuffmanTable.p s + code_count lengths)%nat →
  HuffmanTable.build_loop lengths bitlen symbols s = Raise IndexError.
Proof.
  revert bitlen s. induction lengths as [|count lengths IH];
    intros bitlen s Hb Hle Hp; cbn [HuffmanTable.build_loop].
  - cbn [code_count foldr] in Hp. lia.
  - cbn [length code_count foldr] in *. fold (code_count lengths) in Hp.
    destruct (decide (length symbols < HuffmanTable.p s + Z.to_nat count)%nat)
      as [Hshort|Hfits].
    + by rewrite assign_codes_short by lia.
    + destruct (assign_codes_ok (Z.to_nat count) bitlen symbols s)
        as [s1 Hs1]; [lia|lia|].
      rewrite Hs1. cbn [mbind result_bind]. apply assign_codes_p in Hs1.
      apply IH; cbn [HuffmanTable.p]; lia.
Qed.

(** X5. With at most 16 length counts the constructor succeeds exactly when
    the symbol list holds as many symbols as the counts announce; with
    fewer symbols it raises [IndexError]. *)
Theorem huffman_init_total (lengths symbols : list Z) :
  (length lengths ≤ 16)%nat →
  ((code_count lengths ≤ length symbols)%nat →
   ∃ T, HuffmanTable.init lengths symbols = Ok T) ∧
  ((length symbols < code_count lengths)%nat →
   HuffmanTable.init lengths symbols = Raise IndexError).
Proof.
  intros Hlen. unfold HuffmanTable.init. split; intros Hc.
  - destruct (build_loop_ok lengths 1 symbols
                (HuffmanTable.mk_state (HuffmanTable.mk ∅ ∅) 0 0)) as [s' ->];
      [lia|cbn; lia|]. by eexists.
  - rewrite build_loop_short; [done|lia|cbn; lia|cbn; lia].
Qed.

Lemma huffman_init_total_witness :
  (∃ T, HuffmanTable.init [0; 2; 1] [5; 6; 7] = Ok T) ∧
  HuffmanTable.init [0; 2; 1] [5; 6] = Raise IndexError.
Proof.
  split.
  - apply (huffman_init_total [0; 2; 1] [5; 6; 7]); simpl; lia.
  - apply (huffman_init_total [0; 2; 1] [5; 6]); simpl; lia.
Defined.

Lemma take_S_drop {A} (l : list A) p x n :
  l !! p = Some x → take (S n) (drop p l) = x :: take n (drop (S p) l).
Proof. intros Hp. by rewrite (drop_S _ _ _ Hp). Qed.


Lemma assign_codes_dom count bitlen symbols s s' sym :
  HuffmanTable.assign_codes count bitlen symbols s = Ok s' →
  is_Some (HuffmanTable.codes (HuffmanTable.tbl s') !! sym) ↔
  is_Some (HuffmanTable.codes (HuffmanTable.tbl s) !! sym) ∨
  sym ∈ take count (drop (HuffmanTable.p s) symbols).
Proof.
  revert s. induction count as [|count IH]; intros s;
    cbn [HuffmanTable.assign_codes].
  - intros [= <-]. rewrite take_0. split; [by left|].
    intros [?|Hin]; [done|]. by apply elem_of_nil in Hin.
  - destruct (symbols !! HuffmanTable.p s) as [x|] eqn:Hx; [|done].
    destruct (16 <? bitlen)%nat; [done|].
    intros Hs'. rewrite (IH _ Hs'). cbn [HuffmanTable.tbl HuffmanTable.codes HuffmanTable.p].
    rewrite (take_S_drop _ _ _ _ Hx), elem_of_cons.
    destruct (decide (x = sym)) as [->|Hne].
    + rewrite lookup_insert_eq. split; [intros _; right; by left|by left].
    + rewrite lookup_insert_ne by done. split.
      * intros [?|?]; [by left|by right; right].
      * intros [?|[?|?]]; [by left|congruence|by right].
Qed.

Lemma build_loop_dom lengths bitlen symbols s s' sym :
  HuffmanTable.build_loop lengths bitlen symbols s = Ok s' →
  is_Some (HuffmanTable.codes (HuffmanTable.tbl s') !! sym) ↔
  is_Some (HuffmanTable.codes (HuffmanTable.tbl s) !! sym) ∨
  sym ∈ take (code_count lengths) (drop (HuffmanTable.p s) symbols).
Proof.
  revert bitlen s. induction lengths as [|count lengths IH]; intros bitlen s;
    cbn [HuffmanTable.build_loop].
  - intros [= <-]. cbn [code_count foldr]. rewrite take_0. split; [by left|].
    intros [?|Hin]; [done|]. by apply elem_of_nil in Hin.
  - destruct (HuffmanTable.assign_codes _ _ _ s) as [s1|] eqn:Hs1; [|done].
    cbn [mbind result_bind]. intros Hs'.
    rewrite (IH _ _ Hs'). cbn [HuffmanTable.tbl HuffmanTable.p].
    rewrite (assign_codes_dom _ _ _ _ _ sym Hs1).
    rewrite (assign_codes_p _ _ _ _ _ Hs1).
    cbn [code_count foldr]. fold (code_count lengths).
    rewrite <- (take_drop (Z.to_nat count)
                  (take (Z.to_nat count + code_count lengths)
                     (drop (HuffmanTable.p s) symbols))).
    rewrite take_take, Nat.min_l by lia.
    rewrite <- take_drop_commute, drop_drop, elem_of_app.
    replace (Z.to_nat count + code_count lengths - Z.to_nat count)%nat
      with (code_count lengths) by lia.
    tauto.
Qed.

(** X6. A table built by the constructor encodes exactly the symbols it
    was given codes for, the first [code_count lengths] of the symbol
    list; for any other symbol [encode] raises [KeyError]. *)
Theorem huffman_encode_domain (lengths symbols : list Z) T (sym : Z) :
  HuffmanTable.init lengths symbols = Ok T →
  (sym ∈ take (code_count lengths) symbols →
   ∃ c l, HuffmanTable.encode T sym = Ok (c, l)) ∧
  (sym ∉ take (code_count lengths) symbols →
   HuffmanTable.encode T sym = Raise KeyError).
Proof.
  unfold HuffmanTable.init.
  destruct (HuffmanTable.build_loop lengths 1 symbols _) as [s'|] eqn:Hs';
    [|done].
  cbn [mbind result_bind]. intros [= <-].
  pose proof (build_loop_dom _ _ _ _ _ sym Hs') as Hdom.
  cbn [HuffmanTable.tbl HuffmanTable.codes HuffmanTable.p drop] in Hdom.
  unfold HuffmanTable.encode. split; intros Hin.
  - destruct (proj2 Hdom (or_intror Hin)) as [[c l] ->]. by eexists _, _.
  - destruct (HuffmanTable.codes (HuffmanTable.tbl s') !! sym) eqn:Hl; [|done].
    destruct (proj1 Hdom) as [[? Hemp]|?]; [by eexists| |done].
    by rewrite lookup_empty in Hemp.
Qed.

Lemma huffman_encode_domain_witness :
  ∃ T, HuffmanTable.init [0; 2] [5; 6] = Ok T ∧
       (∃ c l, HuffmanTable.encode T 6 = Ok (c, l)) ∧
       HuffmanTable.encode T 9 = Raise KeyError.
Proof.
  eexists. split; [vm_compute; reflexivity|]. split.
  - eapply (huffman_encode_domain [0; 2] [5; 6] _ 6); [vm_compute; reflexivity|].
    vm_compute. apply elem_of_cons. right. apply elem_of_cons. by left.
  - eapply (huffman_encode_domain [0; 2] [5; 6] _ 9); [vm_compute; reflexivity|].
    vm_compute. intros Hin.
    repeat (apply elem_of_cons in Hin as [Hin|Hin]; [discriminate Hin|]).
    by apply elem_of_nil in Hin.
Defined.

(** *** The canonical assignment is prefix-free *)










(** *** Under Kraft's inequality every code fits its length *)

Lemma kraft_sum_nonneg lengths bitlen : 0 ≤ kraft_sum lengths bitlen.
Proof.
  revert bitlen. induction lengths as [|count lengths IH]; intros bitlen;
    cbn [kraft_sum]; [done|].
  pose proof (IH (S bitlen)).
  pose proof (Z.pow_nonneg 2 (16 - Z.of_nat bitlen)). nia.
Qed.

Lemma assign_codes_fit count bitlen symbols s s' K :
  (1 ≤ bitlen ≤ 16)%nat → 0 ≤ HuffmanTable.code s → 0 ≤ K →
  (HuffmanTable.code s + Z.of_nat count) * 2 ^ (16 - Z.of_nat bitlen) + K
    ≤ 2 ^ 16 →
  codes_fit (HuffmanTable.codes (HuffmanTable.tbl s)) →
  HuffmanTable.assign_codes count bitlen symbols s = Ok s' →
  codes_fit (HuffmanTable.codes (HuffmanTable.tbl s')) ∧
  HuffmanTable.code s' = HuffmanTable.code s + Z.of_nat count.
Proof.
  intros Hb. revert s. induction count as [|count IH]; intros s Hcode HK Hk Hfit;
    cbn [HuffmanTable.assign_codes].
  - intros [= <-]. split; [done|lia].
  - destruct (symbols !! HuffmanTable.p s) as [sym|]; [|done].
    destruct (16 <? bitlen)%nat; [done|]. intros Hs'.
    assert (0 < 2 ^ (16 - Z.of_nat bitlen)) as Hw
      by (apply Z.pow_pos_nonneg; lia).
    assert (2 ^ 16 = 2 ^ Z.of_nat bitlen * 2 ^ (16 - Z.of_nat bitlen)) as H16.
    { rewrite <- Z.pow_add_r by lia. f_equal. lia. }
    apply IH in Hs'; cbn [HuffmanTable.tbl HuffmanTable.codes HuffmanTable.code] in *.
    + destruct Hs' as [Hfit' ->]. split; [done|lia].
    + lia.
    + done.
    + lia.
    + intros sym' c l. destruct (decide (sym = sym')) as [->|Hne].
      * rewrite lookup_insert_eq. intros [= <- <-]. split; [lia|].
        split; [done|]. rewrite H16 in Hk. nia.
      * rewrite lookup_insert_ne by done. apply Hfit.
Qed.

Lemma build_loop_fit lengths bitlen symbols s s' :
  (1 ≤ bitlen)%nat → (bitlen + length lengths ≤ 17)%nat →
  0 ≤ HuffmanTable.code s →
  HuffmanTable.code s * 2 ^ (16 - Z.of_nat bitlen) + kraft_sum lengths bitlen
    ≤ 2 ^ 16 →
  codes_fit (HuffmanTable.codes (HuffmanTable.tbl s)) →
  HuffmanTable.build_loop lengths bitlen symbols s = Ok s' →
  codes_fit (HuffmanTable.codes (HuffmanTable.tbl s')).
Proof.
  revert bitlen s. induction lengths as [|count lengths IH];
    intros bitlen s Hb Hlen Hcode Hk Hfit; cbn [HuffmanTable.build_loop].
  - by intros [= <-].
  - cbn [length kraft_sum] in *.
    destruct (HuffmanTable.assign_codes _ _ _ s) as [s1|] eqn:Hs1; [|done].
    cbn [mbind result_bind].
    pose proof (kraft_sum_nonneg lengths (S bitlen)) as HK.
    assert ((1 ≤ bitlen ≤ 16)%nat) as Hb16 by lia.
    assert ((HuffmanTable.code s + Z.of_nat (Z.to_nat count))
              * 2 ^ (16 - Z.of_nat bitlen) + kraft_sum lengths (S bitlen)
            ≤ 2 ^ 16) as Hk1 by (rewrite Z.mul_add_distr_r; lia).
    destruct (assign_codes_fit _ _ _ _ _ (kraft_sum lengths (S bitlen))
                Hb16 Hcode HK Hk1 Hfit Hs1) as [Hfit1 Hcode1].
    apply IH; cbn [HuffmanTable.tbl HuffmanTable.code]; try done; try lia.
    + rewrite Hcode1, Z.shiftl_mul_pow2 by lia. lia.
    + rewrite Hcode1, Z.shiftl_mul_pow2 by lia. change (2 ^ 1) with 2.
      destruct (decide (bitlen = 16%nat)) as [->|Hne].
      * destruct lengths; [|simpl in Hlen; lia]. cbn [kraft_sum].
        change (16 - Z.of_nat 17) with (-1). change (2 ^ (-1)) with 0. lia.
      * replace (16 - Z.of_nat bitlen) with (Z.succ (16 - Z.of_nat (S bitlen)))
          in Hk by lia.
        rewrite Z.pow_succ_r in Hk by lia. lia.
Qed.

(** X8. When the length counts satisfy Kraft's inequality (the codes of
    length [l] weighing [2^(16 - l)] sum up to at most [2^16]), every code
    of the table has a length from 1 to 16 and a value that fits that many
    bits: it is written and read back unchanged by the bit stream codec. *)
Theorem huffman_codes_fit (lengths symbols : list Z) T (sym c : Z) (l : nat) :
  (length lengths ≤ 16)%nat →
  kraft_sum lengths 1 ≤ 2 ^ 16 →
  HuffmanTable.init lengths symbols = Ok T →
  HuffmanTable.encode T sym = Ok (c, l) →
  (1 ≤ l ≤ 16)%nat ∧ 0 ≤ c < 2 ^ Z.of_nat l.
Proof.
  intros Hlen Hk. unfold HuffmanTable.init, HuffmanTable.encode.
  destruct (HuffmanTable.build_loop lengths 1 symbols _) as [s'|] eqn:Hs';
    [|done].
  cbn [mbind result_bind]. intros [= <-].
  destruct (HuffmanTable.codes (HuffmanTable.tbl s') !! sym) as [[c' l']|] eqn:Hl;
    [|done].
  intros [= <- <-]. revert sym c' l' Hl. fold (codes_fit (HuffmanTable.codes (HuffmanTable.tbl s'))).
  eapply (build_loop_fit lengths 1 symbols
            (HuffmanTable.mk_state (HuffmanTable.mk ∅ ∅) 0 0));
    cbn [HuffmanTable.tbl HuffmanTable.codes HuffmanTable.code];
    try done; try lia.
Qed.

Lemma huffman_codes_fit_witness :
  (1 ≤ 3 ≤ 16)%nat ∧ 0 ≤ 2 < 2 ^ Z.of_nat 3.
Proof.
  eapply (huffman_codes_fit [0;1;5;1;1;1;1;1;1;0;0;0;0;0;0;0]
            [0;1;2;3;4;5;6;7;8;9;10;11] _ 1);
    [simpl; lia|vm_compute; discriminate
    |vm_compute; reflexivity|vm_compute; reflexivity].
Defined.

(** ** huffman.py: amplitudes, DHT payloads, decoding *)

Lemma single_write_read n v :
  ∃ r', BitReader.read_bits n
          (BitReader.init
             (BitWriter.get_bytes (BitWriter.write_bits n v BitWriter.init)))
        = Ok (v `mod` 2 ^ Z.of_nat n, r').
Proof.
  destruct (bitstream_reads_low_bits [(n, v)]) as (r' & Hr).
  cbn [write_all fmap list_fmap read_all fst snd] in Hr.
  destruct (BitReader.read_bits n _) as [[x r1]|e]; [|done].
  cbn [mbind result_bind] in Hr. injection Hr as -> ->. by exists r'.
Qed.

Lemma bit_length_spec v :
  v ≠ 0 →
  0 < bit_length v ∧ 2 ^ (bit_length v - 1) ≤ Z.abs v < 2 ^ bit_length v.
Proof.
  intros Hv. unfold bit_length. rewrite (proj2 (Z.eqb_neq _ _) Hv).
  pose proof (Z.log2_nonneg (Z.abs v)).
  destruct (Z.log2_spec (Z.abs v)) as [Hlo Hhi]; [lia|].
  replace (Z.log2 (Z.abs v) + 1 - 1) with (Z.log2 (Z.abs v)) by lia.
  unfold Z.succ in Hhi. lia.
Qed.

(** X9. The amplitude coding round-trips for every integer: the bits
    [encode_coefficient] writes for [v] (none for 0), read back as an
    amplitude of the category [bit_length v], give [v] again, negative
    values included. *)
Theorem amplitude_round_trip (v : Z) :
  ∃ r', decode_amplitude (bit_length v)
          (BitReader.init
             (BitWriter.get_bytes (encode_coefficient v BitWriter.init)))
        = Ok (v, r').
Proof.
  unfold encode_coefficient, decode_amplitude.
  destruct (Z.eqb_spec v 0) as [->|Hv]; [by eexists|].
  destruct (bit_length_spec v Hv) as (Hsize & Hlo & Hhi).
  set (size := bit_length v) in *.
  destruct (Z.ltb_spec 0 size); [|lia].
  assert (Z.of_nat (Z.to_nat size) = size) as Hnat by lia.
  assert (Z.shiftl 1 size = 2 ^ size) as Hs1 by (rewrite Z.shiftl_1_l; done).
  assert (Z.shiftl 1 (size - 1) = 2 ^ (size - 1)) as Hs2
    by (rewrite Z.shiftl_1_l; done).
  assert (2 ^ size = 2 * 2 ^ (size - 1)) as Hdouble.
  { rewrite <- Z.pow_succ_r by lia. f_equal. lia. }
  rewrite Hs1, Hs2.
  destruct (Z.ltb_spec v 0) as [Hneg|Hpos].
  - destruct (single_write_read (Z.to_nat size) (2 ^ size + v - 1)) as (r' & ->).
    cbn [mbind result_bind]. rewrite Hnat, Z.mod_small by lia.
    destruct (Z.ltb_spec (2 ^ size + v - 1) (2 ^ (size - 1))); [|lia].
    exists r'. do 2 f_equal. lia.
  - destruct (single_write_read (Z.to_nat size) v) as (r' & ->).
    cbn [mbind result_bind]. rewrite Hnat, Z.mod_small by lia.
    destruct (Z.ltb_spec v (2 ^ (size - 1))); [lia|]. by exists r'.
Qed.

Lemma sum_nonneg lengths :
  Forall (λ c, 0 ≤ c) lengths → 0 ≤ foldr Z.add 0 lengths.
Proof. induction 1; cbn [foldr]; lia. Qed.

Lemma sum_to_nat lengths :
  Forall (λ c, 0 ≤ c) lengths →
  Z.to_nat (foldr Z.add 0 lengths) = code_count lengths.
Proof.
  induction 1 as [|c lengths Hc Hl IH]; [done|].
  cbn [foldr code_count]. fold (code_count lengths). rewrite <- IH.
  pose proof (sum_nonneg lengths Hl). lia.
Qed.

(** X10. A DHT payload holding one table (the class/id byte, 16 length
    counts, then as many symbols as the counts announce) is parsed into
    the table the constructor builds from these counts and symbols, filed
    under its id among the DC tables when the class nibble is 0 and among
    the AC tables otherwise. *)
Theorem parse_dht_single (tc_th : Z) (lengths symbols : list Z) :
  length lengths = 16%nat →
  Forall (λ c, 0 ≤ c) lengths →
  length symbols = code_count lengths →
  parse_dht (tc_th :: lengths ++ symbols)
  = (T ← HuffmanTable.init lengths symbols ;
     Ok (if Z.shiftr tc_th 4 =? 0
         then ({[Z.land tc_th 15 := T]}, ∅)
         else (∅, {[Z.land tc_th 15 := T]}))).
Proof.
  intros Hlen Hnn Hsym. unfold parse_dht.
  cbn [length parse_dht_loop lookup list_lookup]. cbv zeta.
  change (drop 1 (tc_th :: lengths ++ symbols)) with (lengths ++ symbols).
  change (drop (1 + 16) (tc_th :: lengths ++ symbols))
    with (drop 16 (lengths ++ symbols)).
  assert (take 16 (lengths ++ symbols) = lengths) as ->.
  { rewrite <- Hlen. apply take_app_length. }
  rewrite sum_to_nat by done.
  assert (take (code_count lengths) (drop 16 (lengths ++ symbols)) = symbols)
    as ->.
  { rewrite <- Hlen at 1. rewrite drop_app_length, <- Hsym.
    apply firstn_all. }
  destruct (HuffmanTable.init lengths symbols) as [T|e]; [|done].
  cbn [mbind result_bind].
  assert (∀ dc ac fuel,
            parse_dht_loop fuel (tc_th :: lengths ++ symbols)
              (1 + 16 + code_count lengths) dc ac = Ok (dc, ac)) as Hend.
  { intros dc ac fuel.
    assert ((tc_th :: lengths ++ symbols) !! (1 + 16 + code_count lengths)%nat
            = None) as Hnone.
    { apply lookup_ge_None. cbn [length]. rewrite length_app. lia. }
    destruct fuel; cbn [parse_dht_loop]; by rewrite Hnone. }
  destruct (_ =? 0); rewrite Hend; by rewrite insert_empty.
Qed.

Lemma parse_dht_single_witness :
  parse_dht (0x10 :: ([0; 2] ++ replicate 14 0) ++ [5; 6])
  = (T ← HuffmanTable.init ([0; 2] ++ replicate 14 0) [5; 6] ;
     Ok (if Z.shiftr 0x10 4 =? 0
         then ({[Z.land 0x10 15 := T]}, ∅)
         else (∅, {[Z.land 0x10 15 := T]}))).
Proof.
  apply (parse_dht_single 0x10 ([0; 2] ++ replicate 14 0) [5; 6]);
    [reflexivity|repeat constructor; lia|reflexivity].
Defined.

Lemma assign_codes_decode_map count bitlen symbols s s' key sym l :
  HuffmanTable.assign_codes count bitlen symbols s = Ok s' →
  HuffmanTable.decode_map (HuffmanTable.tbl s') !! key = Some (sym, l) →
  HuffmanTable.decode_map (HuffmanTable.tbl s) !! key = Some (sym, l) ∨
  sym ∈ take count (drop (HuffmanTable.p s) symbols).
Proof.
  revert s. induction count as [|count IH]; intros s;
    cbn [HuffmanTable.assign_codes].
  - intros [= <-]. by left.
  - destruct (symbols !! HuffmanTable.p s) as [x|] eqn:Hx; [|done].
    destruct (16 <? bitlen)%nat; [done|].
    intros Hs' Hkey. rewrite (take_S_drop _ _ _ _ Hx), elem_of_cons.
    destruct (IH _ Hs' Hkey) as [Hold|Hin]; [|by right; right].
    cbn [HuffmanTable.tbl HuffmanTable.decode_map] in Hold.
    apply lookup_insert_Some in Hold as [[_ [= <- _]]|[_ Hold]];
      [right; by left|by left].
Qed.

Lemma build_loop_decode_map lengths bitlen symbols s s' key sym l :
  HuffmanTable.build_loop lengths bitlen symbols s = Ok s' →
  HuffmanTable.decode_map (HuffmanTable.tbl s') !! key = Some (sym, l) →
  HuffmanTable.decode_map (HuffmanTable.tbl s) !! key = Some (sym, l) ∨
  sym ∈ take (code_count lengths) (drop (HuffmanTable.p s) symbols).
Proof.
  revert bitlen s. induction lengths as [|count lengths IH]; intros bitlen s;
    cbn [HuffmanTable.build_loop].
  - intros [= <-]. by left.
  - destruct (HuffmanTable.assign_codes _ _ _ s) as [s1|] eqn:Hs1; [|done].
    cbn [mbind result_bind]. intros Hs' Hkey.
    cbn [code_count foldr]. fold (code_count lengths).
    rewrite <- (take_drop (Z.to_nat count)
                  (take (Z.to_nat count + code_count lengths)
                     (drop (HuffmanTable.p s) symbols))).
    rewrite take_take, Nat.min_l by lia.
    rewrite <- take_drop_commute, drop_drop, elem_of_app.
    replace (Z.to_nat count + code_count lengths - Z.to_nat count)%nat
      with (code_count lengths) by lia.
    destruct (IH _ _ Hs' Hkey) as [Hold|Hin].
    + cbn [HuffmanTable.tbl] in Hold.
      destruct (assign_codes_decode_map _ _ _ _ _ _ _ _ Hs1 Hold); auto.
    + cbn [HuffmanTable.p] in Hin.
      rewrite (assign_codes_p _ _ _ _ _ Hs1) in Hin. auto.
Qed.

Lemma decode_loop_outcome T todo len code r :
  match HuffmanTable.decode_loop T todo len code r with
  | Ok (sym, _) => ∃ key l, HuffmanTable.decode_map T !! key = Some (sym, l)
  | Raise e => e = EOFError ∨ e = ValueError
  end.
Proof.
  revert len code r. induction todo as [|todo IH]; intros len code r;
    cbn [HuffmanTable.decode_loop]; [by right|].
  destruct (BitReader.read_bit r) as [[bit r1]|e] eqn:Hbit.
  - cbn [mbind result_bind].
    destruct (HuffmanTable.decode_map T !! _) as [[sym l]|] eqn:Hkey.
    + by eexists _, _.
    + apply IH.
  - cbn [mbind result_bind]. left. by eapply read_bit_raises.
Qed.

(** X11. Decoding with a table built by the constructor returns one of the
    symbols the table was given, or raises [EOFError] (the data ran out)
    or [ValueError] (no code matched within 16 bits); nothing else. *)
Theorem huffman_decode_outcomes (lengths symbols : list Z) T
    (r : BitReader.t) :
  HuffmanTable.init lengths symbols = Ok T →
  match HuffmanTable.decode T r with
  | Ok (sym, _) => sym ∈ take (code_count lengths) symbols
  | Raise e => e = EOFError ∨ e = ValueError
  end.
Proof.
  unfold HuffmanTable.init, HuffmanTable.decode.
  destruct (HuffmanTable.build_loop lengths 1 symbols _) as [s'|] eqn:Hs';
    [|done].
  cbn [mbind result_bind]. intros [= <-].
  pose proof (decode_loop_outcome (HuffmanTable.tbl s') 16 1 0 r) as Hout.
  destruct (HuffmanTable.decode_loop _ _ _ _ _) as [[sym r']|e]; [|done].
  destruct Hout as (key & l & Hkey).
  destruct (build_loop_decode_map _ _ _ _ _ _ _ _ Hs' Hkey) as [Hemp|Hin];
    [|done].
  cbn [HuffmanTable.tbl HuffmanTable.decode_map] in Hemp.
  by rewrite lookup_empty in Hemp.
Qed.

Lemma huffman_decode_outcomes_witness :
  ∃ T, HuffmanTable.init [0; 2] [5; 6] = Ok T ∧
       match HuffmanTable.decode T (BitReader.init [64]) with
       | Ok (sym, _) => sym ∈ take (code_count [0; 2]) [5; 6]
       | Raise e => e = EOFError ∨ e = ValueError
       end.
Proof.
  eexists. split; [vm_compute; reflexivity|].
  eapply (huffman_decode_outcomes [0; 2] [5; 6] _ (BitReader.init [64])).
  vm_compute. reflexivity.
Defined.

(** ** rle.py *)

Lemma bit_length_opp c : bit_length (- c) = bit_length c.
Proof.
  unfold bit_length. rewrite Z.abs_opp.
  destruct (Z.eqb_spec c 0), (Z.eqb_spec (- c) 0); try lia; done.
Qed.

Lemma encode_ac_loop_body cs run :
  Forall rle_body_symbol (encode_ac_loop cs [] run).1.
Proof.
  revert run. induction cs as [|c cs IH]; intros run;
    cbn [encode_ac_loop]; [constructor|].
  destruct (Z.eqb_spec c 0) as [->|Hc]; [apply IH|].
  rewrite zrl_loop_spec by lia. rewrite encode_ac_loop_out. cbn [fst app].
  rewrite <- app_assoc. apply Forall_app. split.
  { apply Forall_replicate. by left. }
  apply Forall_app. split; [|apply IH].
  apply Forall_singleton. right. exists (Z.of_nat (run `mod` 16)), c.
  pose proof (Nat.mod_upper_bound run 16). split; [|split; [lia|done]].
  f_equal. destruct (0 <? c); [done|apply bit_length_opp].
Qed.

Lemma encode_ac_loop_run cs run :
  match last cs with
  | None => (encode_ac_loop cs [] run).2 = run
  | Some c =>
    (c = 0 → (0 < (encode_ac_loop cs [] run).2)%nat) ∧
    (c ≠ 0 → (encode_ac_loop cs [] run).2 = 0%nat)
  end.
Proof.
  revert run. induction cs as [|c cs IH]; intros run; [done|].
  rewrite last_cons. cbn [encode_ac_loop].
  destruct (Z.eqb_spec c 0) as [->|Hc].
  - specialize (IH (S run)). destruct (last cs) as [c'|]; [done|].
    rewrite IH. split; [lia|done].
  - rewrite zrl_loop_spec by lia. rewrite encode_ac_loop_out. cbn [snd].
    specialize (IH 0%nat). destruct (last cs) as [c'|]; [done|].
    rewrite IH. split; [done|done].
Qed.

(** X12. What [encode_ac] emits for 64 coefficients: the DC symbol with
    the first coefficient; then only zero-run markers and (run, size,
    amplitude) symbols with a run from 0 to 15, a nonzero amplitude and
    its bit length as size; and one end-of-block symbol at the very end
    exactly when the last coefficient is zero. *)
Theorem encode_ac_shape (coeffs : list Z) (syms : list symbol) :
  encode_ac coeffs = Ok syms →
  ∃ dc body,
    coeffs !! 0%nat = Some dc ∧
    Forall rle_body_symbol body ∧
    syms = DC dc :: body
             ++ (if bool_decide (coeffs !! 63%nat = Some 0) then [EOB] else []).
Proof.
  unfold encode_ac. destruct (Nat.eqb_spec (length coeffs) 64) as [Hlen|];
    [|done]. cbn [negb].
  destruct coeffs as [|dc acs]; [done|]. cbn [length] in Hlen.
  rewrite encode_ac_loop_out. cbn [fst snd]. intros [= <-].
  exists dc, (encode_ac_loop acs [] 0).1.
  split; [done|]. split; [apply encode_ac_loop_body|].
  pose proof (encode_ac_loop_run acs 0) as Hrun.
  assert (last acs = acs !! 62%nat) as Hlast.
  { rewrite last_lookup. f_equal. lia. }
  change ((dc :: acs) !! 63%nat) with (acs !! 62%nat).
  rewrite Hlast in Hrun. destruct (acs !! 62%nat) as [c|] eqn:Hc.
  2:{ apply lookup_ge_None in Hc. lia. }
  destruct Hrun as [Hz Hnz]. destruct (decide (c = 0)) as [->|Hne].
  - rewrite bool_decide_eq_true_2 by done.
    destruct (Nat.ltb_spec 0 (encode_ac_loop acs [] 0).2) as [_|Hle];
      [|specialize (Hz eq_refl); lia].
    done.
  - rewrite bool_decide_eq_false_2 by congruence.
    rewrite (Hnz Hne). cbn [Nat.ltb Nat.leb app]. by rewrite app_nil_r.
Qed.

Lemma encode_ac_shape_witness :
  ∃ dc body,
    (7 :: replicate 20 0 ++ [-3] ++ replicate 42 0) !! 0%nat = Some dc ∧
    Forall rle_body_symbol body ∧
    [DC 7; ZRL; AC 4 2 (-3); EOB]
    = DC dc :: body
        ++ (if bool_decide
                 ((7 :: replicate 20 0 ++ [-3] ++ replicate 42 0) !! 63%nat
                  = Some 0)
            then [EOB] else []).
Proof.
  apply (encode_ac_shape (7 :: replicate 20 0 ++ [-3] ++ replicate 42 0)).
  reflexivity.
Defined.

Lemma zero_fill_length n st :
  length (zero_fill n st).1 = length st.1.
Proof.
  revert st. induction n as [|n IH]; intros [coeffs idx]; [done|].
  cbn [zero_fill]. destruct (64 <=? idx)%nat; [done|].
  rewrite IH. cbn [fst]. apply length_insert.
Qed.

Lemma decode_ac_loop_length syms st st' :
  decode_ac_loop syms st = Ok st' → length st'.1 = length st.1.
Proof.
  revert st. induction syms as [|s syms IH]; intros st;
    cbn [decode_ac_loop]; [by intros [= <-]|].
  destruct s as [v|run size amp| |].
  - done.
  - destruct (zero_fill (Z.to_nat run) st) as [coeffs idx] eqn:Hz.
    pose proof (zero_fill_length (Z.to_nat run) st) as Hl. rewrite Hz in Hl.
    destruct (idx <? 64)%nat; intros Hs'; apply IH in Hs';
      cbn [fst] in *; rewrite ?length_insert in Hs'; congruence.
  - intros Hs'. apply IH in Hs'. by rewrite zero_fill_length in Hs'.
  - intros [= <-]. apply zero_fill_length.
Qed.

(** X13. Whatever symbols follow the DC symbol (runs overshooting the
    block, symbols behind its end, a missing end of block), what
    [decode_ac] returns has exactly 64 coefficients. *)
Theorem decode_ac_length (symbols : list symbol) (coeffs : list Z) :
  decode_ac symbols = Ok coeffs → length coeffs = 64%nat.
Proof.
  unfold decode_ac. destruct symbols as [|[dc| | |] syms]; try done.
  destruct (decode_ac_loop syms _) as [st|] eqn:Hst; [|done].
  cbn [mbind result_bind]. intros [= <-].
  unfold fill_rest. rewrite zero_fill_length.
  apply decode_ac_loop_length in Hst. rewrite Hst. cbn [fst].
  by rewrite length_insert, length_replicate.
Qed.

Lemma decode_ac_length_witness :
  length (replicate 41 0 ++ [9] ++ replicate 22 0) = 64%nat.
Proof.
  apply (decode_ac_length [DC 0; ZRL; ZRL; AC 8 4 9; ZRL; ZRL; AC 3 1 1]).
  reflexivity.
Defined.

Lemma zero_fill_reaches n coeffs idx :
  (Nat.min 64 (idx + n) ≤ (zero_fill n (coeffs, idx)).2)%nat.
Proof.
  revert coeffs idx. induction n as [|n IH]; intros coeffs idx;
    cbn [zero_fill]; [cbn [snd]; lia|].
  destruct (Nat.leb_spec 64 idx); [cbn [snd]; lia|].
  specialize (IH (<[idx:=0]> coeffs) (S idx)). lia.
Qed.

Lemma fill_rest_idempotent st : fill_rest (fill_rest st) = fill_rest st.
Proof.
  destruct st as [coeffs idx]. unfold fill_rest.
  pose proof (zero_fill_reaches 64 coeffs idx) as Hidx.
  destruct (zero_fill 64 (coeffs, idx)) as [coeffs' idx']. cbn [snd] in Hidx.
  cbn [zero_fill]. destruct (Nat.leb_spec 64 idx'); [done|lia].
Qed.

Lemma decode_ac_loop_eob body junk st :
  EOB ∉ body →
  decode_ac_loop (body ++ EOB :: junk) st
  = (st' ← decode_ac_loop body st ; Ok (fill_rest st')).
Proof.
  revert st. induction body as [|s body IH]; intros st Hno; [done|].
  apply not_elem_of_cons in Hno as [Hs Hno].
  cbn [app decode_ac_loop]. destruct s as [v|run size amp| |]; try done.
  - destruct (zero_fill (Z.to_nat run) st) as [coeffs idx].
    destruct (idx <? 64)%nat; by apply IH.
  - by apply IH.
Qed.

(** X14. [decode_ac] stops at the first end-of-block symbol: whatever
    follows it is ignored, and a symbol list without an end of block
    decodes like the same list with one appended. *)
Theorem decode_ac_stops_at_eob (dc : Z) (body junk : list symbol) :
  EOB ∉ body →
  decode_ac (DC dc :: body ++ EOB :: junk) = decode_ac (DC dc :: body).
Proof.
  intros Hno. cbn [decode_ac]. rewrite decode_ac_loop_eob by done.
  destruct (decode_ac_loop body _) as [st'|]; [|done].
  cbn [mbind result_bind]. by rewrite fill_rest_idempotent.
Qed.

Lemma decode_ac_stops_at_eob_witness :
  decode_ac (DC 3 :: [AC 0 2 (-2); ZRL] ++ EOB :: [AC 0 1 1; DC 5])
  = decode_ac (DC 3 :: [AC 0 2 (-2); ZRL]).
Proof.
  apply (decode_ac_stops_at_eob 3 [AC 0 2 (-2); ZRL] [AC 0 1 1; DC 5]).
  intros Hin. repeat (apply elem_of_cons in Hin as [Hin|Hin]; [discriminate Hin|]).
  by apply elem_of_nil in Hin.
Defined.

(** ** zigzag.py *)

Lemma zigzag_order_is_permutation : ZIGZAG_ORDER ≡ₚ seq 0 64.
Proof. apply (bool_decide_unpack _). vm_compute. exact I. Qed.

Lemma mapM_index_total (flat : list Z) (order : list nat) :
  Forall (λ i, (i < length flat)%nat) order →
  mapM (index flat) order = Ok ((λ i, flat !!! i) <$> order).
Proof.
  induction 1 as [|i order Hi _ IH]; [done|].
  cbn [mapM]. rewrite IH.
  unfold index. rewrite (list_lookup_lookup_total_lt _ _ Hi). done.
Qed.

Lemma fmap_lookup_total_seq (flat : list Z) :
  (λ i, flat !!! i) <$> seq 0 (length flat) = flat.
Proof.
  apply list_eq. intros i. rewrite list_lookup_fmap.
  destruct (decide (i < length flat)%nat) as [Hlt|Hge].
  - rewrite lookup_seq_lt by done. cbn.
    symmetry. by apply list_lookup_lookup_total_lt.
  - rewrite lookup_seq_ge by lia. symmetry. apply lookup_ge_None. lia.
Qed.

Lemma flatten8_concat (M : list (list Z)) :
  length M = 8%nat → Forall (λ row, length row = 8%nat) M →
  flatten8 M = Ok (concat M).
Proof.
  intros HM Hrows. explode M HM.
  repeat match goal with
         | H : Forall _ (_ :: _) |- _ => apply Forall_cons in H as [? H]
         end.
  clear Hrows.
  repeat match goal with
         | H : length ?l = 8%nat |- _ => explode l H
         end.
  reflexivity.
Qed.

Lemma zigzag_order_ok_shape (M : list (list Z)) S :
  zigzag_order M = Ok S →
  length M = 8%nat ∧ Forall (λ row, length row = 8%nat) M.
Proof.
  unfold zigzag_order. intros HS.
  destruct (decide (length M = 8%nat ∧ Forall (λ row, length row = 8%nat) M))
    as [?|Hbad]; [done|].
  by rewrite zigzag_shape_bad in HS.
Qed.

(** X15. The zigzag reorder loses and duplicates nothing: the 64 entries
    [zigzag_order] returns are the entries of the matrix in another
    order, and the rows [inverse_zigzag] returns hold the entries of its
    argument in another order. *)
Theorem zigzag_is_permutation :
  (∀ (M : list (list Z)) S, zigzag_order M = Ok S → S ≡ₚ concat M) ∧
  (∀ (S : list Z) M, inverse_zigzag S = Ok M → concat M ≡ₚ S).
Proof.
  assert (∀ (M : list (list Z)) S, zigzag_order M = Ok S → S ≡ₚ concat M)
    as Hfwd.
  { intros M S HS. destruct (zigzag_order_ok_shape M S HS) as [HM Hrows].
    revert HS. unfold zigzag_order. rewrite zigzag_shape_ok by done.
    rewrite flatten8_concat by done. cbn [mbind result_bind].
    assert (length (concat M) = 64%nat) as Hlen.
    { clear -HM Hrows. explode M HM.
      repeat match goal with
             | H : Forall _ (_ :: _) |- _ => apply Forall_cons in H as [? H]
             end.
      cbn [concat]. rewrite !length_app. cbn [length]. lia. }
    rewrite mapM_index_total.
    - intros HS.
      assert (S = (λ i, concat M !!! i) <$> ZIGZAG_ORDER) as -> by congruence.
      rewrite zigzag_order_is_permutation, <- Hlen.
      by rewrite fmap_lookup_total_seq.
    - rewrite Hlen. apply Forall_forall. intros i Hi.
      rewrite zigzag_order_is_permutation in Hi.
      apply elem_of_seq in Hi. lia. }
  split; [exact Hfwd|]. intros S M HM. symmetry. apply Hfwd.
  pose proof (zigzag_order_inverse_zigzag S
                (inverse_zigzag_ok_length S M HM)) as Hrt.
  by rewrite HM in Hrt.
Qed.

Lemma zigzag_is_permutation_witness :
  map Z.of_nat ZIGZAG_ORDER
  ≡ₚ concat (map (λ r, map (λ c, Z.of_nat (r * 8 + c)) (seq 0 8)) (seq 0 8)).
Proof.
  apply (proj1 zigzag_is_permutation). reflexivity.
Defined.

(** ** quantization.py *)

Lemma mapM_Ok_inv {A B} (f : A → result B) (l : list A) (l' : list B) :
  mapM f l = Ok l' → Forall2 (λ x y, f x = Ok y) l l'.
Proof.
  revert l'. induction l as [|x l IH]; intros l'; cbn [mapM].
  - intros [= <-]. constructor.
  - destruct (f x) as [y|] eqn:Hx; [|done]. cbn [mbind result_bind].
    destruct (mapM f l) as [ys|]; [|done]. cbn [mbind result_bind].
    intros [= <-]. constructor; [done|]. by apply IH.
Qed.

Lemma scale_entry_range factor v y :
  scale_entry factor v = Ok y → 1 ≤ y ≤ 255.
Proof.
  unfold scale_entry.
  destruct (py_mul _ _) as [x|]; [|done]. cbn [mbind result_bind].
  destruct (py_add _ _) as [s|]; [|done]. cbn [mbind result_bind].
  destruct (py_truediv _ _) as [z|]; [|done]. cbn [mbind result_bind].
  destruct (py_int _) as [q|]; [|done]. cbn [mbind result_bind].
  intros [= <-]. lia.
Qed.

(** X16.  Whatever the table and the quality, a table [scale_table]
    returns has the rows of its argument, entry for entry, and every
    entry is between 1 and 255. *)
Theorem scale_table_range (table scaled : list (list Z)) (quality : Z) :
  scale_table table quality = Ok scaled →
  Forall2 (λ row row', length row' = length row ∧
                       Forall (λ v, 1 ≤ v ≤ 255) row') table scaled.
Proof.
  rewrite scale_table_unfold.
  destruct (clamped_factor quality) as [factor|]; [|done].
  cbn [mbind result_bind]. intros Hscaled.
  eapply Forall2_impl; [exact (mapM_Ok_inv _ _ _ Hscaled)|].
  intros row row' Hrow. cbn beta in Hrow. apply mapM_Ok_inv in Hrow.
  split; [symmetry; by eapply Forall2_length|].
  eapply Forall2_Forall_r; [exact Hrow|].
  apply Forall_forall. intros v _ y. apply scale_entry_range.
Qed.

Lemma scale_table_range_witness :
  Forall2 (λ row row', length row' = length row ∧
                       Forall (λ v, 1 ≤ v ≤ 255) row')
          [[0; -7; 100000]; [255]] [[1; 1; 255]; [255]].
Proof.
  apply (scale_table_range [[0; -7; 100000]; [255]] [[1; 1; 255]; [255]] 20).
  vm_compute. reflexivity.
Defined.

Lemma div_le_cross a b c d :
  0 < b → 0 < d → c * b ≤ a * d → c / d ≤ a / b.
Proof.
  intros Hb Hd Hcross. apply Z.div_le_lower_bound; [done|].
  pose proof (Z.mul_div_le c d Hd) as Hfloor.
  assert (d * (b * (c / d)) ≤ d * a); [|nia].
  replace (d * (b * (c / d))) with (b * (d * (c / d))) by ring.
  assert (b * (d * (c / d)) ≤ b * c) by (apply Z.mul_le_mono_nonneg_l; lia).
  lia.
Qed.

(** The scaled entry does not grow with the quality. *)
Lemma trunc_scale_entry_antitone q1 q2 v :
  0 ≤ v → q1 ≤ q2 → trunc_scale_entry q2 v ≤ trunc_scale_entry q1 v.
Proof.
  intros Hv Hq. unfold trunc_scale_entry.
  assert (1 ≤ clamp_quality q1 ≤ 100) as H1 by (unfold clamp_quality; lia).
  assert (1 ≤ clamp_quality q2 ≤ 100) as H2 by (unfold clamp_quality; lia).
  assert (clamp_quality q1 ≤ clamp_quality q2) as H12
    by (unfold clamp_quality; lia).
  set (Q1 := clamp_quality q1) in *. set (Q2 := clamp_quality q2) in *.
  cbv zeta.
  apply Z.max_le_compat_l, Z.min_le_compat_r.
  destruct (Z.ltb_spec Q1 50), (Z.ltb_spec Q2 50); [| |lia|].
  - apply div_le_cross; [lia|lia|].
    assert (v * Q1 ≤ v * Q2) by (apply Z.mul_le_mono_nonneg_l; lia). lia.
  - apply div_le_cross; [lia|lia|].
    assert (v * ((200 - 2 * Q2) * Q1) ≤ v * 5000)
      by (apply Z.mul_le_mono_nonneg_l; [done|nia]).
    lia.
  - apply Z.div_le_mono; [lia|].
    assert (v * (200 - 2 * Q2) ≤ v * (200 - 2 * Q1))
      by (apply Z.mul_le_mono_nonneg_l; lia).
    lia.
Qed.

(** X17.  On a table with entries from 1 to 255, a higher quality never
    gives a larger quantization step: entry for entry, the table scaled
    for the quality [q2] is at most the one scaled for [q1 <= q2].  The
    qualities are any integers, [scale_table] clamps them. *)
Theorem scale_table_monotone (table : list (list Z)) (q1 q2 : Z) :
  Forall (Forall (λ v, 1 ≤ v ≤ 255)) table → q1 ≤ q2 →
  ∃ t1 t2,
    scale_table table q1 = Ok t1 ∧ scale_table table q2 = Ok t2 ∧
    Forall2 (Forall2 (λ a b, b ≤ a)) t1 t2.
Proof.
  intros Htable Hq.
  exists (map (map (trunc_scale_entry q1)) table),
         (map (map (trunc_scale_entry q2)) table).
  split; [by apply scale_table_entries|].
  split; [by apply scale_table_entries|].
  apply Forall2_fmap, Forall_Forall2_diag.
  eapply Forall_impl; [exact Htable|]. intros row Hrow. cbn beta.
  apply Forall2_fmap, Forall_Forall2_diag.
  eapply Forall_impl; [exact Hrow|]. intros v Hv. cbn beta in Hv |- *.
  apply trunc_scale_entry_antitone; lia.
Qed.

Lemma scale_table_monotone_witness :
  ∃ t1 t2,
    scale_table [[16; 11]; [12; 255]] 10 = Ok t1 ∧
    scale_table [[16; 11]; [12; 255]] 90 = Ok t2 ∧
    Forall2 (Forall2 (λ a b, b ≤ a)) t1 t2.
Proof.
  apply (scale_table_monotone [[16; 11]; [12; 255]] 10 90); [|lia].
  repeat constructor; lia.
Defined.

(** ** compressor.py: the table scaler *)

Lemma comprehension8_shape {A} (f : nat → nat → result A) (P : A → Prop)
    (M : list (list A)) :
  (∀ i j y, f i j = Ok y → P y) →
  comprehension8 f = Ok M →
  length M = 8%nat ∧ Forall (λ row, length row = 8%nat ∧ Forall P row) M.
Proof.
  intros Hf HM. unfold comprehension8 in HM. apply mapM_Ok_inv in HM.
  split; [by rewrite <- (Forall2_length _ _ _ HM)|].
  eapply Forall2_Forall_r; [exact HM|].
  apply Forall_forall. intros i _ row Hrow. cbn beta in Hrow.
  apply mapM_Ok_inv in Hrow.
  split; [by rewrite <- (Forall2_length _ _ _ Hrow)|].
  eapply Forall2_Forall_r; [exact Hrow|].
  apply Forall_forall. intros j _ y. apply Hf.
Qed.

Lemma build_scaled_qtables_shape orig quality scaled :
  build_scaled_qtables orig quality = Ok scaled →
  map fst scaled = map fst orig ∧
  Forall (λ it : Z * list (list Z), scaled_matrix it.2) scaled.
Proof.
  unfold build_scaled_qtables. intros Hs. apply mapM_Ok_inv in Hs.
  induction Hs as [|[tid flat] [tid' mat'] orig scaled Hit _ IH];
    [by split|].
  destruct IH as [IHk IHm].
  destruct (inverse_zigzag flat) as [mat|]; [|done].
  cbn [mbind result_bind] in Hit.
  destruct (if quality <? 50 then _ else _) as [factor|]; [|done].
  cbn [mbind result_bind] in Hit.
  destruct (comprehension8 _) as [new_mat|] eqn:Hnew; [|done].
  cbn [mbind result_bind] in Hit. injection Hit as <- <-.
  split; [cbn [map fst]; by rewrite IHk|].
  constructor; [|done]. cbn [snd].
  apply (comprehension8_shape _ (λ v, 1 ≤ v ≤ 255) _) in Hnew; [done|].
  intros i j y.
  destruct (index2 _ _ _) as [v|]; [|done]. cbn [mbind result_bind].
  destruct (py_mul _ _) as [x|]; [|done]. cbn [mbind result_bind].
  destruct (py_add _ _) as [s|]; [|done]. cbn [mbind result_bind].
  destruct (py_truediv _ _) as [z|]; [|done]. cbn [mbind result_bind].
  destruct (py_int _) as [q|]; [|done]. cbn [mbind result_bind].
  intros [= <-]. lia.
Qed.

(** X18.  [build_scaled_qtables] does not clamp the quality as
    [scale_table] does: the quality 0, which [scale_table] treats as 1,
    makes it raise [ZeroDivisionError] at the first table. *)
Theorem build_scaled_qtables_quality_0 (tid : Z) (flat : list Z)
    (rest : list (Z * list Z)) (table : list (list Z)) :
  length flat = 64%nat →
  build_scaled_qtables ((tid, flat) :: rest) 0 = Raise ZeroDivisionError ∧
  scale_table table 0 = scale_table table 1.
Proof.
  intros Hlen. split; [|reflexivity].
  destruct (inverse_zigzag_8x8 flat Hlen) as (M & HM & _).
  unfold build_scaled_qtables. cbn [mapM]. rewrite HM. reflexivity.
Qed.

Lemma build_scaled_qtables_quality_0_witness :
  build_scaled_qtables [(0, replicate 64 16)] 0 = Raise ZeroDivisionError ∧
  scale_table [[16]] 0 = scale_table [[16]] 1.
Proof.
  apply (build_scaled_qtables_quality_0 0 (replicate 64 16) [] [[16]]).
  reflexivity.
Defined.

(** ** io_1.py and the segment writer *)

Lemma pack_unpack_H n :
  0 ≤ n ≤ 65535 → Z.lor (Z.shiftl (Z.shiftr n 8) 8) (Z.land n 255) = n.
Proof.
  intros Hn. change 255 with (Z.ones 8).
  rewrite <- Z.ldiff_ones_r by lia. apply Z.lor_ldiff_and.
Qed.

Lemma dqt_loop_ok_any fuel payload i qt qt0 :
  (∃ r, dqt_loop fuel payload i qt = Ok r) →
  ∃ r, dqt_loop fuel payload i qt0 = Ok r.
Proof.
  revert i qt qt0. induction fuel as [|fuel IH]; intros i qt qt0;
    cbn [dqt_loop]; destruct (payload !! i) as [pq_tq|].
  - by intros [r ?].
  - by eexists.
  - cbv zeta. destruct (pq_tq ≫ 4 =? 0).
    + cbn [mbind result_bind]. apply IH.
    + destruct (be16_entries _ _ _) as [table|].
      * cbn [mbind result_bind]. apply IH.
      * by intros [r ?].
  - by eexists.
Qed.

(** One turn of the main loop on a framed segment. *)
Lemma parse_loop_segment fuel data ptr st m payload rest :
  drop ptr data
  = [0xFF; m] ++ [Z.shiftr (Z.of_nat (length payload) + 2) 8;
                  Z.land (Z.of_nat (length payload) + 2) 255]
    ++ payload ++ rest →
  writable_segment (m, payload) →
  ∃ st',
    parse_loop (S fuel) data ptr st
    = parse_loop fuel data (ptr + 4 + length payload) st' ∧
    drop (ptr + 4 + length payload) data = rest ∧
    segments st' = segments st ++ [(m, payload)] ∧
    scan_data st' = scan_data st.
Proof.
  intros Hdrop (Hm & Heoi & Hlen & Hdqt). cbn [fst snd] in *.
  assert (∀ k, data !! (ptr + k)%nat = drop ptr data !! k) as Hlook
    by (intros k; by rewrite lookup_drop).
  assert (data !! ptr = Some 0xFF) as H0
    by (rewrite <- (Nat.add_0_r ptr), Hlook, Hdrop; done).
  assert (data !! S ptr = Some m) as H1
    by (rewrite <- (Nat.add_1_r ptr), Hlook, Hdrop; done).
  assert (data !! (ptr + 2)%nat = Some (Z.shiftr (Z.of_nat (length payload) + 2) 8))
    as H2 by (rewrite Hlook, Hdrop; done).
  assert (data !! S (ptr + 2) = Some (Z.land (Z.of_nat (length payload) + 2) 255))
    as H3.
  { replace (S (ptr + 2)) with (ptr + 3)%nat by lia. rewrite Hlook, Hdrop. done. }
  assert (drop (ptr + 2 + 2) data = payload ++ rest) as Hpay.
  { replace (ptr + 2 + 2)%nat with (ptr + 4)%nat by lia.
    rewrite <- drop_drop, Hdrop. done. }
  cbn [parse_loop]. rewrite H0. cbn [Z.eqb negb Pos.eqb].
  unfold index. rewrite H1. cbn [mbind result_bind]. cbv zeta.
  rewrite (proj2 (Z.eqb_neq _ _) Heoi).
  unfold unpack_H. rewrite H2, H3. cbn [mbind result_bind].
  rewrite pack_unpack_H by lia.
  replace (Z.to_nat (Z.of_nat (length payload) + 2) - 2)%nat
    with (length payload) by lia.
  replace (ptr + 2 + 2 + Z.to_nat (Z.of_nat (length payload) + 2) - 2)%nat
    with (ptr + 4 + length payload)%nat by lia.
  unfold slice. rewrite Hpay, take_app_length.
  assert (drop (ptr + 4 + length payload) data = rest) as Hrest.
  { rewrite <- drop_drop.
    replace (ptr + 4)%nat with (ptr + 2 + 2)%nat by lia.
    rewrite Hpay. apply drop_app_length. }
  destruct (Z.eqb_spec m DQT) as [HDQT|_].
  { destruct (dqt_loop_ok_any _ _ _ _ (quant_tables st) (Hdqt HDQT)) as [qt ->].
    cbn [mbind result_bind]. eexists. split; [reflexivity|]. done. }
  destruct (m =? DHT); [eexists; split; [reflexivity|]; done|].
  destruct (m =? SOF0); [eexists; split; [reflexivity|]; done|].
  destruct (m =? SOS); eexists; (split; [reflexivity|]); done.
Qed.

(** The main loop over entropy-coded bytes that hold no 0xFF. *)
Lemma parse_loop_scan sb : ∀ fuel data ptr st rest,
  255 ∉ sb → drop ptr data = sb ++ rest →
  parse_loop (length sb + fuel) data ptr st
  = parse_loop fuel data (ptr + length sb)
      (mk_parsed (segments st) (quant_tables st) (huff_tables st)
         (frame_header st) (scan_header st) (scan_data st ++ sb)).
Proof.
  induction sb as [|b sb IH]; intros fuel data ptr st rest Hff Hdrop.
  - cbn [length app]. rewrite Nat.add_0_r, app_nil_r. by destruct st.
  - apply not_elem_of_cons in Hff as [Hb Hff].
    assert (data !! ptr = Some b) as H0.
    { rewrite <- (Nat.add_0_r ptr), <- lookup_drop, Hdrop. done. }
    cbn [length Nat.add parse_loop]. rewrite H0.
    rewrite (proj2 (Z.eqb_neq b 255)) by congruence. cbn [negb].
    rewrite (IH fuel data (S ptr) _ rest Hff).
    + cbn [segments quant_tables huff_tables frame_header scan_header scan_data].
      rewrite <- app_assoc. cbn [app].
      by replace (S ptr + length sb)%nat with (ptr + S (length sb))%nat by lia.
    + replace (S ptr) with (ptr + 1)%nat by lia.
      rewrite <- drop_drop, Hdrop. done.
Qed.

Lemma write_chunks_app c1 c2 out :
  write_chunks (c1 ++ c2) out
  = match write_chunks c1 out with
    | (out', Ok _) => write_chunks c2 out'
    | (out', Raise e) => (out', Raise e)
    end.
Proof.
  revert out. induction c1 as [|[b|e] c1 IH]; intros out; cbn [app write_chunks].
  - done.
  - apply IH.
  - done.
Qed.

Lemma write_jpeg_segment_ok scan_bytes s out :
  writable_segment s →
  write_chunks (write_jpeg_segment scan_bytes s) out
  = (out ++ segment_bytes scan_bytes s, Ok ()).
Proof.
  destruct s as [m payload]. intros (Hm & Heoi & Hlen & _). cbn [fst snd] in *.
  unfold write_jpeg_segment, segment_bytes, bytes1, pack_H. cbn [fst snd].
  destruct (Z.leb_spec 0 m); [|lia]. destruct (Z.leb_spec m 255); [|lia].
  destruct (Z.leb_spec 0 (Z.of_nat (length payload) + 2)); [|lia].
  destruct (Z.leb_spec (Z.of_nat (length payload) + 2) 65535); [|lia].
  rewrite (proj2 (Z.eqb_neq _ _) Heoi).
  cbn [andb mbind result_bind app write_chunks].
  destruct (m =? SOS); cbn [app write_chunks];
    rewrite <- ?app_assoc; cbn [app]; by rewrite ?app_nil_r.
Qed.

Lemma write_jpeg_segments_ok scan_bytes segments out :
  Forall writable_segment segments →
  write_chunks (flat_map (write_jpeg_segment scan_bytes) segments) out
  = (out ++ flat_map (segment_bytes scan_bytes) segments, Ok ()).
Proof.
  intros Hsegs. revert out.
  induction Hsegs as [|s segments Hs _ IH]; intros out; cbn [flat_map].
  - by rewrite app_nil_r.
  - rewrite write_chunks_app, write_jpeg_segment_ok by done.
    rewrite IH. by rewrite <- app_assoc.
Qed.

Lemma parse_loop_written scan_bytes segs : ∀ fuel data ptr st,
  Forall writable_segment segs → 255 ∉ scan_bytes →
  drop ptr data = flat_map (segment_bytes scan_bytes) segs ++ [0xFF; EOI] →
  (length data - ptr ≤ fuel)%nat →
  ∃ p, parse_loop fuel data ptr st = Ok p ∧
       segments p = segments st ++ segs ++ [(EOI, [])] ∧
       scan_data p = scan_data st ++ scans_written segs scan_bytes.
Proof.
  induction segs as [|[m payload] segs IH]; intros fuel data ptr st Hsegs Hff Hdrop Hfuel.
  - cbn [flat_map app] in Hdrop.
    assert (length (drop ptr data) = 2%nat) as Hl by (by rewrite Hdrop).
    rewrite length_drop in Hl. destruct fuel as [|fuel]; [lia|].
    assert (data !! ptr = Some 0xFF) as H0
      by (rewrite <- (Nat.add_0_r ptr), <- lookup_drop, Hdrop; done).
    assert (data !! S ptr = Some EOI) as H1
      by (rewrite <- (Nat.add_1_r ptr), <- lookup_drop, Hdrop; done).
    cbn [parse_loop]. rewrite H0. cbn [Z.eqb negb Pos.eqb].
    unfold index. rewrite H1. cbn [mbind result_bind]. cbv zeta.
    rewrite Z.eqb_refl. eexists. split; [reflexivity|].
    cbn [segments scan_data scans_written flat_map]. by rewrite app_nil_r.
  - apply Forall_cons in Hsegs as [Hs Hsegs].
    cbn [flat_map] in Hdrop. unfold segment_bytes at 1 in Hdrop.
    cbn [fst snd] in Hdrop. rewrite <- !app_assoc in Hdrop.
    assert (4 + length payload
              + length (if (m =? SOS)%Z then scan_bytes else [])
            ≤ length (drop ptr data))%nat as Hl.
    { rewrite Hdrop, !length_app. cbn [length]. lia. }
    rewrite length_drop in Hl. destruct fuel as [|fuel]; [lia|].
    destruct (parse_loop_segment fuel data ptr st m payload _ Hdrop Hs)
      as (st1 & -> & Hdrop1 & Hseg1 & Hscan1).
    cbn [scans_written flat_map fst]. fold (scans_written segs scan_bytes).
    destruct (m =? SOS).
    + replace fuel with (length scan_bytes + (fuel - length scan_bytes))%nat
        by lia.
      rewrite (parse_loop_scan scan_bytes _ data _ st1 _ Hff Hdrop1).
      destruct (IH (fuel - length scan_bytes)%nat data
                  (ptr + 4 + length payload + length scan_bytes)%nat
                  (mk_parsed (segments st1) (quant_tables st1) (huff_tables st1)
                     (frame_header st1) (scan_header st1)
                     (scan_data st1 ++ scan_bytes)) Hsegs Hff)
        as (p & Hp & Hsegp & Hscanp).
      { rewrite <- drop_drop, Hdrop1. apply drop_app_length. }
      { lia. }
      exists p. split; [done|]. cbn [segments scan_data] in *.
      rewrite Hsegp, Hscanp, Hseg1, Hscan1. by rewrite <- !app_assoc.
    + cbn [app] in Hdrop1.
      destruct (IH fuel data (ptr + 4 + length payload)%nat st1 Hsegs Hff Hdrop1)
        as (p & Hp & Hsegp & Hscanp); [lia|].
      exists p. split; [done|].
      rewrite Hsegp, Hscanp, Hseg1, Hscan1. by rewrite <- !app_assoc.
Qed.

(** X19. [parse_jpeg] inverts [write_jpeg]: for segments with a marker
    byte other than end-of-image, payloads of at most 65533 bytes and
    quantization-table payloads the table loop of [parse_jpeg] gets
    through, and entropy-coded bytes without 0xFF, [write_jpeg] succeeds
    and parsing the file it wrote gives the same segments back, followed
    by the end-of-image entry, and the entropy-coded bytes once for every
    scan header. *)
Theorem write_parse_round_trip (fs : gmap string (list Z)) (path : string)
    (segs : list (Z * list Z)) (scan_bytes : list Z) :
  Forall writable_segment segs → 255 ∉ scan_bytes →
  ∃ fs' p,
    write_jpeg fs path segs scan_bytes = (fs', Ok ()) ∧
    parse_jpeg fs' path = Ok p ∧
    segments p = segs ++ [(EOI, [])] ∧
    scan_data p = scans_written segs scan_bytes.
Proof.
  intros Hsegs Hff. unfold write_jpeg, write_jpeg_chunks.
  change ([Ok [255; SOI]] ++ ?l) with (Ok [255; SOI] :: l).
  cbn [write_chunks app].
  rewrite write_chunks_app, write_jpeg_segments_ok by done.
  cbn [write_chunks].
  set (content := ([255; SOI] ++ flat_map (segment_bytes scan_bytes) segs)
                  ++ [255; EOI]).
  destruct (parse_loop_written scan_bytes segs (length content) content 2
              (mk_parsed [] [] [] None None []) Hsegs Hff)
    as (p & Hp & Hsegp & Hscanp); [by unfold content; rewrite <- app_assoc|lia|].
  exists (<[path := content]> fs), p. split; [done|].
  unfold parse_jpeg. rewrite lookup_insert_eq. unfold parse_jpeg_bytes.
  assert (take 2 content = [255; 216]) as -> by done.
  rewrite bool_decide_eq_true_2 by done. done.
Qed.

Lemma write_parse_round_trip_witness :
  ∃ fs' p,
    write_jpeg ∅ "a.jpg" [(0xE0, [1; 255]); (0xDA, [7])] [3; 4]
      = (fs', Ok ()) ∧
    parse_jpeg fs' "a.jpg" = Ok p ∧
    segments p = [(0xE0, [1; 255]); (0xDA, [7])] ++ [(EOI, [])] ∧
    scan_data p = scans_written [(0xE0, [1; 255]); (0xDA, [7])] [3; 4].
Proof.
  apply (write_parse_round_trip ∅ "a.jpg" [(0xE0, [1; 255]); (0xDA, [7])] [3; 4]).
  - repeat constructor; cbn; try lia; discriminate.
  - intros Hin.
    repeat (apply elem_of_cons in Hin as [Hin|Hin]; [discriminate Hin|]).
    by apply elem_of_nil in Hin.
Defined.

(** ** What [parse_jpeg] keeps of a file *)

Lemma sublist_take_le {A} (l data : list A) (n m : nat) :
  (n ≤ m)%nat → l `sublist_of` take n data → l `sublist_of` take m data.
Proof.
  intros Hnm Hl. etransitivity; [exact Hl|].
  replace (take n data) with (take n (take m data))
    by (rewrite take_take; f_equal; lia).
  apply sublist_take.
Qed.

Lemma parse_loop_scan_data_sublist fuel data ptr st p :
  scan_data st `sublist_of` take ptr data →
  parse_loop fuel data ptr st = Ok p →
  scan_data p `sublist_of` data.
Proof.
  revert ptr st. induction fuel as [|fuel IH]; intros ptr st Hst;
    cbn [parse_loop]; destruct (data !! ptr) as [byte|] eqn:Hbyte;
    try (intros [= <-]; etransitivity; [exact Hst|apply sublist_take]);
    try done.
  assert (∀ k, scan_data st `sublist_of` take (ptr + k) data) as Hmove
    by (intros k; eapply sublist_take_le; [|exact Hst]; lia).
  destruct (byte =? 255); cbn [negb].
  - destruct (index data (S ptr)) as [marker|]; [|done].
    cbn [mbind result_bind]. cbv zeta.
    destruct (marker =? EOI).
    { intros [= <-]. cbn [scan_data].
      etransitivity; [exact Hst|apply sublist_take]. }
    destruct (unpack_H data (ptr + 2)) as [len|]; [|done].
    cbn [mbind result_bind].
    assert (scan_data st
            `sublist_of` take (ptr + 2 + 2 + Z.to_nat len - 2) data) as Hnext
      by (eapply sublist_take_le; [|exact Hst]; lia).
    destruct (marker =? DQT).
    { destruct (dqt_loop _ _ _ _); [|done]. cbn [mbind result_bind].
      by apply IH. }
    destruct (marker =? DHT); [by apply IH|].
    destruct (marker =? SOF0); [by apply IH|].
    destruct (marker =? SOS); by apply IH.
  - apply IH. cbn [scan_data]. rewrite (take_S_r _ _ _ Hbyte).
    by apply sublist_app.
Qed.

(** X20.  The entropy-coded data [parse_jpeg] returns is made of bytes of
    the file, in the order of the file, and holds no 0xFF: every 0xFF of
    the file is read as the start of a marker, also the stuffed ones of
    the scan. *)
Theorem parse_scan_data_from_file (fs : gmap string (list Z)) (path : string)
    (p : parsed) :
  parse_jpeg fs path = Ok p →
  ∃ data, fs !! path = Some data ∧
          scan_data p `sublist_of` data ∧ 255 ∉ scan_data p.
Proof.
  unfold parse_jpeg. destruct (fs !! path) as [data|]; [|done].
  intros Hp. exists data. split; [done|]. split.
  - revert Hp. unfold parse_jpeg_bytes. destruct (negb _); [done|].
    apply parse_loop_scan_data_sublist. cbn [scan_data]. apply sublist_nil_l.
  - by eapply parse_jpeg_scan_data_no_ff.
Qed.

Lemma parse_scan_data_from_file_witness :
  ∃ p data,
    parse_jpeg {[ "in.jpg"%string := small_file ]} "in.jpg" = Ok p ∧
    ({[ "in.jpg"%string := small_file ]} : gmap string (list Z))
      !! "in.jpg"%string = Some data ∧
    scan_data p `sublist_of` data ∧ 255 ∉ scan_data p.
Proof.
  assert (∃ p, parse_jpeg {[ "in.jpg"%string := small_file ]} "in.jpg" = Ok p)
    as [p Hp] by (eexists; vm_compute; reflexivity).
  exists p.
  destruct (parse_scan_data_from_file _ _ _ Hp) as (data & Hdata & Hsub & Hff).
  exists data. split; [exact Hp|]. split; [exact Hdata|].
  split; [exact Hsub|exact Hff].
Defined.

(** The segments the main loop collects hold a marker byte and a payload
    short enough for a 16-bit length field. *)
Lemma parse_loop_segments_frameable fuel data ptr st p :
  is_bytes data →
  Forall (λ s : Z * list Z,
            0 ≤ s.1 ≤ 255 ∧ Z.of_nat (length s.2) ≤ 65533 ∧ is_bytes s.2)
         (segments st) →
  parse_loop fuel data ptr st = Ok p →
  Forall (λ s : Z * list Z,
            0 ≤ s.1 ≤ 255 ∧ Z.of_nat (length s.2) ≤ 65533 ∧ is_bytes s.2)
         (segments p).
Proof.
  intros Hdata. revert ptr st. induction fuel as [|fuel IH]; intros ptr st Hst;
    cbn [parse_loop]; destruct (data !! ptr) as [byte|] eqn:Hbyte;
    try (intros [= <-]; done); try done.
  assert (∀ i b, data !! i = Some b → 0 ≤ b ≤ 255) as Hb
    by (intros i b; apply (proj1 (Forall_lookup _ _) Hdata)).
  destruct (byte =? 255); cbn [negb].
  - unfold index. destruct (data !! S ptr) as [marker|] eqn:Hmarker; [|done].
    cbn [mbind result_bind]. cbv zeta.
    assert (0 ≤ marker ≤ 255) as Hm by eauto.
    destruct (marker =? EOI).
    { intros [= <-]. cbn [segments]. apply Forall_app. split; [done|].
      apply Forall_singleton. cbn. split; [lia|]. split; [lia|].
      apply Forall_nil_2. }
    unfold unpack_H.
    destruct (data !! (ptr + 2)%nat) as [hi|] eqn:Hhi; [|done].
    destruct (data !! S (ptr + 2)) as [lo|] eqn:Hlo; [|done].
    cbn [mbind result_bind].
    assert (0 ≤ Z.lor (Z.shiftl hi 8) lo ≤ 65535) as Hlen.
    { assert (0 ≤ hi ≤ 255) by eauto. assert (0 ≤ lo ≤ 255) by eauto.
      assert (Z.lor (Z.shiftl hi 8) lo < 2 ^ 16); [|split; [|lia]].
      - apply Z.log2_lt_cancel. destruct (Z.eq_dec (Z.lor (hi ≪ 8) lo) 0) as [->|?];
          [done|].
        rewrite Z.log2_lor by (try apply Z.shiftl_nonneg; lia).
        rewrite Z.log2_pow2 by lia.
        apply Z.max_lub_lt.
        + destruct (Z.eq_dec hi 0) as [->|?]; [done|].
          rewrite Z.log2_shiftl by lia.
          assert (Z.log2 hi < 8); [|lia].
          apply Z.log2_lt_pow2; lia.
        + destruct (Z.eq_dec lo 0) as [->|?]; [done|].
          assert (Z.log2 lo < 8); [|lia].
          apply Z.log2_lt_pow2; lia.
      - apply Z.lor_nonneg. split; [apply Z.shiftl_nonneg|]; lia. }
    set (len := Z.lor (Z.shiftl hi 8) lo) in *.
    assert (Forall (λ s : Z * list Z,
                      0 ≤ s.1 ≤ 255 ∧ Z.of_nat (length s.2) ≤ 65533
                      ∧ is_bytes s.2)
              (segments st
               ++ [(marker, slice data (ptr + 2 + 2) (Z.to_nat len - 2))]))
      as Hsegs.
    { apply Forall_app. split; [done|]. apply Forall_singleton. cbn [fst snd].
      split; [done|]. unfold slice. split; [rewrite length_take; lia|].
      apply Forall_take, Forall_drop, Hdata. }
    destruct (marker =? DQT).
    { destruct (dqt_loop _ _ _ _); [|done]. cbn [mbind result_bind].
      by apply IH. }
    destruct (marker =? DHT); [by apply IH|].
    destruct (marker =? SOF0); [by apply IH|].
    destruct (marker =? SOS); by apply IH.
  - by apply IH.
Qed.

(** X21.  Whatever [parse_jpeg] returns for a file of bytes,
    [build_segment] can frame again: no segment it lists makes the
    marker byte or the 16-bit length field of [build_segment] overflow,
    and the framed segment is a byte string four bytes longer than the
    payload. *)
Theorem parsed_segments_frameable (fs : gmap string (list Z)) (path : string)
    (data : list Z) (p : parsed) :
  fs !! path = Some data → is_bytes data →
  parse_jpeg fs path = Ok p →
  Forall (λ s : Z * list Z,
            ∃ framed, build_segment s.1 s.2 = Ok framed ∧
                      length framed = (length s.2 + 4)%nat ∧
                      is_bytes framed)
         (segments p).
Proof.
  intros Hfs Hdata. unfold parse_jpeg. rewrite Hfs. unfold parse_jpeg_bytes.
  destruct (negb _); [done|]. intros Hp.
  eapply Forall_impl;
    [eapply parse_loop_segments_frameable; [exact Hdata| |exact Hp]|].
  { cbn [segments]. constructor. }
  intros [m payload] (Hm & Hlen & Hpay). cbn [fst snd] in *.
  unfold build_segment, bytes1, pack_H.
  replace ((0 <=? m) && (m <=? 255)) with true by (symmetry; apply andb_true_iff; lia).
  cbn [mbind result_bind].
  replace ((0 <=? Z.of_nat (length payload) + 2)
           && (Z.of_nat (length payload) + 2 <=? 65535)) with true
    by (symmetry; apply andb_true_iff; lia).
  cbn [mbind result_bind]. eexists. split; [reflexivity|].
  split; [cbn; lia|]. cbn [app]. unfold is_bytes.
  repeat (apply Forall_cons; split); [lia|lia| | |exact Hpay].
  - split; [apply Z.shiftr_nonneg; lia|].
    rewrite Z.shiftr_div_pow2 by lia.
    assert ((Z.of_nat (length payload) + 2) / 2 ^ 8 < 256); [|lia].
    apply Z.div_lt_upper_bound; lia.
  - apply land_255_range.
Qed.

Lemma parsed_segments_frameable_witness :
  ∃ p,
    parse_jpeg {[ "in.jpg"%string := small_file ]} "in.jpg" = Ok p ∧
    Forall (λ s : Z * list Z,
              ∃ framed, build_segment s.1 s.2 = Ok framed ∧
                        length framed = (length s.2 + 4)%nat ∧
                        is_bytes framed)
           (segments p).
Proof.
  assert (∃ p, parse_jpeg {[ "in.jpg"%string := small_file ]} "in.jpg" = Ok p)
    as [p Hp] by (eexists; vm_compute; reflexivity).
  exists p. split; [exact Hp|].
  apply (parsed_segments_frameable {[ "in.jpg"%string := small_file ]}
           "in.jpg" small_file p); [reflexivity| |exact Hp].
  unfold is_bytes, small_file. repeat (apply Forall_cons; split; [lia|]).
  apply Forall_nil_2.
Defined.

(** ** compressor.py: the quantization-table segment *)

Lemma byte_matrix_shape mat :
  byte_matrix mat →
  length mat = 8%nat ∧ Forall (λ row, length row = 8%nat) mat.
Proof.
  intros [Hlen Hrows]. split; [done|].
  eapply Forall_impl; [exact Hrows|]. by intros row [? _].
Qed.

Lemma concat_8x8_length {A} (M : list (list A)) :
  length M = 8%nat → Forall (λ row, length row = 8%nat) M →
  length (concat M) = 64%nat.
Proof.
  intros HM Hrows. explode M HM.
  repeat match goal with
         | H : Forall _ (_ :: _) |- _ => apply Forall_cons in H as [? H]
         end.
  cbn [concat]. rewrite !length_app. cbn [length]. lia.
Qed.

(** What one table of [rebuild_dqt_payload] appends. *)
Lemma rebuild_dqt_table mat :
  byte_matrix mat →
  ∃ zz, flatten8 mat = Ok (concat mat) ∧
        mapM (index (concat mat)) ZIGZAG_ORDER = Ok zz ∧
        length zz = 64%nat ∧ is_bytes zz ∧
        zigzag_order mat = Ok zz ∧ inverse_zigzag zz = Ok mat.
Proof.
  intros Hmat. destruct (byte_matrix_shape mat Hmat) as [Hlen Hrows].
  pose proof (concat_8x8_length mat Hlen Hrows) as Hflat.
  assert (Forall (λ i, (i < length (concat mat))%nat) ZIGZAG_ORDER) as Hidx.
  { rewrite Hflat. apply Forall_forall. intros i Hi.
    rewrite zigzag_order_is_permutation in Hi. apply elem_of_seq in Hi. lia. }
  exists ((λ i, concat mat !!! i) <$> ZIGZAG_ORDER).
  assert (zigzag_order mat = Ok ((λ i, concat mat !!! i) <$> ZIGZAG_ORDER))
    as Hzz.
  { unfold zigzag_order. rewrite zigzag_shape_ok by done.
    rewrite flatten8_concat by done. cbn [mbind result_bind].
    by apply mapM_index_total. }
  split; [by apply flatten8_concat|]. split; [by apply mapM_index_total|].
  split; [by rewrite length_fmap|]. split; [|split; [exact Hzz|]].
  - unfold is_bytes. apply Forall_fmap.
    eapply Forall_impl; [exact Hidx|]. intros i Hi. cbn.
    assert (is_bytes (concat mat)) as Hb.
    { apply Forall_concat. destruct Hmat as [_ Hm].
      eapply Forall_impl; [exact Hm|]. by intros row [_ ?]. }
    apply (proj1 (Forall_lookup _ _) Hb i).
    by apply list_lookup_lookup_total_lt.
  - pose proof (inverse_zigzag_zigzag_order mat Hlen Hrows) as Hrt.
    by rewrite Hzz in Hrt.
Qed.

Lemma extend_bytes_ok payload zz :
  is_bytes zz → extend_bytes payload zz = Ok (payload ++ zz).
Proof.
  intros Hzz. unfold extend_bytes.
  replace (forallb _ zz) with true; [done|]. symmetry.
  apply forallb_forall. intros b Hb. apply list_elem_of_In in Hb.
  pose proof (proj1 (Forall_forall _ _) Hzz b Hb). cbn beta in *.
  apply andb_true_iff. lia.
Qed.

Lemma land_15_nibble tid :
  Z.shiftr (Z.land tid 15) 4 = 0 ∧ Z.land (Z.land tid 15) 15 = Z.land tid 15.
Proof.
  split.
  - change 15 with (Z.ones 4). rewrite Z.land_ones by lia.
    rewrite Z.shiftr_div_pow2 by lia. apply Z.div_small.
    apply Z.mod_pos_bound. lia.
  - rewrite <- Z.land_assoc. f_equal.
Qed.

(** One turn of the table loop of [parse_jpeg] on a table of 8-bit
    precision. *)
Lemma dqt_loop_table fuel pre tid zz rest qt :
  length zz = 64%nat →
  dqt_loop (S fuel) (pre ++ [Z.land tid 15] ++ zz ++ rest) (length pre) qt
  = dqt_loop fuel (pre ++ [Z.land tid 15] ++ zz ++ rest)
      (length (pre ++ [Z.land tid 15] ++ zz))
      (dict_set (Z.land tid 15) zz qt).
Proof.
  intros Hzz. cbn [dqt_loop].
  rewrite lookup_app_r, Nat.sub_diag by lia. cbn [app lookup list_lookup].
  cbv zeta. destruct (land_15_nibble tid) as [-> ->]. cbn [Z.eqb].
  cbn [mbind result_bind]. unfold slice.
  replace (drop (S (length pre)) (pre ++ Z.land tid 15 :: zz ++ rest))
    with (zz ++ rest).
  - rewrite take_app_length' by lia.
    f_equal. rewrite !length_app. cbn [length]. lia.
  - replace (pre ++ Z.land tid 15 :: zz ++ rest)
      with ((pre ++ [Z.land tid 15]) ++ zz ++ rest)
      by (by rewrite <- app_assoc).
    rewrite drop_app_length'; [done|]. rewrite length_app. cbn. lia.
Qed.

Lemma rebuild_dqt_loop_spec items : ∀ pre,
  Forall (λ it : Z * list (list Z), byte_matrix it.2) items →
  ∃ enc zzs,
    rebuild_dqt_loop items pre = Ok (pre ++ enc) ∧
    length enc = (65 * length items)%nat ∧ is_bytes enc ∧
    Forall2 (λ (it : Z * list (list Z)) zz,
               zigzag_order it.2 = Ok zz ∧ inverse_zigzag zz = Ok it.2)
            items zzs ∧
    ∀ fuel qt, (length items ≤ fuel)%nat →
      dqt_loop fuel (pre ++ enc) (length pre) qt
      = Ok (tables_read_back items zzs qt).
Proof.
  induction items as [|[tid mat] items IH]; intros pre Hitems.
  - exists [], []. split; [by rewrite app_nil_r|]. split; [done|].
    split; [constructor|]. split; [constructor|]. intros fuel qt _.
    rewrite app_nil_r. destruct fuel; cbn [dqt_loop];
      by rewrite (proj2 (lookup_ge_None _ _)) by lia.
  - apply Forall_cons in Hitems as [Hmat Hitems]. cbn [snd] in Hmat.
    destruct (rebuild_dqt_table mat Hmat)
      as (zz & Hflat & Hmap & Hlen & Hbytes & Hzz & Hinv).
    destruct (IH ((pre ++ [Z.land tid 15]) ++ zz) Hitems)
      as (enc & zzs & Hloop & Henc & Hencb & Hall & Hread).
    exists ([Z.land tid 15] ++ zz ++ enc), (zz :: zzs).
    split; [|split; [|split; [|split]]].
    + cbn [rebuild_dqt_loop]. rewrite Hflat. cbn [mbind result_bind].
      rewrite Hmap. cbn [mbind result_bind].
      rewrite extend_bytes_ok by done. cbn [mbind result_bind].
      rewrite Hloop. f_equal. by rewrite <- !app_assoc.
    + rewrite !length_app. cbn [length]. lia.
    + unfold is_bytes. rewrite !Forall_app. split; [|done].
      apply Forall_singleton.
      change 15 with (Z.ones 4). rewrite Z.land_ones by lia.
      pose proof (Z.mod_pos_bound tid (2 ^ 4)). lia.
    + by constructor.
    + intros [|fuel] qt Hfuel; [cbn [length] in Hfuel; lia|].
      rewrite (dqt_loop_table fuel pre tid zz enc qt Hlen).
      replace (pre ++ [Z.land tid 15] ++ zz ++ enc)
        with (((pre ++ [Z.land tid 15]) ++ zz) ++ enc)
        by (by rewrite <- !app_assoc).
      replace (pre ++ [Z.land tid 15] ++ zz)
        with ((pre ++ [Z.land tid 15]) ++ zz) by (by rewrite <- !app_assoc).
      rewrite Hread by (cbn [length] in Hfuel; lia). done.
Qed.

(** X22.  The quantization-table payload [rebuild_dqt_payload] builds from
    8x8 matrices of bytes is one the table loop of [parse_jpeg] reads
    back: 65 bytes for each table, and the loop stores each table, in
    zigzag order, under the low four bits of its id, so that
    [inverse_zigzag] gives the matrix again. *)
Theorem dqt_payload_round_trip (items : list (Z * list (list Z))) :
  Forall (λ it : Z * list (list Z), byte_matrix it.2) items →
  ∃ payload zzs,
    rebuild_dqt_payload items = Ok payload ∧
    length payload = (65 * length items)%nat ∧ is_bytes payload ∧
    Forall2 (λ (it : Z * list (list Z)) zz,
               zigzag_order it.2 = Ok zz ∧ inverse_zigzag zz = Ok it.2)
            items zzs ∧
    dqt_loop (length payload) payload 0 [] = Ok (tables_read_back items zzs []).
Proof.
  intros Hitems.
  destruct (rebuild_dqt_loop_spec items [] Hitems)
    as (enc & zzs & Hloop & Henc & Hencb & Hall & Hread).
  exists enc, zzs. split; [exact Hloop|]. split; [exact Henc|].
  split; [exact Hencb|]. split; [exact Hall|].
  apply (Hread (length enc) []). lia.
Qed.

Lemma dqt_payload_round_trip_witness :
  ∃ payload zzs,
    rebuild_dqt_payload [(0, replicate 8 (replicate 8 16));
                         (17, replicate 8 [1; 2; 3; 4; 5; 6; 7; 8])]
    = Ok payload ∧
    length payload = (65 * 2)%nat ∧ is_bytes payload ∧
    Forall2 (λ (it : Z * list (list Z)) zz,
               zigzag_order it.2 = Ok zz ∧ inverse_zigzag zz = Ok it.2)
            [(0, replicate 8 (replicate 8 16));
             (17, replicate 8 [1; 2; 3; 4; 5; 6; 7; 8])] zzs ∧
    dqt_loop (length payload) payload 0 []
    = Ok (tables_read_back [(0, replicate 8 (replicate 8 16));
                            (17, replicate 8 [1; 2; 3; 4; 5; 6; 7; 8])] zzs []).
Proof.
  apply (dqt_payload_round_trip
           [(0, replicate 8 (replicate 8 16));
            (17, replicate 8 [1; 2; 3; 4; 5; 6; 7; 8])]).
  repeat (apply Forall_cons; split); try apply Forall_nil_2;
    (split; [reflexivity|]);
    repeat (apply Forall_cons; split); try apply Forall_nil_2;
    (split; [reflexivity|]);
    unfold is_bytes; repeat (apply Forall_cons; split; [lia|]);
    apply Forall_nil_2.
Defined.

(** ** compressor.py: the pipeline *)

Lemma scaled_matrix_bytes mat : scaled_matrix mat → byte_matrix mat.
Proof.
  intros [Hlen Hrows]. split; [done|].
  eapply Forall_impl; [exact Hrows|]. intros row [Hrow Hv]. split; [done|].
  eapply Forall_impl; [exact Hv|]. cbn beta. lia.
Qed.

Lemma scaled_qtables_rebuild orig quality scaled :
  build_scaled_qtables orig quality = Ok scaled →
  ∃ payload, rebuild_dqt_payload scaled = Ok payload ∧
             length payload = (65 * length orig)%nat ∧ is_bytes payload.
Proof.
  intros Hs. destruct (build_scaled_qtables_shape _ _ _ Hs) as [Hk Hm].
  destruct (rebuild_dqt_loop_spec scaled []) as (enc & zzs & Hloop & Hlen & Hb & _).
  { eapply Forall_impl; [exact Hm|]. intros it. apply scaled_matrix_bytes. }
  exists enc. split; [exact Hloop|]. split; [|exact Hb].
  rewrite Hlen. f_equal.
  by rewrite <- (length_map fst scaled), Hk, length_map.
Qed.

(** X23.  The tables [build_scaled_qtables] returns are ready to be
    written, whatever the quality and the tables it was given: it keeps
    the table ids in their order, each scaled table has 8 rows of 8
    entries between 1 and 255, and [rebuild_dqt_payload] turns them into
    a payload of 65 bytes for each table. *)
Theorem scaled_qtables_payload (orig : list (Z * list Z)) (quality : Z)
    (scaled : list (Z * list (list Z))) :
  build_scaled_qtables orig quality = Ok scaled →
  map fst scaled = map fst orig ∧
  Forall (λ it : Z * list (list Z), scaled_matrix it.2) scaled ∧
  ∃ payload, rebuild_dqt_payload scaled = Ok payload ∧
             length payload = (65 * length orig)%nat ∧ is_bytes payload.
Proof.
  intros Hs. destruct (build_scaled_qtables_shape _ _ _ Hs) as [Hk Hm].
  split; [exact Hk|]. split; [exact Hm|]. by eapply scaled_qtables_rebuild.
Qed.

Lemma scaled_qtables_payload_witness :
  ∃ scaled,
    build_scaled_qtables [(0, replicate 64 16); (1, replicate 64 99)] (-3)
    = Ok scaled ∧
    map fst scaled = [0; 1] ∧
    Forall (λ it : Z * list (list Z), scaled_matrix it.2) scaled ∧
    ∃ payload, rebuild_dqt_payload scaled = Ok payload ∧
               length payload = (65 * 2)%nat ∧ is_bytes payload.
Proof.
  assert (∃ scaled,
            build_scaled_qtables [(0, replicate 64 16); (1, replicate 64 99)]
              (-3) = Ok scaled) as [scaled Hs]
    by (eexists; vm_compute; reflexivity).
  exists scaled. split; [exact Hs|].
  exact (scaled_qtables_payload _ _ _ Hs).
Defined.

(** *** The re-encoded scan *)

Lemma stuffed_writer_init : stuffed_writer BitWriter.init.
Proof. split; [intros j Hj; by destruct j|constructor]. Qed.

Lemma stuffed_write_bits n value w :
  stuffed_writer w → stuffed_writer (BitWriter.write_bits n value w).
Proof. intros [Hs Hb]. by apply write_bits_invariant. Qed.

Lemma stuffed_encode_coefficient value w :
  stuffed_writer w → stuffed_writer (encode_coefficient value w).
Proof.
  intros Hw. unfold encode_coefficient.
  destruct (value =? 0); [done|].
  destruct (value <? 0); by apply stuffed_write_bits.
Qed.

Lemma stuffed_encode_ac_symbols syms ac_table : ∀ w w',
  stuffed_writer w → encode_ac_symbols syms ac_table w = Ok w' →
  stuffed_writer w'.
Proof.
  induction syms as [|sym syms IH]; intros w w' Hw; cbn [encode_ac_symbols].
  - by intros [= <-].
  - destruct sym as [dc|run size amp| |]; [done| | |].
    + destruct (HuffmanTable.encode _ _) as [[code len]|]; [|done].
      cbn [mbind result_bind]. apply IH.
      by apply stuffed_encode_coefficient, stuffed_write_bits.
    + destruct (HuffmanTable.encode _ _) as [[code len]|]; [|done].
      cbn [mbind result_bind]. apply IH. by apply stuffed_write_bits.
    + destruct (HuffmanTable.encode _ _) as [[code len]|]; [|done].
      cbn [mbind result_bind]. intros [= <-]. by apply stuffed_write_bits.
Qed.

Lemma stuffed_encode_symbols syms dc_table ac_table w w' :
  stuffed_writer w → encode_symbols syms dc_table ac_table w = Ok w' →
  stuffed_writer w'.
Proof.
  intros Hw. unfold encode_symbols.
  destruct syms as [|[dc|run size amp| |] syms]; try done.
  destruct (HuffmanTable.encode _ _) as [[code len]|]; [|done].
  cbn [mbind result_bind]. apply stuffed_encode_ac_symbols.
  by apply stuffed_encode_coefficient, stuffed_write_bits.
Qed.

Lemma stuffed_reencode all_syms orig scaled dc_tables ac_tables : ∀ w w',
  stuffed_writer w →
  reencode all_syms orig scaled dc_tables ac_tables w = Ok w' →
  stuffed_writer w'.
Proof.
  induction all_syms as [|syms all_syms IH]; intros w w' Hw; cbn [reencode].
  - by intros [= <-].
  - repeat match goal with
           | |- context [mbind _ ?x] =>
             destruct x as [?|?] eqn:?; [cbn [mbind result_bind]|done]
           end.
    apply IH. by eapply stuffed_encode_symbols.
Qed.

Lemma stuffed_get_bytes w :
  stuffed_writer w →
  every_ff_stuffed (BitWriter.get_bytes w) ∧ is_bytes (BitWriter.get_bytes w).
Proof. intros [Hs Hb]. by apply (write_all_invariant [] w). Qed.

(** What a successful run of the steps before [rebuild_jpeg] has
    computed. *)
Lemma transcode_ok_inv fs input_path quality s t :
  transcode fs input_path quality = (s, Ok t) →
  ∃ p dc ac all_syms bw,
    parse_jpeg fs input_path = Ok p ∧
    locate_frame (segments p) = Ok (t_frame_marker t, t_frame_payload t) ∧
    build_scaled_qtables (quant_tables p) quality = Ok (t_scaled_qtables t) ∧
    reencode all_syms (quant_tables p) (t_scaled_qtables t) dc ac
      BitWriter.init = Ok bw ∧
    t_new_scan t = BitWriter.get_bytes bw ∧
    t_segments t = segments p ∧ t_scan_payload t = scan_header p.
Proof.
  unfold transcode.
  destruct (parse_jpeg fs input_path) as [p|]; [|done].
  destruct (locate_frame (segments p)) as [[fm fp]|] eqn:Hframe; [|done].
  destruct (collect_dht (segments p) ∅ ∅) as [[dc ac]|]; [|done].
  cbv zeta.
  destruct (decode_all _ _ dc ac []) as [all_syms|]; [|done].
  destruct (build_scaled_qtables (quant_tables p) quality) as [scaled|]
    eqn:Hscaled; [|done].
  destruct (reencode _ _ _ _ _ _) as [bw|] eqn:Hbw; [|done].
  intros [= _ <-]. cbn [t_frame_marker t_frame_payload t_scaled_qtables
                        t_new_scan t_segments t_scan_payload].
  exists p, dc, ac, all_syms, bw. done.
Qed.

Lemma transcode_raise_stage fs input_path quality s e :
  transcode fs input_path quality = (s, Raise e) → s ≠ StRebuild.
Proof.
  unfold transcode.
  repeat match goal with
         | |- context [match ?x with Ok _ => _ | Raise _ => _ end] =>
           destruct x as [?|?]; [|by intros [= <- _]]
         | |- context [let '(_, _) := ?x in _] => destruct x
         end.
  done.
Qed.

(** X24.  The entropy-coded data [compress] hands to [rebuild_jpeg] is a
    byte string in which every 0xFF is followed by 0x00, whatever file it
    was computed from: no marker can show up inside the new scan. *)
Theorem transcode_scan_stuffed (fs : gmap string (list Z))
    (input_path : string) (quality : Z) (s : stage) (t : transcoded) :
  transcode fs input_path quality = (s, Ok t) →
  every_ff_stuffed (t_new_scan t) ∧ is_bytes (t_new_scan t).
Proof.
  intros Ht.
  destruct (transcode_ok_inv _ _ _ _ _ Ht)
    as (p & dc & ac & all_syms & bw & _ & _ & _ & Hbw & -> & _).
  apply stuffed_get_bytes.
  eapply stuffed_reencode; [apply stuffed_writer_init|exact Hbw].
Qed.

Lemma transcode_scan_stuffed_witness :
  ∃ t, transcode {[ "in.jpg"%string := tiny_jpeg ]} "in.jpg" 50
       = (StRebuild, Ok t) ∧
       every_ff_stuffed (t_new_scan t) ∧ is_bytes (t_new_scan t).
Proof.
  assert (∃ t, transcode {[ "in.jpg"%string := tiny_jpeg ]} "in.jpg" 50
               = (StRebuild, Ok t)) as [t Ht]
    by (eexists; vm_compute; reflexivity).
  exists t. split; [exact Ht|].
  exact (transcode_scan_stuffed _ _ _ _ _ Ht).
Defined.

(** *** When the write stage fails *)

Lemma dict_set_keys {V} (k : Z) (v : V) (d : list (Z * V)) :
  map fst (dict_set k v d)
  = if decide (k ∈ map fst d) then map fst d else map fst d ++ [k].
Proof.
  induction d as [|[k' v'] d IH]; cbn [dict_set map fst].
  - destruct (decide (k ∈ [])) as [Hin|_]; [|done].
    by apply elem_of_nil in Hin.
  - destruct (Z.eqb_spec k' k) as [->|Hne]; cbn [map fst].
    + destruct (decide (k ∈ k :: map fst d)) as [_|Hnin]; [done|].
      exfalso. apply Hnin. apply elem_of_cons. by left.
    + rewrite IH.
      destruct (decide (k ∈ map fst d)) as [Hin|Hnin];
        destruct (decide (k ∈ k' :: map fst d)) as [Hin'|Hnin']; try done.
      * exfalso. apply Hnin'. apply elem_of_cons. by right.
      * exfalso. apply elem_of_cons in Hin' as [->|?]; done.
Qed.

Lemma dict_set_nibble_keys {V} (k : Z) (v : V) (d : list (Z * V)) :
  0 ≤ k ≤ 15 → nibble_keys d → nibble_keys (dict_set k v d).
Proof.
  intros Hk [Hnd Hr]. unfold nibble_keys. rewrite dict_set_keys.
  destruct (decide (k ∈ map fst d)) as [Hin|Hnin]; [done|]. split.
  - apply NoDup_app. split; [done|]. split; [|apply NoDup_singleton].
    intros x Hx Hxk. apply list_elem_of_singleton in Hxk as ->. done.
  - apply Forall_app. split; [done|]. by apply Forall_singleton.
Qed.

Lemma dqt_loop_nibble_keys fuel payload : ∀ i qt qt',
  nibble_keys qt → dqt_loop fuel payload i qt = Ok qt' → nibble_keys qt'.
Proof.
  induction fuel as [|fuel IH]; intros i qt qt' Hqt; cbn [dqt_loop];
    destruct (payload !! i) as [pq_tq|];
    [discriminate|intros [= <-]; exact Hqt| |intros [= <-]; exact Hqt].
  cbv zeta.
  assert (0 ≤ Z.land pq_tq 15 ≤ 15) as Htq.
  { replace (Z.land pq_tq 15) with (pq_tq mod 2 ^ 4)
      by (symmetry; apply (Z.land_ones pq_tq 4); lia).
    pose proof (Z.mod_pos_bound pq_tq (2 ^ 4)). lia. }
  destruct (pq_tq ≫ 4 =? 0).
  - cbn [mbind result_bind]. apply IH. by apply dict_set_nibble_keys.
  - destruct (be16_entries _ _ _) as [table|]; [|done].
    cbn [mbind result_bind]. apply IH. by apply dict_set_nibble_keys.
Qed.

Lemma nibble_keys_length {V} (d : list (Z * V)) :
  nibble_keys d → (length d ≤ 16)%nat.
Proof.
  intros [Hnd Hr]. rewrite <- (length_map fst d).
  change 16%nat with (Z.to_nat 16). rewrite <- (length_seqZ 0 16).
  apply submseteq_length, NoDup_submseteq; [done|].
  intros k Hk. apply elem_of_seqZ.
  pose proof (proj1 (Forall_forall _ _) Hr k Hk). cbn beta in *. lia.
Qed.

Lemma parse_loop_inv fuel data : ∀ ptr st p,
  parse_inv st → parse_loop fuel data ptr st = Ok p → parse_inv p.
Proof.
  induction fuel as [|fuel IH]; intros ptr st p Hst;
    cbn [parse_loop]; destruct (data !! ptr) as [byte|];
    [discriminate|intros [= <-]; exact Hst| |intros [= <-]; exact Hst].
  destruct Hst as [Hsos Hkeys].
  destruct (byte =? 255); cbn [negb].
  - destruct (index data (S ptr)) as [marker|]; [|done].
    cbn [mbind result_bind]. cbv zeta.
    destruct (marker =? EOI).
    { intros [= <-]. split; [|done]. cbn [scan_header segments].
      intros pl Hpl. apply elem_of_app. left. by apply Hsos. }
    destruct (unpack_H data (ptr + 2)) as [len|]; [|done].
    cbn [mbind result_bind].
    destruct (marker =? DQT).
    { destruct (dqt_loop _ _ _ _) as [qt|] eqn:Hqt; [|done].
      cbn [mbind result_bind]. apply IH. split.
      - cbn [scan_header segments]. intros pl Hpl.
        apply elem_of_app. left. by apply Hsos.
      - cbn [quant_tables]. by eapply dqt_loop_nibble_keys. }
    destruct (marker =? DHT).
    { apply IH. split; [|done]. cbn [scan_header segments]. intros pl Hpl.
      apply elem_of_app. left. by apply Hsos. }
    destruct (marker =? SOF0).
    { apply IH. split; [|done]. cbn [scan_header segments]. intros pl Hpl.
      apply elem_of_app. left. by apply Hsos. }
    destruct (Z.eqb_spec marker SOS) as [->|_].
    + apply IH. split; [|done]. cbn [scan_header segments].
      intros pl [= <-]. apply elem_of_app. right.
      by apply list_elem_of_singleton.
    + apply IH. split; [|done]. cbn [scan_header segments]. intros pl Hpl.
      apply elem_of_app. left. by apply Hsos.
  - apply IH. by split.
Qed.

Lemma build_segment_ok marker payload :
  0 ≤ marker ≤ 255 → Z.of_nat (length payload) ≤ 65533 →
  ∃ framed, build_segment marker payload = Ok framed.
Proof.
  intros Hm Hlen. unfold build_segment, bytes1, pack_H.
  replace ((0 <=? marker) && (marker <=? 255)) with true
    by (symmetry; apply andb_true_iff; lia).
  cbn [mbind result_bind].
  replace ((0 <=? Z.of_nat (length payload) + 2)
           && (Z.of_nat (length payload) + 2 <=? 65535)) with true
    by (symmetry; apply andb_true_iff; lia).
  cbn [mbind result_bind]. by eexists.
Qed.

Lemma write_chunks_raise chunks : ∀ out content e,
  write_chunks chunks out = (content, Raise e) → Raise e ∈ chunks.
Proof.
  induction chunks as [|[b|e'] chunks IH]; intros out content e;
    cbn [write_chunks].
  - done.
  - intros Hw. apply elem_of_cons. right. by eapply IH.
  - intros [= _ <-]. apply elem_of_cons. by left.
Qed.

Lemma framed_segments_ok (f : Z * list Z → bool) (segs : list (Z * list Z)) e :
  (∀ s, s ∈ segs → ∃ framed, build_segment s.1 s.2 = Ok framed) →
  Raise e ∉ map (λ s : Z * list Z, build_segment s.1 s.2) (List.filter f segs).
Proof.
  intros Hsegs Hin. apply list_elem_of_In, in_map_iff in Hin
    as (s & Hs & Hin).
  apply filter_In in Hin as [Hin _]. apply list_elem_of_In in Hin.
  destruct (Hsegs s Hin) as [framed Hf]. congruence.
Qed.

(** X25.  On a file of bytes, the only way [rebuild_jpeg] can fail inside
    [compress] is the missing scan header: the exception is the
    [TypeError] of [len(None)], and the file had no SOS segment that
    [parse_jpeg] reached.  Every other [build_segment] call of the write
    stage succeeds.  (Opening and writing the output file are taken to
    succeed.) *)
Theorem compress_write_failure (fs fs' : gmap string (list Z))
    (input_path output_path : string) (quality : Z) (data : list Z)
    (e : exn) :
  fs !! input_path = Some data → is_bytes data →
  compress fs input_path output_path quality = (fs', Failed StRebuild e) →
  e = TypeError ∧
  ∃ p, parse_jpeg fs input_path = Ok p ∧ scan_header p = None.
Proof.
  intros Hfs Hdata. unfold compress.
  destruct (transcode fs input_path quality) as [s [t|e0]] eqn:Ht.
  2:{ intros [= _ -> _]. by apply transcode_raise_stage in Ht. }
  destruct (transcode_ok_inv _ _ _ _ _ Ht)
    as (p & dc & ac & all_syms & bw & Hp & Hframe & Hscaled & _ & _ & Hsegs
        & Hsos).
  unfold rebuild_jpeg. rewrite Hsegs, Hsos.
  destruct (write_chunks _ _) as [content [[]|e1]] eqn:Hw; [done|].
  intros [= _ ->]. apply write_chunks_raise in Hw.
  (* what parsing guarantees *)
  assert (Forall frameable (segments p) ∧ parse_inv p) as [Hfr [Hhdr Hkeys]].
  { revert Hp. unfold parse_jpeg. rewrite Hfs. unfold parse_jpeg_bytes.
    destruct (negb _); [done|]. intros Hp. split.
    - eapply parse_loop_segments_frameable; [exact Hdata| |exact Hp].
      constructor.
    - eapply parse_loop_inv; [|exact Hp]. split; [done|].
      split; [constructor|constructor]. }
  assert (∀ s, s ∈ segments p →
            ∃ framed, build_segment s.1 s.2 = Ok framed) as Hbuild.
  { intros sg Hsg.
    destruct (proj1 (Forall_forall _ _) Hfr sg Hsg) as (Hm & Hlen & _).
    by apply build_segment_ok. }
  unfold rebuild_chunks in Hw. rewrite !elem_of_app in Hw.
  destruct Hw as [Hw|[Hw|[Hw|[Hw|[Hw|[Hw|[Hw|[Hw|Hw]]]]]]]].
  - by apply list_elem_of_singleton in Hw.
  - exfalso. revert Hw. by apply framed_segments_ok.
  - exfalso. apply list_elem_of_singleton in Hw.
    destruct (scaled_qtables_rebuild _ _ _ Hscaled)
      as (payload & Hpayload & Hlen & _).
    rewrite Hpayload in Hw. cbn [mbind result_bind] in Hw.
    pose proof (nibble_keys_length _ Hkeys) as Hn.
    destruct (build_segment_ok DQT payload) as [framed Hf];
      [unfold DQT; lia|lia|congruence].
  - exfalso. apply list_elem_of_singleton in Hw.
    unfold locate_frame in Hframe.
    destruct (List.find _ (segments p)) as [s0|] eqn:Hfind; [|done].
    injection Hframe as ->. apply find_some in Hfind as [Hin _].
    apply list_elem_of_In in Hin. destruct (Hbuild _ Hin) as [framed Hf].
    cbn [fst snd] in Hf. congruence.
  - exfalso. apply list_elem_of_In, in_map_iff in Hw as (s1 & Hs1 & Hin).
    apply filter_In in Hin as [Hin Hdht]. apply list_elem_of_In in Hin.
    apply Z.eqb_eq in Hdht. destruct (Hbuild _ Hin) as [framed Hf].
    rewrite Hdht in Hf. congruence.
  - exfalso. revert Hw. by apply framed_segments_ok.
  - apply list_elem_of_singleton in Hw.
    destruct (scan_header p) as [pl|] eqn:Hpl.
    + exfalso. destruct (Hbuild _ (Hhdr pl eq_refl)) as [framed Hf].
      cbn [fst snd] in Hf. congruence.
    + injection Hw as ->. split; [done|]. by exists p.
  - by apply list_elem_of_singleton in Hw.
  - by apply list_elem_of_singleton in Hw.
Qed.

Lemma compress_write_failure_witness :
  TypeError = TypeError ∧
  ∃ p, parse_jpeg {[ "in.jpg"%string := headless_jpeg ]} "in.jpg" = Ok p ∧
       scan_header p = None.
Proof.
  eapply (compress_write_failure {[ "in.jpg"%string := headless_jpeg ]} _
            "in.jpg" "out.jpg" 50 headless_jpeg TypeError).
  - reflexivity.
  - unfold is_bytes. apply (bool_decide_unpack _). vm_compute. exact I.
  - vm_compute. reflexivity.
Defined.
